(** * nostr-hll: HyperLogLog registers and NIP-45 offset derivation

    A shallow embedding of [hyperloglog.js] and [nip45.js].

    - JavaScript numbers that the code only uses as integers (offsets, indices,
      register values, kinds) are [Z]; BigInt values are [Z].
    - A [Uint8Array] is a reference into a store of byte sequences; a
      [HyperLogLog] instance is a reference into a store of objects whose
      [registers] field holds such a reference.  Methods are computations
      over the store, so that sharing of buffers is visible.
    - The numbers handled by [count] are IEEE 754 binary64 values, modelled by
      the primitive type [float]; [Math.log] is a parameter. *)

From Stdlib Require Import ZArith Lia List Bool Ascii String.
From Stdlib Require Import Reals Lra.
From Stdlib Require Import PrimFloat FloatOps FloatAxioms SpecFloat Uint63.
From stdpp Require Import base option list gmap strings.

Local Open Scope Z_scope.

(** A decimal literal denotes the nearest binary64 value, in JavaScript as
    here. *)
Set Warnings "-inexact-float".

(** ** Typed arrays *)

(** Element values of a [Uint8Array]. *)
Definition is_byte (v : Z) : Prop := 0 <= v < 256.

Definition is_byteb (v : Z) : bool := (0 <=? v) && (v <? 256).

(** The conversion applied by an element store into a [Uint8Array]. *)
Definition ToUint8 (v : Z) : Z := v mod 256.

(** [a[i]] for an index that may itself be [undefined]; [None] is
    [undefined] (index out of range, or no index). *)
Definition elem (a : list Z) (i : option Z) : option Z :=
  match i with
  | Some i => if i <? 0 then None else a !! Z.to_nat i
  | None => None
  end.

(** [a[i] = v] on a typed array: the value is converted, and a store out of
    range is ignored (the array never grows). *)
Definition elem_set (a : list Z) (i : option Z) (v : Z) : list Z :=
  match i with
  | Some i => if i <? 0 then a else <[Z.to_nat i := ToUint8 v]> a
  | None => a
  end.

(** [x > y] where either side may be [undefined]: a comparison with
    [undefined] is false. *)
Definition js_gt (x y : option Z) : bool :=
  match x, y with
  | Some x, Some y => y <? x
  | _, _ => false
  end.

(** [a.subarray(b, e)]: negative indices count from the end, and both ends
    are clamped to the array. *)
Definition subarray (a : list Z) (b e : Z) : list Z :=
  let len := Z.of_nat (length a) in
  let rb := if b <? 0 then Z.max (len + b) 0 else Z.min b len in
  let re := if e <? 0 then Z.max (len + e) 0 else Z.min e len in
  take (Z.to_nat (Z.max (re - rb) 0)) (drop (Z.to_nat rb) a).

(** [new DataView(x.buffer, x.byteOffset, x.byteLength).getBigUint64(0, false)]:
    the first eight bytes of the view, most significant first; [None] is the
    [RangeError] raised when the view holds fewer than eight bytes. *)
Definition getBigUint64 (x : list Z) : option Z :=
  if (8 <=? Z.of_nat (length x))
  then Some (foldl (fun acc b => Z.lor (Z.shiftl acc 8) b) 0 (take 8 x))
  else None.

(** The unsigned integer a byte sequence denotes, most significant byte
    first. *)
Fixpoint big_endian (bs : list Z) : Z :=
  match bs with
  | [] => 0
  | b :: bs' => b * 256 ^ Z.of_nat (length bs') + big_endian bs'
  end.

(** The array [r] after the loop [if (o[i] > r[i]) r[i] = o[i]] has run over
    the indices of [o]. *)
Fixpoint merge_arrays (r o : list Z) : list Z :=
  match r, o with
  | x :: r', y :: o' => (if x <? y then ToUint8 y else x) :: merge_arrays r' o'
  | _, _ => r
  end.

(** ** The store *)

Definition loc := positive.

Record HyperLogLog := mkHyperLogLog { offset : Z; registers : loc }.

Global Instance HyperLogLog_inhabited : Inhabited HyperLogLog :=
  populate (mkHyperLogLog 0 1%positive).

Record store := mkStore {
  arrays : gmap loc (list Z);
  objects : gmap loc HyperLogLog
}.

Definition array_of (s : store) (a : loc) : list Z := arrays s !!! a.
Definition object_of (s : store) (o : loc) : HyperLogLog := objects s !!! o.

Definition set_array (s : store) (a : loc) (v : list Z) : store :=
  mkStore (<[a := v]> (arrays s)) (objects s).

Definition set_object (s : store) (o : loc) (v : HyperLogLog) : store :=
  mkStore (arrays s) (<[o := v]> (objects s)).

(** The register contents an estimator currently sees. *)
Definition registers_of (s : store) (this : loc) : list Z :=
  array_of s (registers (object_of s this)).

(** ** Computations *)

Inductive error :=
  | InvalidOffset          (* Error('invalid offset ...') *)
  | InvalidRegisterCount   (* Error('invalid number of registers ...') *)
  | RangeError.            (* raised by the DataView read *)

Inductive completion (A : Type) :=
  | Normal (a : A) (s : store)
  | Throw (e : error) (s : store)
  | OutOfFuel.
Arguments Normal {A} a s.
Arguments Throw {A} e s.
Arguments OutOfFuel {A}.

Definition M (A : Type) : Type := store -> completion A.

Definition ret {A} (a : A) : M A := fun s => Normal a s.
Definition throw {A} (e : error) : M A := fun s => Throw e s.
Definition bind {A B} (m : M A) (k : A -> M B) : M B :=
  fun s => match m s with
           | Normal a s' => k a s'
           | Throw e s' => Throw e s'
           | OutOfFuel => OutOfFuel
           end.
Definition gets {A} (f : store -> A) : M A := fun s => Normal (f s) s.
Definition modify (f : store -> store) : M unit := fun s => Normal tt (f s).

Notation "'do' x <- m ; k" := (bind m (fun x => k))
  (at level 10, x name, m at level 100, k at level 200).
Notation "m ;; k" := (bind m (fun _ => k))
  (at level 100, k at level 200, right associativity).

(** The store a call leaves behind; a call that throws leaves the store it
    threw in. *)
Definition final_store {A} (c : completion A) (s0 : store) : store :=
  match c with
  | Normal _ s => s
  | Throw _ s => s
  | OutOfFuel => s0
  end.

(** The store after running [m] from [s]. *)
Definition exec {A} (m : M A) (s : store) : store := final_store (m s) s.

(** [s'] differs from [s] at most in the contents of the array [a], which
    are [v]. *)
Definition writes_only (a : loc) (v : list Z) (s s' : store) : Prop :=
  objects s' = objects s
  /\ array_of s' a = v
  /\ forall a', a' <> a -> array_of s' a' = array_of s a'.

(** What the in-place methods leave alone: the objects, and every array but
    the receiver's register buffer, whose length is kept. *)
Definition frames (this : loc) (s s' : store) : Prop :=
  objects s' = objects s
  /\ length (registers_of s' this) = length (registers_of s this)
  /\ forall a, a <> registers (object_of s this) -> array_of s' a = array_of s a.

Definition allocated_array (s : store) (a : loc) : Prop := is_Some (arrays s !! a).
Definition allocated_object (s : store) (o : loc) : Prop := is_Some (objects s !! o).

Definition empty_store : store := mkStore ∅ ∅.

(** A [Uint8Array] made by the caller, holding [bytes]. *)
Definition alloc_array (bytes : list Z) : M loc := fun s =>
  let a := fresh (dom (arrays s)) in
  Normal a (set_array s a bytes).

(** [forallb is_byteb] decides that a list holds bytes. *)
Definition all_bytes (l : list Z) : bool := forallb is_byteb l.

(** [new Uint8Array(n)]: a fresh buffer of [n] zero bytes. *)
Definition new_Uint8Array (n : nat) : M loc := fun s =>
  let a := fresh (dom (arrays s)) in
  Normal a (set_array s a (replicate n 0)).

(** Allocation of the instance built by [new]. *)
Definition new_object (v : HyperLogLog) : M loc := fun s =>
  let o := fresh (dom (objects s)) in
  Normal o (set_object s o v).

(** [target.set(source)]: copies [source] over the start of [target];
    a source longer than the target is a [RangeError]. *)
Definition typed_array_set (target source : loc) : M unit := fun s =>
  let src := array_of s source in
  let tgt := array_of s target in
  if (length tgt <? length src)%nat then Throw RangeError s
  else Normal tt (set_array s target (src ++ drop (length src) tgt)).

Module Hll.

(** ** hyperloglog.js *)

(** [clz56]: the while loop, one iteration per unit of fuel. *)
Fixpoint clz56_loop (fuel : nat) (c m x : Z) : option Z :=
  match fuel with
  | O => None
  | S fuel =>
      if (Z.land m x =? 0) && negb (m =? 0)
      then clz56_loop fuel (c + 1) (Z.shiftr m 1) x
      else Some c
  end.

Definition clz56_fuel : nat := 64.

Definition clz56 (x : Z) : option Z :=
  clz56_loop clz56_fuel 0 (Z.shiftl 1 55) x.

(** The number of zero bits of [x] met when scanning the [n] low bits from
    bit [n - 1] downward, before the first one bit (all [n] when none is set). *)
Fixpoint lz (n : nat) (x : Z) : Z :=
  match n with
  | O => 0
  | S k => if Z.testbit x (Z.of_nat k) then 0 else 1 + lz k x
  end.

(** [new HyperLogLog(offset)]. *)
Definition constructor (offset : Z) : M loc :=
  if (offset <? 0) || (32 - 8 <? offset) then throw InvalidOffset
  else
    do regs <- new_Uint8Array 256;
    new_object (mkHyperLogLog offset regs).

(** [HyperLogLog.newWithRegisters(registers, offset)]. *)
Definition newWithRegisters (registers_arg : loc) (offset : Z) : M loc :=
  do hll <- constructor offset;
  do len <- gets (fun s => length (array_of s registers_arg));
  if negb (len =? 256)%nat then throw InvalidRegisterCount
  else
    do target <- gets (fun s => registers (object_of s hll));
    typed_array_set target registers_arg ;;
    ret hll.

Definition getRegisters (this : loc) : M loc :=
  gets (fun s => registers (object_of s this)).

Definition setRegisters (this enc : loc) : M unit :=
  modify (fun s => set_object s this (mkHyperLogLog (offset (object_of s this)) enc)).

(** One iteration of the loop of [mergeRegisters]: [other[i]] and
    [this.registers[i]] are read from the current store. *)
Definition mergeRegisters_step (this other : loc) (s : store) (i : nat) : store :=
  let regs := registers (object_of s this) in
  match array_of s other !! i with
  | Some v =>
      if js_gt (Some v) (array_of s regs !! i)
      then set_array s regs (elem_set (array_of s regs) (Some (Z.of_nat i)) v)
      else s
  | None => s
  end.

(** [mergeRegisters(other)]: [i] runs from 0 while [i < other.length]; the
    length of a typed array is fixed, so the bound is the one read on entry. *)
Definition mergeRegisters (this other : loc) : M unit :=
  modify (fun s =>
    foldl (mergeRegisters_step this other) s (seq 0 (length (array_of s other)))).

Definition clear (this : loc) : M unit :=
  modify (fun s =>
    let regs := registers (object_of s this) in
    set_array s regs (replicate (length (array_of s regs)) 0)).

(** [add(pubkey)].  The length test on [pubkey] has an empty body. *)
Definition add (this pubkey : loc) : M unit := fun s =>
  let hll := object_of s this in
  let x := subarray (array_of s pubkey) (offset hll) (offset hll + 8) in
  let j := x !! 0%nat in
  match getBigUint64 x with
  | None => Throw RangeError s
  | Some w =>
      match clz56 w with
      | None => OutOfFuel
      | Some c =>
          let zeroBits := c + 1 in
          let regs := registers hll in
          if js_gt (Some zeroBits) (elem (array_of s regs) j)
          then Normal tt (set_array s regs (elem_set (array_of s regs) j zeroBits))
          else Normal tt s
      end
  end.

Definition addBytes (this pubkey : loc) : M unit := add this pubkey.

(** One iteration of the loop of [merge]; [other.registers] is read again at
    each iteration. *)
Definition merge_step (this other : loc) (s : store) (i : nat) : store :=
  let regs := registers (object_of s this) in
  match registers_of s other !! i with
  | Some v =>
      if js_gt (Some v) (array_of s regs !! i)
      then set_array s regs (elem_set (array_of s regs) (Some (Z.of_nat i)) v)
      else s
  | None => s
  end.

Definition merge (this other : loc) : M unit :=
  modify (fun s =>
    foldl (merge_step this other) s (seq 0 (length (registers_of s other)))).

(** The calls that change an estimator. *)
Inductive mutation :=
  | Add (pubkey : loc)
  | AddBytes (pubkey : loc)
  | Merge (other : loc)
  | MergeRegisters (other : loc)
  | Clear
  | SetRegisters (enc : loc).

Definition mutate (this : loc) (m : mutation) : M unit :=
  match m with
  | Add pubkey => add this pubkey
  | AddBytes pubkey => addBytes this pubkey
  | Merge other => merge this other
  | MergeRegisters other => mergeRegisters this other
  | Clear => clear this
  | SetRegisters enc => setRegisters this enc
  end.

(** A sequence of calls on one estimator; a call that raises is caught and
    the sequence goes on. *)
Definition mutate_all (this : loc) (ms : list mutation) (s : store) : store :=
  foldl (fun s m => exec (mutate this m) s) s ms.

(** [HyperLogLog.newWithRegisters(e.getRegisters(), e.offset)]. *)
Definition round_trip (e : loc) : M loc :=
  do regs <- getRegisters e;
  do off <- gets (fun s => offset (object_of s e));
  newWithRegisters regs off.

(** *** Numbers *)

(** The Number with a given integer value (exact below 2^53). *)
Definition Number (z : Z) : float :=
  if z <? 0 then (- of_uint63 (of_Z (- z)))%float else of_uint63 (of_Z z).

(** [Math.floor]: the greatest integral Number not above the argument, read
    off the sign, mantissa and exponent of the argument. *)
Definition Math_floor (x : float) : float :=
  match Prim2SF x with
  | S754_finite sign m e =>
      if 0 <=? e then x
      else if sign then (- Number (- ((- Z.pos m) / 2 ^ (- e))))%float
      else Number (Z.pos m / 2 ^ (- e))
  | _ => x
  end.

(** [Math.pow(2, val)] for a register value [val]: the power of two itself. *)
Definition Math_pow2 (val : Z) : float := Z.ldexp 1%float val.

(** [countZeros]. *)
Definition countZeros (s : list Z) : Z :=
  foldl (fun c v => if v =? 0 then c + 1 else c) 0 s.

Section Count.

(** [Math.log] is implementation-approximated; it is a parameter of the
    development. *)
Variable Math_log : float -> float.

(** [linearCounting]. *)
Definition linearCounting (m v : float) : float := (m * Math_log (m / v))%float.

(** [calculateEstimate], on the register contents. *)
Definition calculateEstimate (regs : list Z) : float :=
  let sum := foldl (fun sum val => (sum + 1 / Math_pow2 val)%float) 0%float regs in
  ((0.7182725932495458 * 256 * 256) / sum)%float.

(** [count], on the register contents. *)
Definition count_registers (regs : list Z) : float :=
  let v := countZeros regs in
  let rest :=
    let est := calculateEstimate regs in
    if (est <=? 256 * 3)%float
    then if negb (v =? 0)
         then Math_floor (linearCounting 256 (Number v))
         else Math_floor est
    else Math_floor est in
  if negb (v =? 0)
  then let lc := linearCounting 256 (Number v) in
       if (lc <=? 220)%float then Math_floor lc else rest
  else rest.

Definition count (this : loc) : M float :=
  gets (fun s => count_registers (registers_of s this)).

End Count.

(** ** The estimate as specified *)

Definition spec_m : float := 256.
Definition spec_alpha : float := 0.7182725932495458.
Definition LC_MAX : float := 220.
Definition RAW_MAX : float := 768.

(** The number of registers equal to zero. *)
Definition zero_registers (regs : list Z) : Z :=
  Z.of_nat (length (List.filter (fun r => r =? 0) regs)).

(** The sum of [2^(-registers[i])] over the registers, in index order. *)
Definition sum_inverse_powers (regs : list Z) : float :=
  foldl (fun acc r => (acc + Z.ldexp 1 (- r))%float) 0%float regs.

Section Estimate.

Variable log : float -> float.

(** The control flow of the estimate, in the words of the specification. *)
Definition estimate_spec (regs : list Z) : float :=
  let v := zero_registers regs in
  let linear := (spec_m * log (spec_m / Number v))%float in
  if negb (v =? 0) && (linear <=? LC_MAX)%float then Math_floor linear
  else
    let E := (spec_alpha * (spec_m * spec_m) / sum_inverse_powers regs)%float in
    if (E <=? RAW_MAX)%float && negb (v =? 0) then Math_floor linear
    else Math_floor E.

End Estimate.

(** ** The test vectors of hyperloglog.test.js *)

(** The value of one hexadecimal digit, as [parseInt(_, 16)] reads it. *)
Definition hex_digit (c : ascii) : Z :=
  let n := Z.of_N (N_of_ascii c) in
  if (48 <=? n) && (n <=? 57) then n - 48
  else if (97 <=? n) && (n <=? 102) then n - 87
  else if (65 <=? n) && (n <=? 70) then n - 55
  else 0.

(** [registers[i] = parseInt(hex.substring(i * 2, i * 2 + 2), 16)]. *)
Fixpoint registers_of_hex (hex : string) : list Z :=
  match hex with
  | String hi (String lo rest) => (16 * hex_digit hi + hex_digit lo) :: registers_of_hex rest
  | _ => []
  end.

Definition vector_go : string :=
  "0100000101000000000000040000000001020000000002000000000200000003000002040000000101020001010000000000000007000004010000000200040000020400000000000102000002000004010000010000000301000102030002000301000300010000070000000001000004000102010000000400010002000000000103000100010001000001040100020001000000000000010000020000000000030100000001000400010000000000000901010100000000040000000b030000010100010000010000010000000003000000000000010003000100020000000000010000010100000100000104000200030001000300000001000101000102".

Definition vector_rust : string :=
  "0607070505060806050508060707070706090d080b0605090607070b07090606060b0705070709050807080805080407060906080707080507070805060509040a0b06060704060405070706080607050907070b08060808080b080607090a06060805060604070908050607060805050d05060906090809080807050e0705070507060907060606070708080b0807070708080706060609080705060604060409070a0808050a0506050b0810060a0908070709080b0a07050806060508060607080606080707050806080c0a0707070a080808050608080f070506070706070a0908090c080708080806090508060606090906060d07050708080405070708".

(** The test: fill a fresh array from the hex string, rebuild an estimator at
    offset 0 from it, and count. *)
Definition count_vector (Math_log : float -> float) (hex : string) : M float :=
  do registers <- alloc_array (registers_of_hex hex);
  do hll <- newWithRegisters registers 0;
  count Math_log hll.

(** [Math.log] is accurate at [256 / 159], the one argument the first vector
    passes to it: the result lies in the band from [121 / 256] to [122 / 256],
    which holds the logarithm itself (see [ln_argument_band]); a result
    within [2^(-12)] of the logarithm is enough (see
    [accurate_log_of_error]). *)
Definition accurate_log (Math_log : float -> float) : Prop :=
  (121 / 256 <=? Math_log (256 / 159))%float = true
  /\ (Math_log (256 / 159) <? 122 / 256)%float = true.

(** A logarithm computed with the series of the inverse hyperbolic tangent,
    [ln x = 2 (z + z^3/3 + z^5/5 + ...)] for [z = (x - 1) / (x + 1)]. *)
Fixpoint atanh_series (n : nat) (k : Z) (zk z2 acc : float) : float :=
  match n with
  | O => acc
  | S n' => atanh_series n' (k + 2) (zk * z2) z2 (acc + zk / Number k)
  end.

Definition ln_series (x : float) : float :=
  let z := ((x - 1) / (x + 1))%float in
  (2 * atanh_series 24 1 z (z * z) 0)%float.

End Hll.

(** ** Numbers as reals *)

(** The real number a finite binary64 value denotes. *)
Definition SF2R (x : spec_float) : option R :=
  match x with
  | S754_zero _ => Some 0%R
  | S754_finite s m e =>
      let magnitude :=
        if e <? 0 then (IZR (Z.pos m) / IZR (2 ^ (- e)))%R
        else IZR (Z.pos m * 2 ^ e) in
      Some (if s then (- magnitude)%R else magnitude)
  | _ => None
  end.

Definition Number_value (x : float) : option R := SF2R (Prim2SF x).

(** The result of [Math_log] at [x] is within [delta] of the logarithm of
    [x]. *)
Definition log_error_within (Math_log : float -> float) (x : float) (delta : R) : Prop :=
  exists vx vy,
    Number_value x = Some vx
    /\ Number_value (Math_log x) = Some vy
    /\ (Rabs (vy - ln vx) <= delta)%R.

(** [k] squarings of [X / S], each rounded down (or up) to a multiple of
    [1 / S]. *)
Fixpoint squarings_down (k : nat) (X S : Z) : Z :=
  match k with
  | O => X
  | Datatypes.S k' => squarings_down k' (X * X / S) S
  end.

Fixpoint squarings_up (k : nat) (X S : Z) : Z :=
  match k with
  | O => X
  | Datatypes.S k' => squarings_up k' (X * X / S + 1) S
  end.

(** ** Sample data *)

(** The key with bytes 1, 2, ..., 32. *)
Definition sample_key : list Z := map Z.of_nat (seq 1 32).

(** An estimator at offset 4 (object 1, buffer 1) and the sample key
    (buffer 2), as a caller obtains them. *)
Definition sample_store : store :=
  exec (do _ <- Hll.constructor 4; alloc_array sample_key) empty_store.

(** An estimator at offset 0 (object 1, buffer 1) next to a four-byte array
    (buffer 2). *)
Definition short_key_store : store :=
  exec (do _ <- Hll.constructor 0; alloc_array [1; 2; 3; 4]) empty_store.

(** An estimator at offset 0 (object 1, buffer 1) next to a 100-byte array
    (buffer 2). *)
Definition short_buffer_store : store :=
  exec (do _ <- Hll.constructor 0; alloc_array (replicate 100 0)) empty_store.

(** Three register states, and the store in which three estimators (objects
    1, 2 and 3) were rebuilt from them; the buffer 7 holds three bytes. *)
Definition regs_a : list Z := map (fun i => Z.of_nat i mod 5) (seq 0 256).
Definition regs_b : list Z := map (fun i => Z.of_nat i mod 7) (seq 0 256).
Definition regs_c : list Z := map (fun i => Z.of_nat i mod 3) (seq 0 256).

Definition three_estimators : store :=
  exec (do ba <- alloc_array regs_a; do _ <- Hll.newWithRegisters ba 0;
        do bb <- alloc_array regs_b; do _ <- Hll.newWithRegisters bb 0;
        do bc <- alloc_array regs_c; do _ <- Hll.newWithRegisters bc 0;
        alloc_array [9; 0; 9]) empty_store.

Module Nip45.

(** ** nip45.js *)

(** JavaScript strings are sequences of code units; the strings this file
    inspects are compared with ASCII literals and matched against
    [[0-9a-fA-F]], so a string is a [string] with one character per unit. *)

Definition in_range (lo hi c : ascii) : bool :=
  let n := N_of_ascii c in
  (N_of_ascii lo <=? n)%N && (n <=? N_of_ascii hi)%N.

(** The character class [[0-9a-fA-F]]. *)
Definition is_hex_digit (c : ascii) : bool :=
  in_range "0" "9" c || in_range "a" "f" c || in_range "A" "F" c.

(** [/^[0-9a-fA-F]+$/.test(str)]. *)
Definition hex_regex_test (str : string) : bool :=
  match str with
  | EmptyString => false
  | _ => forallb is_hex_digit (list_ascii_of_string str)
  end.

(** [isValid32ByteHex]; the argument is [None] when it is [undefined]. *)
Definition isValid32ByteHex (str : option string) : bool :=
  match str with
  | Some str => (String.length str =? 64)%nat && hex_regex_test str
  | None => false
  end.

(** [parseInt(c, 16)] for [c] a single character of a string, or [undefined]
    when the string is too short; [None] is [NaN]. *)
Definition parseInt16 (c : option ascii) : option Z :=
  match c with
  | Some c =>
      let n := Z.of_N (N_of_ascii c) in
      if in_range "0" "9" c then Some (n - 48)
      else if in_range "a" "f" c then Some (n - 97 + 10)
      else if in_range "A" "F" c then Some (n - 65 + 10)
      else None
  | None => None
  end.

(** [p + 8], which is [NaN] when [p] is. *)
Definition plus8 (p : option Z) : option Z := (fun p => p + 8) <$> p.

Record Event := mkEvent { kind : Z; tags : list (list string) }.

(** A yielded [{ reference, offset }]; an [offset] of [None] is [NaN]. *)
Record Contribution := mkContribution { reference : string; offset : option Z }.

(** The body of [yield { reference: v, offset: parseInt(v[32], 16) + 8 }]. *)
Definition contribution (v : string) : Contribution :=
  mkContribution v (plus8 (parseInt16 (String.get 32 v))).

(** [t[0] === name]. *)
Definition first_is (name : string) (t : list string) : bool :=
  match t !! 0%nat with
  | Some x => bool_decide (x = name)
  | None => false
  end.

(** The branch shared by the kinds 7 and 1111 once a tag is selected:
    [const v = t[1]; if (isValid32ByteHex(v)) yield ...]. *)
Definition yield_second (t : option (list string)) : list Contribution :=
  match t with
  | Some t =>
      match t !! 1%nat with
      | Some v => if isValid32ByteHex (Some v) then [contribution v] else []
      | None => []
      end
  | None => []
  end.

(** [getEventPubkeyOffsetsAndReferences], as the list of the yielded values. *)
Definition getEventPubkeyOffsetsAndReferences (evt : Event) : list Contribution :=
  if kind evt =? 3 then
    flat_map (fun tag =>
      if (2 <=? length tag)%nat && first_is "p" tag && isValid32ByteHex (tag !! 1%nat)
      then match tag !! 1%nat with Some v => [contribution v] | None => [] end
      else []) (tags evt)
  else if kind evt =? 7 then
    (* the loop runs from the last tag down and stops at the first match *)
    let lastE := List.find (first_is "e") (rev (tags evt)) in
    yield_second lastE
  else if kind evt =? 1111 then
    let e := List.find (first_is "E") (tags evt) in
    yield_second e
  else [].

(** A filter: the named properties, each possibly absent, and the remaining
    own properties (the tag selectors such as ["#p"]). *)
Record Filter := mkFilter {
  ids : option (list string);
  authors : option (list string);
  kinds : option (list Z);
  since : option Z;
  until : option Z;
  limit : option Z;
  search : option string;
  props : gmap string (list string)
}.

(** [Object.keys(filter).filter(k => k.startsWith('#'))]; none of the named
    properties starts with [#]. *)
Definition tagKeys (filter : Filter) : list string :=
  List.filter (String.prefix "#") (map fst (map_to_list (props filter))).

(** [a && a.length > 0]. *)
Definition non_empty {A} (a : option (list A)) : bool :=
  match a with Some l => (0 <? length l)%nat | None => false end.

(** Truthiness of an optional number and of an optional string. *)
Definition truthy_number (n : option Z) : bool :=
  match n with Some n => negb (n =? 0) | None => false end.

Definition truthy_string (x : option string) : bool :=
  match x with Some x => negb (String.eqb x "") | None => false end.

(** [getFilterPubkeyOffset]. *)
Definition getFilterPubkeyOffset (filter : Filter) : Z :=
  if non_empty (ids filter) then -1
  else if non_empty (authors filter) then -1
  else if truthy_number (since filter) then -1
  else if truthy_number (until filter) then -1
  else if truthy_string (search filter) then -1
  else
    match kinds filter with
    | Some [kind] =>
        match tagKeys filter with
        | [tagKey] =>
            match props filter !! tagKey with
            | Some [v] =>
                if negb (isValid32ByteHex (Some v)) then -1
                else
                  let answer :=
                    match parseInt16 (String.get 32 v) with
                    | Some p => p + 8
                    | None => -1
                    end in
                  if String.eqb tagKey "#p" then
                    if kind =? 3 then answer else -1
                  else if String.eqb tagKey "#e" then
                    if kind =? 7 then answer else -1
                  else if String.eqb tagKey "#E" then
                    if kind =? 1111 then answer else -1
                  else -1
            | _ => -1
            end
        | _ => -1
        end
    | _ => -1
    end.

(** ** The derivation as specified *)

(** The value of a hexadecimal digit: its position among the digits. *)
Definition digit_value (c : ascii) : option Z :=
  match String.index 0 (String c "") "0123456789abcdef" with
  | Some i => Some (Z.of_nat i)
  | None =>
      match String.index 0 (String c "") "0123456789ABCDEF" with
      | Some i => Some (Z.of_nat i)
      | None => None
      end
  end.

(** The second element of a tag whose first element is [name] and whose
    second element is a valid hex key. *)
Definition selected (name : string) (tag : list string) : option string :=
  match tag with
  | t0 :: v :: _ =>
      if bool_decide (t0 = name) && isValid32ByteHex (Some v) then Some v else None
  | _ => None
  end.

(** The supported pairs of a tag selector and a kind. *)
Definition supported (tagKey : string) (kind : Z) : Prop :=
  (tagKey = "#p"%string /\ kind = 3)
  \/ (tagKey = "#e"%string /\ kind = 7)
  \/ (tagKey = "#E"%string /\ kind = 1111).

Definition absent_or_empty {A} (a : option (list A)) : Prop :=
  a = None \/ a = Some [].

Definition absent_or_zero (n : option Z) : Prop := n = None \/ n = Some 0.

Definition absent_or_blank (x : option string) : Prop :=
  x = None \/ x = Some EmptyString.

(** The eligibility conditions, for the one kind [kind], the one tag
    selector [tagKey] and its one value [v]. *)
Definition eligible (filter : Filter) (tagKey : string) (kind : Z) (v : string) : Prop :=
  absent_or_empty (ids filter)
  /\ absent_or_empty (authors filter)
  /\ absent_or_zero (since filter)
  /\ absent_or_zero (until filter)
  /\ absent_or_blank (search filter)
  /\ kinds filter = Some [kind]
  /\ (forall k, is_Some (props filter !! k) /\ String.prefix "#" k = true <-> k = tagKey)
  /\ props filter !! tagKey = Some [v]
  /\ isValid32ByteHex (Some v) = true
  /\ supported tagKey kind.

(** ** Sample data *)

Definition hex_a : string := "aaaaaaaaaaaaaaaaaaaaaaaaaaaaaaaaaaaaaaaaaaaaaaaaaaaaaaaaaaaaaaaa".
Definition hex_1 : string := "1111111111111111111111111111111111111111111111111111111111111111".
Definition hex_b : string := "bbbbbbbbbbbbbbbbbbbbbbbbbbbbbbbbbbbbbbbbbbbbbbbbbbbbbbbbbbbbbbbb".

(** [{ kinds: [3], '#p': [hex_a] }]. *)
Definition follower_filter : Filter :=
  mkFilter None None (Some [3]) None None None None {[ "#p"%string := [hex_a] ]}.

(** A reaction with two ["e"] tags. *)
Definition reaction : Event :=
  mkEvent 7 [["e"; hex_1]; ["e"; hex_b]; ["p"; hex_1]]%string.

End Nip45.

(** ** The contributions of an event as specified *)

(** A 32-byte key in hexadecimal: 64 characters, each a hexadecimal digit. *)
Definition hex_key (v : string) : bool :=
  (String.length v =? 64)%nat
  && forallb (fun c => bool_decide (is_Some (Nip45.digit_value c)))
       (list_ascii_of_string v).

(** The pair a reference gives: the reference itself, with the value of its
    hexadecimal digit at index 32 plus 8. *)
Definition reference_pair (v : string) : Nip45.Contribution :=
  Nip45.mkContribution v
    (match String.get 32 v with
     | Some d => match Nip45.digit_value d with Some n => Some (n + 8) | None => None end
     | None => None
     end).

(** The reference of a tag named [name]: its second element, when the first
    is [name] and the second is a key. *)
Definition referenced (name : string) (tag : list string) : option string :=
  match tag with
  | t0 :: v :: _ => if bool_decide (t0 = name) && hex_key v then Some v else None
  | _ => None
  end.

(** * Compositions *)

(** ** Sequences of updates *)

(** [for (const k of keys) this.add(k)]. *)
Fixpoint add_each (this : loc) (keys : list loc) : M unit :=
  match keys with
  | [] => ret tt
  | k :: keys' => Hll.add this k ;; add_each this keys'
  end.

(** The eight bytes of a key at an offset, the register they select and the
    rank they give. *)
Definition window (off : Z) (key : list Z) : list Z :=
  take 8 (drop (Z.to_nat off) key).

Definition bucket (off : Z) (key : list Z) : nat :=
  Z.to_nat (default 0 (window off key !! 0%nat)).

Definition rank (off : Z) (key : list Z) : Z :=
  1 + Hll.lz 56 (big_endian (window off key)).

(** Register [i] of the sketch of a collection of keys: the largest rank
    among the keys of bucket [i], and 0 when there is none. *)
Definition sketch (off : Z) (keys : list (list Z)) (i : nat) : Z :=
  foldr Z.max 0 (rank off <$> filter (fun key => bucket off key = i) keys).

(** A key an estimator at offset [off] can take: bytes, at least eight of
    them from the offset on. *)
Definition usable_key (off : Z) (key : list Z) : Prop :=
  off + 8 <= Z.of_nat (length key) /\ Forall is_byte key.

(** The keys handed to an estimator: arrays other than its register buffer
    that hold usable keys. *)
Definition keys_for (s : store) (this : loc) (keys : list loc) : Prop :=
  Forall (fun k => k <> registers (object_of s this)
                   /\ usable_key (offset (object_of s this)) (array_of s k)) keys.

(** The registers [regs] after the sketch of [keys] has been added to them. *)
Definition with_sketch (off : Z) (keys : list (list Z)) (regs : list Z) : list Z :=
  imap (fun i old => Z.max old (sketch off keys i)) regs.

(** Two estimators at offset 4 (objects 1 and 2, buffers 1 and 2) and three
    keys (buffers 3, 4 and 5). *)
Definition key_b : list Z := map (fun i => (7 * Z.of_nat i) mod 256) (seq 1 32).
Definition key_c : list Z := replicate 32 0.

Definition two_estimators : store :=
  exec (do _ <- Hll.constructor 4; do _ <- Hll.constructor 4;
        do _ <- alloc_array sample_key; do _ <- alloc_array key_b;
        alloc_array key_c) empty_store.

(** The values a register takes: 0, or a rank. *)
Definition rank_range (r : Z) : Prop := 0 <= r <= 57.

(** An estimator at offset 0 whose register buffer was replaced by a
    one-byte array (object 1, buffer 2), and the sample key (buffer 3). *)
Definition one_register_store : store :=
  exec (do h <- Hll.constructor 0; do enc <- alloc_array [0];
        Hll.setRegisters h enc ;; alloc_array sample_key) empty_store.

(** ** Counting filters *)

(** The tag selector under which a COUNT filter names the references of the
    events of a kind. *)
Definition selector (kind : Z) : string :=
  if kind =? 3 then "#p" else if kind =? 7 then "#e" else "#E".

(** [{ kinds: [kind], [selector kind]: [v] }]. *)
Definition count_filter (kind : Z) (v : string) : Nip45.Filter :=
  Nip45.mkFilter None None (Some [kind]) None None None None
    {[ selector kind := [v] ]}.

(** The properties a filter holds as fields of the record. *)
Definition named_properties : list string :=
  ["ids"; "authors"; "kinds"; "since"; "until"; "limit"; "search"]%string.

(** [{ ...filter, limit, [k]: v }] for a name [k] that is none of the named
    properties; those are fields of the record, with values of their own
    types, and [None] is returned for them. *)
Definition with_property (filter : Nip45.Filter) (limit : option Z)
    (k : string) (v : list string) : option Nip45.Filter :=
  if decide (k ∈ named_properties) then None
  else Some (Nip45.mkFilter (Nip45.ids filter) (Nip45.authors filter)
               (Nip45.kinds filter) (Nip45.since filter) (Nip45.until filter)
               limit (Nip45.search filter) (<[k := v]> (Nip45.props filter))).

(** ** Small counts *)

(** The result of [Math.log] at [x] lies in the band from [lo] to [hi]. *)
Definition log_band (Math_log : float -> float) (x lo hi : float) : Prop :=
  (lo <=? Math_log x)%float = true /\ (Math_log x <? hi)%float = true.

(** * Properties *)

(** ** The store *)

Lemma array_of_set_array s a v a' :
  array_of (set_array s a v) a' = if decide (a' = a) then v else array_of s a'.
Proof.
  unfold array_of, set_array; simpl.
  destruct (decide (a' = a)) as [->|Hne].
  - by rewrite lookup_total_insert_eq.
  - by rewrite lookup_total_insert_ne.
Qed.

Lemma object_of_set_array s a v o : object_of (set_array s a v) o = object_of s o.
Proof. reflexivity. Qed.

Lemma array_of_set_object s o v a : array_of (set_object s o v) a = array_of s a.
Proof. reflexivity. Qed.

Lemma object_of_set_object s o v o' :
  object_of (set_object s o v) o' = if decide (o' = o) then v else object_of s o'.
Proof.
  unfold object_of, set_object; simpl.
  destruct (decide (o' = o)) as [->|Hne].
  - by rewrite lookup_total_insert_eq.
  - by rewrite lookup_total_insert_ne.
Qed.

(** ** [clz56] *)

Lemma land_pow2 (k x : Z) :
  0 <= k -> Z.land (2 ^ k) x = if Z.testbit x k then 2 ^ k else 0.
Proof.
  intros Hk. apply Z.bits_inj'. intros n Hn.
  rewrite Z.land_spec, Z.pow2_bits_eqb by lia.
  destruct (Z.eqb_spec k n) as [->|Hne].
  - destruct (Z.testbit x n) eqn:E; simpl.
    + rewrite Z.pow2_bits_eqb by lia. symmetry. apply Z.eqb_refl.
    + symmetry. apply Z.bits_0.
  - simpl. destruct (Z.testbit x k).
    + rewrite Z.pow2_bits_eqb by lia. symmetry. by apply Z.eqb_neq.
    + symmetry. apply Z.bits_0.
Qed.

Lemma lz_bounds n x : 0 <= Hll.lz n x <= Z.of_nat n.
Proof. induction n as [|n IH]; simpl; [lia|]. destruct (Z.testbit x _); lia. Qed.

(** The loop, entered with the mask on bit [n - 1] (or with the mask 0 when
    [n = 0]), leaves after at most [n + 1] tests. *)
Lemma clz56_loop_lz n : forall fuel c x,
  (n < fuel)%nat ->
  Hll.clz56_loop fuel c (if n is S k then 2 ^ Z.of_nat k else 0) x
  = Some (c + Hll.lz n x).
Proof.
  induction n as [|n IH]; intros fuel c x Hfuel.
  - destruct fuel as [|fuel]; [lia|]. simpl. f_equal. lia.
  - destruct fuel as [|fuel]; [lia|]. cbn [Hll.clz56_loop Hll.lz].
    rewrite land_pow2 by lia.
    assert (H2 : 2 ^ Z.of_nat n <> 0) by (apply Z.pow_nonzero; lia).
    destruct (Z.testbit x (Z.of_nat n)) eqn:E.
    + destruct (Z.eqb_spec (2 ^ Z.of_nat n) 0); [lia|]. simpl. f_equal. lia.
    + destruct (Z.eqb_spec (2 ^ Z.of_nat n) 0); [lia|]. simpl.
      replace (Z.shiftr (2 ^ Z.of_nat n) 1)
        with (if n is S k then 2 ^ Z.of_nat k else 0).
      * rewrite IH by lia. f_equal. lia.
      * destruct n as [|k]; [reflexivity|].
        rewrite Z.shiftr_div_pow2 by lia.
        replace (Z.of_nat (S k)) with (Z.of_nat k + 1) by lia.
        rewrite Z.pow_add_r by lia. change (2 ^ 1) with 2.
        by rewrite Z.div_mul by lia.
Qed.

(** The loop of [clz56] terminates within the fuel it is given, for every
    argument, and counts the zero bits below bit 56 down to the first one. *)
Lemma clz56_lz x : Hll.clz56 x = Some (Hll.lz 56 x).
Proof.
  unfold Hll.clz56, Hll.clz56_fuel.
  change (Z.shiftl 1 55) with (if 56%nat is S k then 2 ^ Z.of_nat k else 0).
  rewrite clz56_loop_lz by lia. reflexivity.
Qed.

(** Any larger amount of fuel gives the same result. *)
Lemma clz56_fuel_enough fuel x :
  (56 < fuel)%nat -> Hll.clz56_loop fuel 0 (Z.shiftl 1 55) x = Hll.clz56 x.
Proof.
  intros Hfuel. rewrite clz56_lz.
  change (Z.shiftl 1 55) with (if 56%nat is S k then 2 ^ Z.of_nat k else 0).
  by rewrite clz56_loop_lz.
Qed.

(** [lz n x] zero bits, then (if any bit is left) a one. *)
Lemma lz_spec n x :
  (forall i, 0 <= i < Hll.lz n x -> Z.testbit x (Z.of_nat n - 1 - i) = false)
  /\ (Hll.lz n x < Z.of_nat n -> Z.testbit x (Z.of_nat n - 1 - Hll.lz n x) = true).
Proof.
  induction n as [|n [IH1 IH2]]; simpl Hll.lz.
  - split; intros; lia.
  - destruct (Z.testbit x (Z.of_nat n)) eqn:E.
    + split; [intros; lia|]. intros _.
      replace (Z.of_nat (S n) - 1 - 0) with (Z.of_nat n) by lia. done.
    + split.
      * intros i Hi. destruct (Z.eq_dec i 0) as [->|Hne].
        -- replace (Z.of_nat (S n) - 1 - 0) with (Z.of_nat n) by lia. done.
        -- replace (Z.of_nat (S n) - 1 - i) with (Z.of_nat n - 1 - (i - 1)) by lia.
           apply IH1. lia.
      * intros Hlt.
        replace (Z.of_nat (S n) - 1 - (1 + Hll.lz n x))
          with (Z.of_nat n - 1 - Hll.lz n x) by lia.
        apply IH2. lia.
Qed.

(** ** The window read by [add] *)

Lemma byte_high_bits b n : is_byte b -> 8 <= n -> Z.testbit b n = false.
Proof.
  intros [Hb0 Hb1] Hn. destruct (Z.eq_dec b 0) as [->|Hne].
  - apply Z.bits_0.
  - apply Z.bits_above_log2; [lia|].
    assert (Z.log2 b < 8) by (apply Z.log2_lt_pow2; lia). lia.
Qed.

Lemma lor_shiftl_byte acc b :
  is_byte b -> Z.lor (Z.shiftl acc 8) b = acc * 256 + b.
Proof.
  intros Hb. rewrite Z.shiftl_mul_pow2 by lia. change (2 ^ 8) with 256.
  assert (Hland : Z.land (acc * 256) b = 0).
  { apply Z.bits_inj'. intros n Hn. rewrite Z.land_spec, Z.bits_0.
    destruct (Z.lt_ge_cases n 8).
    - change 256 with (2 ^ 8). rewrite Z.mul_pow2_bits_low by lia. reflexivity.
    - rewrite (byte_high_bits b n) by (auto; lia). apply andb_false_r. }
  rewrite <- Z.lxor_lor by exact Hland.
  symmetry. by apply Z.add_nocarry_lxor.
Qed.

Lemma foldl_big_endian bs : forall acc,
  Forall is_byte bs ->
  foldl (fun acc b => Z.lor (Z.shiftl acc 8) b) acc bs
  = acc * 256 ^ Z.of_nat (length bs) + big_endian bs.
Proof.
  induction bs as [|b bs IH]; intros acc Hbs.
  - simpl. lia.
  - inversion Hbs as [|? ? Hb Hbs']; subst.
    cbn [foldl big_endian length].
    rewrite IH by assumption. rewrite lor_shiftl_byte by assumption.
    rewrite Nat2Z.inj_succ, Z.pow_succ_r by lia. lia.
Qed.

Lemma big_endian_bounds bs :
  Forall is_byte bs -> 0 <= big_endian bs < 256 ^ Z.of_nat (length bs).
Proof.
  induction 1 as [|b bs Hb Hbs IH]; [simpl; lia|].
  cbn [big_endian length].
  rewrite Nat2Z.inj_succ, Z.pow_succ_r by lia. unfold is_byte in Hb.
  assert (0 < 256 ^ Z.of_nat (length bs)) by (apply Z.pow_pos_nonneg; lia).
  nia.
Qed.

Lemma getBigUint64_big_endian x :
  (8 <= length x)%nat -> Forall is_byte x ->
  getBigUint64 x = Some (big_endian (take 8 x)).
Proof.
  intros Hlen Hx. unfold getBigUint64.
  destruct (Z.leb_spec 8 (Z.of_nat (length x))); [|lia].
  rewrite foldl_big_endian by (by apply Forall_take). f_equal; lia.
Qed.

Lemma getBigUint64_short x : (length x < 8)%nat -> getBigUint64 x = None.
Proof.
  intros Hlen. unfold getBigUint64.
  destruct (Z.leb_spec 8 (Z.of_nat (length x))); [lia|reflexivity].
Qed.

Lemma subarray_length key b :
  0 <= b ->
  length (subarray key b (b + 8))
  = Z.to_nat (Z.max (Z.min (b + 8) (Z.of_nat (length key)) - Z.min b (Z.of_nat (length key))) 0).
Proof.
  intros Hb. unfold subarray.
  destruct (Z.ltb_spec b 0); [lia|]. destruct (Z.ltb_spec (b + 8) 0); [lia|].
  rewrite length_take, length_drop. lia.
Qed.

Lemma subarray_window key b :
  0 <= b -> b + 8 <= Z.of_nat (length key) ->
  subarray key b (b + 8) = take 8 (drop (Z.to_nat b) key).
Proof.
  intros Hb Hlen. unfold subarray.
  destruct (Z.ltb_spec b 0); [lia|]. destruct (Z.ltb_spec (b + 8) 0); [lia|].
  rewrite !Z.min_l by lia.
  replace (Z.to_nat (Z.max (b + 8 - b) 0)) with 8%nat by lia. reflexivity.
Qed.

(** The first byte of the window is the most significant byte of the word. *)
Lemma big_endian_first_byte b bs :
  is_byte b -> Forall is_byte bs -> length bs = 7%nat ->
  Z.shiftr (big_endian (b :: bs)) 56 = b.
Proof.
  intros Hb Hbs Hlen. simpl. rewrite Hlen.
  pose proof (big_endian_bounds bs Hbs) as Hr. rewrite Hlen in Hr.
  rewrite Z.shiftr_div_pow2 by lia.
  change (256 ^ Z.of_nat 7) with (2 ^ 56) in *.
  symmetry. apply (Z.div_unique_pos _ _ _ (big_endian bs)); lia.
Qed.

(** ** [add] *)

Lemma elem_set_max (regs : list Z) (j old rank : Z) :
  0 <= j -> regs !! Z.to_nat j = Some old -> 0 <= rank < 256 ->
  (if js_gt (Some rank) (elem regs (Some j))
   then elem_set regs (Some j) rank else regs)
  = <[Z.to_nat j := Z.max old rank]> regs.
Proof.
  intros Hj Hold Hrank. unfold elem, elem_set, js_gt.
  destruct (Z.ltb_spec j 0); [lia|]. rewrite Hold.
  destruct (Z.ltb_spec old rank).
  - unfold ToUint8. rewrite Z.mod_small by lia. by rewrite Z.max_r by lia.
  - rewrite Z.max_l by lia. symmetry. by apply list_insert_id.
Qed.

(** What [add] does when the window lies inside the key. *)
Lemma add_in_range s this pubkey :
  let hll := object_of s this in
  let key := array_of s pubkey in
  let regs := array_of s (registers hll) in
  let window := take 8 (drop (Z.to_nat (offset hll)) key) in
  let j := window !! 0%nat in
  let rank := Hll.lz 56 (big_endian window) + 1 in
  0 <= offset hll -> offset hll + 8 <= Z.of_nat (length key) ->
  Forall is_byte key ->
  Hll.add this pubkey s
  = if js_gt (Some rank) (elem regs j)
    then Normal tt (set_array s (registers hll) (elem_set regs j rank))
    else Normal tt s.
Proof.
  intros hll key regs window j rank Hoff Hlen Hkey. unfold Hll.add.
  fold hll key. rewrite subarray_window by assumption. fold window.
  assert (Hw : length window = 8%nat).
  { unfold window. rewrite length_take, length_drop. lia. }
  rewrite getBigUint64_big_endian;
    [|lia|by apply Forall_take, Forall_drop].
  rewrite take_ge by lia. rewrite clz56_lz. reflexivity.
Qed.

(** [add] raises exactly when fewer than eight bytes are left at the offset. *)
Lemma add_short s this pubkey :
  let hll := object_of s this in
  let key := array_of s pubkey in
  0 <= offset hll -> Z.of_nat (length key) < offset hll + 8 ->
  Hll.add this pubkey s = Throw RangeError s.
Proof.
  intros hll key Hoff Hlen. unfold Hll.add. fold hll key.
  rewrite getBigUint64_short; [reflexivity|].
  rewrite subarray_length by assumption. lia.
Qed.

(** ** [merge] and [mergeRegisters] *)

Lemma merge_arrays_lookup r : forall o i,
  merge_arrays r o !! i
  = match r !! i, o !! i with
    | Some x, Some y => Some (if x <? y then ToUint8 y else x)
    | rx, _ => rx
    end.
Proof.
  induction r as [|x r IH]; intros o i; [by destruct i|].
  destruct o as [|y o]; simpl.
  - by destruct (_ !! i).
  - destruct i as [|i]; simpl; [reflexivity|]. apply IH.
Qed.

Lemma merge_arrays_length r : forall o, length (merge_arrays r o) = length r.
Proof.
  induction r as [|x r IH]; intros [|y o]; simpl; try reflexivity.
  by rewrite IH.
Qed.

Lemma foldl_ext_inv {A B} (P : A -> Prop) (f g : A -> B -> A) (l : list B) :
  (forall a b, P a -> f a b = g a b) ->
  (forall a b, P a -> P (g a b)) ->
  forall a, P a -> foldl f a l = foldl g a l.
Proof.
  intros Hfg Hg. induction l as [|b l IH]; intros a Ha; simpl; [reflexivity|].
  rewrite Hfg by assumption. apply IH. by apply Hg.
Qed.

Lemma mergeRegisters_step_objects this other s i :
  objects (Hll.mergeRegisters_step this other s i) = objects s.
Proof.
  unfold Hll.mergeRegisters_step.
  destruct (array_of s other !! i); [|reflexivity].
  by destruct (js_gt _ _).
Qed.

(** The loop of [mergeRegisters], after the indices below [n]. *)
Lemma mergeRegisters_loop this other s n :
  let R := registers (object_of s this) in
  let r := array_of s R in
  let o := array_of s other in
  let s' := foldl (Hll.mergeRegisters_step this other) s (seq 0 n) in
  objects s' = objects s
  /\ (forall a, a <> R -> array_of s' a = array_of s a)
  /\ (forall i, array_of s' R !! i
                = if (i <? n)%nat then merge_arrays r o !! i else r !! i).
Proof.
  intros R r o. cbv zeta. induction n as [|n IH].
  - simpl. split; [reflexivity|]. split; [reflexivity|]. intros i. reflexivity.
  - rewrite seq_S, foldl_app. simpl.
    set (sn := foldl (Hll.mergeRegisters_step this other) s (seq 0 n)) in *.
    destruct IH as (Hobj & Hother & HR).
    assert (HRn : registers (object_of sn this) = R).
    { unfold object_of. by rewrite Hobj. }
    assert (Hon : array_of sn other !! n = o !! n).
    { destruct (decide (other = R)) as [->|Hne].
      - rewrite HR. by rewrite Nat.ltb_irrefl.
      - by rewrite Hother. }
    assert (Hrn : array_of sn R !! n = r !! n).
    { rewrite HR. by rewrite Nat.ltb_irrefl. }
    pose proof (merge_arrays_lookup r o n) as Hm.
    unfold Hll.mergeRegisters_step. rewrite HRn, Hon, Hrn.
    destruct (o !! n) as [v|] eqn:Hv.
    + destruct (r !! n) as [x|] eqn:Hx; simpl.
      * destruct (Z.ltb_spec x v) as [Hlt|Hge].
        -- split; [exact Hobj|]. split.
           ++ intros a Ha. rewrite array_of_set_array.
              destruct (decide (a = R)); [done|]. by apply Hother.
           ++ intros i. rewrite array_of_set_array.
              destruct (decide (R = R)); [|done].
              unfold elem_set. destruct (Z.ltb_spec (Z.of_nat n) 0); [lia|].
              rewrite Nat2Z.id.
              destruct (decide (i = n)) as [->|Hne].
              ** rewrite list_lookup_insert_eq
                   by (apply lookup_lt_is_Some; rewrite Hrn; eauto).
                 destruct (Nat.ltb_spec n (S n)); [|lia]. by rewrite Hm.
              ** rewrite list_lookup_insert_ne by done. rewrite HR.
                 destruct (Nat.ltb_spec i n), (Nat.ltb_spec i (S n));
                   try reflexivity; lia.
        -- split; [exact Hobj|]. split; [exact Hother|].
           intros i. rewrite HR.
           destruct (Nat.ltb_spec i n), (Nat.ltb_spec i (S n));
             try reflexivity; try lia.
           assert (i = n) as -> by lia. by rewrite Hm, Hx.
      * split; [exact Hobj|]. split; [exact Hother|].
        intros i. rewrite HR.
        destruct (Nat.ltb_spec i n), (Nat.ltb_spec i (S n));
          try reflexivity; try lia.
        assert (i = n) as -> by lia. by rewrite Hm, Hx.
    + split; [exact Hobj|]. split; [exact Hother|].
      intros i. rewrite HR.
      destruct (Nat.ltb_spec i n), (Nat.ltb_spec i (S n));
        try reflexivity; try lia.
      assert (i = n) as -> by lia. rewrite Hm. by destruct (r !! n).
Qed.

Lemma mergeRegisters_spec this other s :
  exists s', Hll.mergeRegisters this other s = Normal tt s'
    /\ writes_only (registers (object_of s this))
         (merge_arrays (registers_of s this) (array_of s other)) s s'.
Proof.
  eexists. split; [reflexivity|].
  destruct (mergeRegisters_loop this other s (length (array_of s other)))
    as (Hobj & Hother & HR).
  split; [exact Hobj|]. split; [|exact Hother].
  apply list_eq. intros i. rewrite HR.
  destruct (Nat.ltb_spec i (length (array_of s other))) as [Hlt|Hge];
    [reflexivity|].
  rewrite merge_arrays_lookup.
  rewrite (lookup_ge_None_2 (array_of s other)) by lia.
  unfold registers_of. by destruct (_ !! i).
Qed.

Lemma merge_spec this other s :
  exists s', Hll.merge this other s = Normal tt s'
    /\ writes_only (registers (object_of s this))
         (merge_arrays (registers_of s this) (registers_of s other)) s s'.
Proof.
  destruct (mergeRegisters_spec this (registers (object_of s other)) s)
    as (s' & Hrun & Hw).
  exists s'. split; [|exact Hw].
  rewrite <- Hrun. unfold Hll.merge, Hll.mergeRegisters, modify. f_equal.
  apply (foldl_ext_inv (fun sk => objects sk = objects s)).
  - intros sk i Hsk. unfold Hll.merge_step, Hll.mergeRegisters_step.
    unfold registers_of, object_of. by rewrite Hsk.
  - intros sk i Hsk. by rewrite mergeRegisters_step_objects.
  - reflexivity.
Qed.

Lemma writes_only_registers_of a v s s' this :
  writes_only a v s s' ->
  registers_of s' this
  = if decide (registers (object_of s this) = a) then v else registers_of s this.
Proof.
  intros (Hobj & Ha & Hother). unfold registers_of, object_of. rewrite Hobj.
  destruct (decide _) as [->|Hne]; [exact Ha|]. by apply Hother.
Qed.

Lemma writes_only_object_of a v s s' o :
  writes_only a v s s' -> object_of s' o = object_of s o.
Proof. intros (Hobj & _). unfold object_of. by rewrite Hobj. Qed.

(** On byte arrays, the merged array holds the larger value at every index
    the two arrays share, and the old value elsewhere. *)
Lemma merge_arrays_max r o i x y :
  Forall is_byte o -> r !! i = Some x -> o !! i = Some y ->
  merge_arrays r o !! i = Some (Z.max x y).
Proof.
  intros Ho Hx Hy. rewrite merge_arrays_lookup, Hx, Hy. f_equal.
  assert (Hb : is_byte y) by (eapply Forall_lookup_1; eauto).
  unfold is_byte in Hb. unfold ToUint8.
  destruct (Z.ltb_spec x y).
  - rewrite Z.mod_small by lia. lia.
  - lia.
Qed.

Lemma merge_arrays_beyond r o i :
  (length o <= i)%nat -> merge_arrays r o !! i = r !! i.
Proof.
  intros Hi. rewrite merge_arrays_lookup.
  rewrite (lookup_ge_None_2 o) by lia. by destruct (r !! i).
Qed.

Lemma merge_arrays_zip r o :
  Forall is_byte o -> length r = length o ->
  merge_arrays r o = zip_with Z.max r o.
Proof.
  intros Ho Hlen. apply list_eq. intros i.
  rewrite lookup_zip_with.
  destruct (r !! i) as [x|] eqn:Hx; simpl.
  - destruct (o !! i) as [y|] eqn:Hy; simpl.
    + by apply merge_arrays_max.
    + apply lookup_ge_None in Hy. apply lookup_lt_Some in Hx. lia.
  - by rewrite merge_arrays_lookup, Hx.
Qed.

Lemma all_bytes_Forall l : all_bytes l = true -> Forall is_byte l.
Proof.
  unfold all_bytes. rewrite forallb_forall. intros H.
  apply List.Forall_forall. intros v Hv. specialize (H v Hv).
  unfold is_byteb in H. unfold is_byte. lia.
Qed.

Ltac solve_bytes := apply all_bytes_Forall; vm_compute; reflexivity.

(** C1.  For an estimator whose offset lies in [0, 24] and a 32-byte key,
    [add] reads the eight bytes at the offset as the big-endian word [w];
    the register index [j] is the first of these bytes, which is the most
    significant byte of [w]; the rank is one more than the number of zero
    bits met from bit 55 of [w] downward before the first one bit, hence at
    most 57; the call returns normally, register [j] becomes the larger of its
    old value and the rank, and nothing else changes. *)
Theorem add_updates_register (s : store) (this pubkey : loc) :
  let hll := object_of s this in
  let key := array_of s pubkey in
  let regs := registers_of s this in
  let window := take 8 (drop (Z.to_nat (offset hll)) key) in
  let w := big_endian window in
  let zeros := Hll.lz 56 w in
  let rank := 1 + zeros in
  0 <= offset hll <= 24 ->
  length key = 32%nat -> Forall is_byte key ->
  length regs = 256%nat ->
  exists j old s',
    Hll.add this pubkey s = Normal tt s'
    /\ length window = 8%nat
    /\ 0 <= w < 2 ^ 64
    /\ window !! 0%nat = Some j /\ is_byte j /\ j = Z.shiftr w 56
    /\ 0 <= zeros <= 56
    /\ (forall i, 0 <= i < zeros -> Z.testbit w (55 - i) = false)
    /\ (zeros < 56 -> Z.testbit w (55 - zeros) = true)
    /\ rank <= 57
    /\ regs !! Z.to_nat j = Some old
    /\ registers_of s' this = <[Z.to_nat j := Z.max old rank]> regs
    /\ (forall i, i <> Z.to_nat j -> registers_of s' this !! i = regs !! i)
    /\ objects s' = objects s
    /\ (forall a, a <> registers hll -> array_of s' a = array_of s a).
Proof.
  intros hll key regs window w zeros rank Hoff Hlen Hkey Hregs.
  assert (Hwin : length window = 8%nat).
  { unfold window. rewrite length_take, length_drop. lia. }
  assert (Hwb : Forall is_byte window) by (by apply Forall_take, Forall_drop).
  pose proof (add_in_range s this pubkey ltac:(fold hll; lia)
                ltac:(fold hll key; lia) Hkey) as Hadd.
  change (Hll.add this pubkey s
          = if js_gt (Some (zeros + 1)) (elem regs (window !! 0%nat))
            then Normal tt (set_array s (registers hll)
                              (elem_set regs (window !! 0%nat) (zeros + 1)))
            else Normal tt s) in Hadd.
  pose proof (lz_bounds 56 w) as Hz. fold zeros in Hz.
  destruct (lz_spec 56 w) as [Hz0 Hz1]. fold zeros in Hz0, Hz1.
  pose proof (big_endian_bounds window Hwb) as Hb. fold w in Hb.
  rewrite Hwin in Hb.
  assert (Hfirst : forall j rest, window = j :: rest ->
            is_byte j /\ Z.shiftr w 56 = j).
  { intros j rest E. unfold w. rewrite E in Hwb, Hwin |- *.
    inversion Hwb as [|? ? Hj Hrest]; subst. split; [exact Hj|].
    apply big_endian_first_byte; try assumption. simpl in Hwin. lia. }
  clearbody zeros w. clearbody window.
  destruct window as [|j rest]; [discriminate|].
  destruct (Hfirst j rest eq_refl) as [Hj Hjw].
  change ((j :: rest) !! 0%nat) with (Some j) in *.
  destruct (lookup_lt_is_Some_2 regs (Z.to_nat j)) as [old Hold].
  { unfold is_byte in Hj. lia. }
  pose proof (elem_set_max regs j old (zeros + 1)
                ltac:(unfold is_byte in Hj; lia) Hold ltac:(lia)) as Hmax.
  replace (zeros + 1) with rank in * by (unfold rank; lia).
  assert (Hpost : exists s', Hll.add this pubkey s = Normal tt s'
            /\ writes_only (registers hll) (<[Z.to_nat j := Z.max old rank]> regs) s s').
  { rewrite Hadd.
    destruct (js_gt (Some rank) (elem regs (Some j))).
    - eexists. split; [reflexivity|]. split; [reflexivity|]. split.
      + rewrite array_of_set_array. destruct (decide _); [|done]. exact Hmax.
      + intros a Ha. rewrite array_of_set_array. by destruct (decide _).
    - eexists. split; [reflexivity|]. split; [reflexivity|]. split.
      + rewrite <- Hmax. reflexivity.
      + reflexivity. }
  destruct Hpost as (s' & Hrun & Hw).
  assert (Hregs' : registers_of s' this = <[Z.to_nat j := Z.max old rank]> regs).
  { rewrite (writes_only_registers_of _ _ _ _ _ Hw). fold hll.
    by destruct (decide _). }
  exists j, old, s'.
  split; [exact Hrun|]. split; [exact Hwin|]. split; [exact Hb|].
  split; [reflexivity|]. split; [exact Hj|]. split; [by symmetry|].
  split; [exact Hz|]. split; [exact Hz0|]. split; [exact Hz1|].
  split; [unfold rank; lia|]. split; [exact Hold|]. split; [exact Hregs'|].
  split.
  { intros i Hi. rewrite Hregs'. by rewrite list_lookup_insert_ne. }
  destruct Hw as (Hobj & _ & Hother). split; [exact Hobj|exact Hother].
Qed.

(** The sample key at offset 4: the window starts with the bytes 5 and 6, so
    register 5 receives rank 6. *)
Lemma add_updates_register_witness :
  exists s', Hll.add 1%positive 2%positive sample_store = Normal tt s'
    /\ registers_of s' 1%positive = <[5%nat := 6]> (replicate 256 0).
Proof.
  destruct (add_updates_register sample_store 1%positive 2%positive)
    as (j & old & s' & Hrun & _ & _ & Hj & _ & _ & _ & _ & _ & _ & Hold & Hregs & _).
  - vm_compute. split; discriminate.
  - vm_compute. reflexivity.
  - solve_bytes.
  - vm_compute. reflexivity.
  - exists s'. split; [exact Hrun|].
    vm_compute in Hj. injection Hj as <-.
    vm_compute in Hold. injection Hold as <-.
    rewrite Hregs. vm_compute. reflexivity.
Defined.

(** C10.  [mergeRegisters] checks no length: for a raw buffer of any length
    [n] it returns normally; the registers below [min n 256] become the larger
    of the old register and the buffer byte, and the registers from [n] on are
    unchanged, so that a short buffer is merged into a prefix only. *)
Theorem mergeRegisters_prefix (s : store) (this other : loc) :
  let regs := registers_of s this in
  let buf := array_of s other in
  length regs = 256%nat -> Forall is_byte buf ->
  exists s',
    Hll.mergeRegisters this other s = Normal tt s'
    /\ length (registers_of s' this) = 256%nat
    /\ (forall i, (i < Nat.min (length buf) 256)%nat ->
          exists x y, regs !! i = Some x /\ buf !! i = Some y
            /\ registers_of s' this !! i = Some (Z.max x y))
    /\ (forall i, (length buf <= i)%nat -> registers_of s' this !! i = regs !! i).
Proof.
  intros regs buf Hlen Hbuf.
  destruct (mergeRegisters_spec this other s) as (s' & Hrun & Hw).
  fold regs buf in Hw.
  assert (Hregs' : registers_of s' this = merge_arrays regs buf).
  { rewrite (writes_only_registers_of _ _ _ _ _ Hw). by destruct (decide _). }
  exists s'. split; [exact Hrun|]. rewrite Hregs'.
  split; [by rewrite merge_arrays_length|]. split.
  - intros i Hi.
    destruct (lookup_lt_is_Some_2 regs i) as [x Hx]; [lia|].
    destruct (lookup_lt_is_Some_2 buf i) as [y Hy]; [lia|].
    exists x, y. split; [exact Hx|]. split; [exact Hy|].
    by apply merge_arrays_max.
  - intros i Hi. by apply merge_arrays_beyond.
Qed.

(** A three-byte buffer merged into the first of the three estimators. *)
Lemma mergeRegisters_prefix_witness :
  exists s',
    Hll.mergeRegisters 1%positive 7%positive three_estimators = Normal tt s'
    /\ take 4 (registers_of s' 1%positive) = [9; 1; 9; 3].
Proof.
  destruct (mergeRegisters_prefix three_estimators 1%positive 7%positive)
    as (s' & Hrun & Hlen & Hlow & Hhigh).
  - vm_compute. reflexivity.
  - solve_bytes.
  - exists s'. split; [exact Hrun|].
    vm_compute in Hrun. injection Hrun as <-. vm_compute. reflexivity.
Defined.

(** ** The algebra of [merge] *)

Lemma zip_max_lookup (r o : list Z) i :
  zip_with Z.max r o !! i
  = match r !! i, o !! i with Some x, Some y => Some (Z.max x y) | _, _ => None end.
Proof.
  rewrite lookup_zip_with. destruct (r !! i); [|reflexivity]. simpl.
  by destruct (o !! i).
Qed.

Lemma zip_max_bytes (r o : list Z) :
  Forall is_byte r -> Forall is_byte o -> Forall is_byte (zip_with Z.max r o).
Proof.
  intros Hr. revert o. induction Hr as [|x r Hx Hr IH]; intros o Ho; [constructor|].
  destruct Ho as [|y o Hy Ho]; simpl; constructor.
  - unfold is_byte in *. lia.
  - by apply IH.
Qed.

Lemma zip_max_length (r o : list Z) :
  length r = length o -> length (zip_with Z.max r o) = length r.
Proof. intros H. rewrite length_zip_with. lia. Qed.

Ltac zip_max :=
  apply list_eq; intros ?i; rewrite ?zip_max_lookup;
  repeat match goal with
         | |- context [?l !! ?i] => destruct (l !! i) eqn:?; simpl
         end;
  try congruence; try (f_equal; lia).


(** [merge] on register states of equal length holding bytes. *)
Lemma merge_zip this other s :
  length (registers_of s this) = length (registers_of s other) ->
  Forall is_byte (registers_of s other) ->
  exists s', Hll.merge this other s = Normal tt s'
    /\ exec (Hll.merge this other) s = s'
    /\ writes_only (registers (object_of s this))
         (zip_with Z.max (registers_of s this) (registers_of s other)) s s'.
Proof.
  intros Hlen Hbytes. destruct (merge_spec this other s) as (s' & Hrun & Hw).
  exists s'. split; [exact Hrun|]. split.
  - unfold exec. by rewrite Hrun.
  - by rewrite <- merge_arrays_zip.
Qed.

(** C4.  On register states of length 256, [merge] leaves in the receiver the
    elementwise maximum of the two states (and keeps its offset).  Read as an
    operation on register states it is commutative, associative and
    idempotent; the estimators may share buffers or be the same object. *)
Theorem merge_max_semilattice (s : store) (a b c : loc) :
  let A := registers_of s a in
  let B := registers_of s b in
  let C := registers_of s c in
  length A = 256%nat -> length B = 256%nat -> length C = 256%nat ->
  Forall is_byte A -> Forall is_byte B -> Forall is_byte C ->
  (exists s', Hll.merge a b s = Normal tt s'
     /\ registers_of s' a = zip_with Z.max A B
     /\ (forall i, (i < 256)%nat ->
           exists x y, A !! i = Some x /\ B !! i = Some y
             /\ registers_of s' a !! i = Some (Z.max x y))
     /\ length (registers_of s' a) = 256%nat
     /\ offset (object_of s' a) = offset (object_of s a))
  /\ registers_of (exec (Hll.merge a b) s) a
     = registers_of (exec (Hll.merge b a) s) b
  /\ registers_of (exec (Hll.merge a c) (exec (Hll.merge a b) s)) a
     = registers_of (exec (Hll.merge a b) (exec (Hll.merge b c) s)) a
  /\ registers_of (exec (Hll.merge a a) s) a = A.
Proof.
  intros A B C HA HB HC HbA HbB HbC.
  assert (EA : registers_of s a = A) by reflexivity.
  assert (EB : registers_of s b = B) by reflexivity.
  assert (EC : registers_of s c = C) by reflexivity.
  assert (HAC : registers (object_of s c) = registers (object_of s a) -> C = A).
  { intros E. unfold C, A, registers_of. by rewrite E. }
  assert (HAB : registers (object_of s a) = registers (object_of s b) -> A = B).
  { intros E. unfold A, B, registers_of. by rewrite E. }
  clearbody A B C.
  (* a := max(a, b) *)
  destruct (merge_zip a b s) as (s1 & Hrun1 & Hexec1 & Hw1);
    [rewrite EA, EB; lia|by rewrite EB|]. rewrite EA, EB in Hw1.
  pose proof (writes_only_registers_of _ _ _ _ a Hw1) as H1a.
  pose proof (writes_only_registers_of _ _ _ _ c Hw1) as H1c.
  rewrite decide_True in H1a by reflexivity. rewrite EC in H1c.
  (* b := max(b, a) *)
  destruct (merge_zip b a s) as (s2 & _ & Hexec2 & Hw2);
    [rewrite EA, EB; lia|by rewrite EA|]. rewrite EA, EB in Hw2.
  pose proof (writes_only_registers_of _ _ _ _ b Hw2) as H2b.
  rewrite decide_True in H2b by reflexivity.
  (* b := max(b, c) *)
  destruct (merge_zip b c s) as (s3 & _ & Hexec3 & Hw3);
    [rewrite EB, EC; lia|by rewrite EC|]. rewrite EB, EC in Hw3.
  pose proof (writes_only_registers_of _ _ _ _ a Hw3) as H3a.
  pose proof (writes_only_registers_of _ _ _ _ b Hw3) as H3b.
  rewrite decide_True in H3b by reflexivity. rewrite EA in H3a.
  (* a := max(a, a) *)
  destruct (merge_zip a a s) as (s4 & _ & Hexec4 & Hw4);
    [reflexivity|by rewrite EA|]. rewrite EA in Hw4.
  pose proof (writes_only_registers_of _ _ _ _ a Hw4) as H4a.
  rewrite decide_True in H4a by reflexivity.
  assert (HlAB : length (zip_with Z.max A B) = 256%nat)
    by (rewrite zip_max_length; lia).
  assert (HlBC : length (zip_with Z.max B C) = 256%nat)
    by (rewrite zip_max_length; lia).
  split; [|split; [|split]].
  - exists s1. split; [exact Hrun1|]. split; [exact H1a|]. split; [|split].
    + intros i Hi.
      destruct (lookup_lt_is_Some_2 A i) as [x Hx]; [lia|].
      destruct (lookup_lt_is_Some_2 B i) as [y Hy]; [lia|].
      exists x, y. split; [exact Hx|]. split; [exact Hy|].
      by rewrite H1a, zip_max_lookup, Hx, Hy.
    + by rewrite H1a.
    + by rewrite (writes_only_object_of _ _ _ _ a Hw1).
  - rewrite Hexec1, Hexec2, H1a, H2b. zip_max.
  - rewrite Hexec1, Hexec3.
    (* a := max(a, c) after a := max(a, b) *)
    destruct (merge_zip a c s1) as (s5 & _ & Hexec5 & Hw5).
    { rewrite H1a, H1c.
      destruct (decide (registers (object_of s c) = registers (object_of s a)));
        lia. }
    { rewrite H1c.
      destruct (decide (registers (object_of s c) = registers (object_of s a)));
        [by apply zip_max_bytes|exact HbC]. }
    pose proof (writes_only_registers_of _ _ _ _ a Hw5) as H5a.
    rewrite decide_True in H5a by reflexivity.
    (* a := max(a, b) after b := max(b, c) *)
    destruct (merge_zip a b s3) as (s6 & _ & Hexec6 & Hw6).
    { rewrite H3a, H3b.
      destruct (decide (registers (object_of s a) = registers (object_of s b)));
        lia. }
    { rewrite H3b. by apply zip_max_bytes. }
    pose proof (writes_only_registers_of _ _ _ _ a Hw6) as H6a.
    rewrite decide_True in H6a by reflexivity.
    rewrite Hexec5, Hexec6, H5a, H6a, H1a, H1c, H3a, H3b.
    destruct (decide (registers (object_of s c) = registers (object_of s a)))
      as [Eca|_];
    destruct (decide (registers (object_of s a) = registers (object_of s b)))
      as [Eab|_];
    try (rewrite (HAC Eca)); try (rewrite (HAB Eab)); zip_max.
  - rewrite Hexec4, H4a. zip_max.
Qed.

(** The three sample register states. *)
Lemma merge_max_semilattice_witness :
  registers_of (exec (Hll.merge 1%positive 2%positive) three_estimators) 1%positive
  = registers_of (exec (Hll.merge 2%positive 1%positive) three_estimators) 2%positive.
Proof.
  destruct (merge_max_semilattice three_estimators 1%positive 2%positive 3%positive)
    as (_ & Hcomm & _).
  - vm_compute. reflexivity.
  - vm_compute. reflexivity.
  - vm_compute. reflexivity.
  - solve_bytes.
  - solve_bytes.
  - solve_bytes.
  - exact Hcomm.
Defined.

(** ** Construction *)

Lemma fresh_array_not_allocated s a :
  allocated_array s a -> a <> fresh (dom (arrays s)).
Proof.
  intros Ha ->. apply (is_fresh (dom (arrays s))). by apply elem_of_dom.
Qed.

Lemma fresh_object_not_allocated s o :
  allocated_object s o -> o <> fresh (dom (objects s)).
Proof.
  intros Ho ->. apply (is_fresh (dom (objects s))). by apply elem_of_dom.
Qed.

Lemma constructor_ok off s :
  0 <= off <= 24 ->
  Hll.constructor off s
  = Normal (fresh (dom (objects s)))
      (set_object (set_array s (fresh (dom (arrays s))) (replicate 256 0))
         (fresh (dom (objects s)))
         (mkHyperLogLog off (fresh (dom (arrays s))))).
Proof.
  intros Hoff. unfold Hll.constructor.
  destruct (Z.ltb_spec off 0); [lia|]. destruct (Z.ltb_spec (32 - 8) off); [lia|].
  reflexivity.
Qed.

Lemma constructor_fail off s :
  ~ (0 <= off <= 24) -> Hll.constructor off s = Throw InvalidOffset s.
Proof.
  intros Hoff. unfold Hll.constructor.
  destruct (Z.ltb_spec off 0); [reflexivity|].
  destruct (Z.ltb_spec (32 - 8) off); [reflexivity|lia].
Qed.

(** [newWithRegisters], on an existing buffer of any length, with a valid
    offset. *)
Lemma newWithRegisters_valid_offset buf off s :
  0 <= off <= 24 -> allocated_array s buf ->
  let a := fresh (dom (arrays s)) in
  let o := fresh (dom (objects s)) in
  let s1 := set_object (set_array s a (replicate 256 0)) o (mkHyperLogLog off a) in
  Hll.newWithRegisters buf off s
  = if decide (length (array_of s buf) = 256%nat)
    then Normal o (set_array s1 a (array_of s buf))
    else Throw InvalidRegisterCount s1.
Proof.
  intros Hoff Hbuf a o s1. unfold Hll.newWithRegisters, bind.
  rewrite constructor_ok by assumption. fold a o s1.
  assert (Hne : buf <> a) by (by apply fresh_array_not_allocated).
  assert (Hsrc : array_of s1 buf = array_of s buf).
  { unfold s1. rewrite array_of_set_object, array_of_set_array.
    by destruct (decide (buf = a)). }
  assert (Htgt : registers (object_of s1 o) = a).
  { unfold s1. rewrite object_of_set_object. by destruct (decide (o = o)). }
  assert (Hzero : array_of s1 a = replicate 256 0).
  { unfold s1. rewrite array_of_set_object, array_of_set_array.
    by destruct (decide (a = a)). }
  unfold gets. rewrite Hsrc.
  destruct (decide (length (array_of s buf) = 256%nat)) as [Hlen|Hlen].
  - rewrite Hlen. simpl. unfold typed_array_set, ret.
    rewrite Htgt, Hsrc, Hzero, Hlen. simpl. do 2 f_equal.
    apply app_nil_r.
  - destruct (Nat.eqb_spec (length (array_of s buf)) 256); [done|].
    reflexivity.
Qed.

(** ** Outcomes of the methods *)

Lemma elem_set_length a i v : length (elem_set a i v) = length a.
Proof.
  unfold elem_set. destruct i as [i|]; [|reflexivity].
  destruct (i <? 0); [reflexivity|]. apply length_insert.
Qed.

(** [add] either raises [RangeError], leaving the store as it is, or
    returns after at most one write into the register buffer. *)
Lemma add_outcome this pubkey s :
  let hll := object_of s this in
  let x := subarray (array_of s pubkey) (offset hll) (offset hll + 8) in
  if (length x <? 8)%nat
  then Hll.add this pubkey s = Throw RangeError s
  else exists s' v,
         Hll.add this pubkey s = Normal tt s'
         /\ objects s' = objects s
         /\ array_of s' (registers hll) = v
         /\ length v = length (array_of s (registers hll))
         /\ (forall a, a <> registers hll -> array_of s' a = array_of s a).
Proof.
  intros hll x. unfold Hll.add. fold hll x.
  destruct (Nat.ltb_spec (length x) 8) as [Hlt|Hge].
  - by rewrite getBigUint64_short.
  - unfold getBigUint64. destruct (Z.leb_spec 8 (Z.of_nat (length x))); [|lia].
    rewrite clz56_lz.
    destruct (js_gt _ _).
    + eexists _, _. split; [reflexivity|]. split; [reflexivity|].
      split; [|split].
      * rewrite array_of_set_array. destruct (decide _); [reflexivity|done].
      * apply elem_set_length.
      * intros a Ha. rewrite array_of_set_array. by destruct (decide _).
    + eexists _, _. repeat split; reflexivity.
Qed.

Lemma clear_spec this s :
  exists s', Hll.clear this s = Normal tt s'
    /\ writes_only (registers (object_of s this))
         (replicate (length (registers_of s this)) 0) s s'.
Proof.
  eexists. split; [reflexivity|]. split; [reflexivity|]. split.
  - rewrite array_of_set_array. by destruct (decide _).
  - intros a Ha. rewrite array_of_set_array. by destruct (decide _).
Qed.

Lemma writes_only_frames this v s s' :
  writes_only (registers (object_of s this)) v s s' ->
  length v = length (registers_of s this) -> frames this s s'.
Proof.
  intros Hw Hlen. pose proof (writes_only_registers_of _ _ _ _ this Hw) as Hr.
  rewrite decide_True in Hr by reflexivity.
  destruct Hw as (Hobj & _ & Hother).
  split; [exact Hobj|]. split; [by rewrite Hr|exact Hother].
Qed.

Lemma frames_refl this s : frames this s s.
Proof. by repeat split. Qed.

Lemma add_frames this pubkey s : frames this s (exec (Hll.add this pubkey) s).
Proof.
  pose proof (add_outcome this pubkey s) as H. cbv zeta in H. unfold exec.
  destruct (_ <? _)%nat.
  - rewrite H. apply frames_refl.
  - destruct H as (s' & v & -> & Hobj & Hv & Hlen & Hother). simpl.
    apply (writes_only_frames this v); [by repeat split|exact Hlen].
Qed.

Lemma merge_frames this other s : frames this s (exec (Hll.merge this other) s).
Proof.
  destruct (merge_spec this other s) as (s' & Hrun & Hw).
  unfold exec. rewrite Hrun. simpl.
  apply (writes_only_frames _ _ _ _ Hw), merge_arrays_length.
Qed.

Lemma mergeRegisters_frames this other s :
  frames this s (exec (Hll.mergeRegisters this other) s).
Proof.
  destruct (mergeRegisters_spec this other s) as (s' & Hrun & Hw).
  unfold exec. rewrite Hrun. simpl.
  apply (writes_only_frames _ _ _ _ Hw), merge_arrays_length.
Qed.

Lemma clear_frames this s : frames this s (exec (Hll.clear this) s).
Proof.
  destruct (clear_spec this s) as (s' & Hrun & Hw).
  unfold exec. rewrite Hrun. simpl.
  apply (writes_only_frames _ _ _ _ Hw), length_replicate.
Qed.

(** C7 (amended).  [new HyperLogLog(offset)] raises exactly when the offset
    lies outside [0, 24]; with a valid offset, [newWithRegisters] raises
    exactly when the buffer does not hold 256 bytes.  [merge],
    [mergeRegisters], [clear], [count], [getRegisters] and [setRegisters]
    return normally on every input.  [add] returns normally when at least
    eight bytes of the key lie at the offset and raises [RangeError]
    otherwise; in particular it returns normally on every 32-byte key. *)
Theorem failure_modes (Math_log : float -> float) (s : store) :
  (forall off, 0 <= off <= 24 -> exists o s', Hll.constructor off s = Normal o s')
  /\ (forall off, ~ (0 <= off <= 24) -> Hll.constructor off s = Throw InvalidOffset s)
  /\ (forall buf off, allocated_array s buf -> 0 <= off <= 24 ->
        length (array_of s buf) = 256%nat ->
        exists o s', Hll.newWithRegisters buf off s = Normal o s')
  /\ (forall buf off, allocated_array s buf -> 0 <= off <= 24 ->
        length (array_of s buf) <> 256%nat ->
        exists s', Hll.newWithRegisters buf off s = Throw InvalidRegisterCount s')
  /\ (forall buf off, ~ (0 <= off <= 24) ->
        Hll.newWithRegisters buf off s = Throw InvalidOffset s)
  /\ (forall this pubkey,
        let off := offset (object_of s this) in
        let key := array_of s pubkey in
        0 <= off <= 24 ->
        (off + 8 <= Z.of_nat (length key) ->
           exists s', Hll.add this pubkey s = Normal tt s')
        /\ (Z.of_nat (length key) < off + 8 ->
             Hll.add this pubkey s = Throw RangeError s)
        /\ (length key = 32%nat ->
             exists s', Hll.add this pubkey s = Normal tt s'))
  /\ (forall this other, exists s', Hll.merge this other s = Normal tt s')
  /\ (forall this other, exists s', Hll.mergeRegisters this other s = Normal tt s')
  /\ (forall this, exists s', Hll.clear this s = Normal tt s')
  /\ (forall this, exists x, Hll.count Math_log this s = Normal x s)
  /\ (forall this, exists r, Hll.getRegisters this s = Normal r s)
  /\ (forall this enc, exists s', Hll.setRegisters this enc s = Normal tt s').
Proof.
  assert (Hadd : forall this pubkey,
            0 <= offset (object_of s this) ->
            offset (object_of s this) + 8 <= Z.of_nat (length (array_of s pubkey)) ->
            exists s', Hll.add this pubkey s = Normal tt s').
  { intros this pubkey Hoff Hlen.
    pose proof (add_outcome this pubkey s) as H. cbv zeta in H.
    rewrite subarray_length in H by lia.
    match type of H with
    | if (?n <? 8)%nat then _ else _ =>
        destruct (Nat.ltb_spec n 8) as [Hlt|_]; [lia|]
    end.
    destruct H as (s' & v & Hrun & _). by exists s'. }
  repeat apply conj.
  - intros off Hoff. rewrite constructor_ok by assumption. eauto.
  - intros off Hoff. by apply constructor_fail.
  - intros buf off Hbuf Hoff Hlen.
    rewrite newWithRegisters_valid_offset by assumption.
    rewrite decide_True by assumption. eauto.
  - intros buf off Hbuf Hoff Hlen.
    rewrite newWithRegisters_valid_offset by assumption.
    rewrite decide_False by assumption. eauto.
  - intros buf off Hoff. unfold Hll.newWithRegisters, bind.
    by rewrite constructor_fail.
  - intros this pubkey off key Hoff. repeat apply conj.
    + intros Hlen. apply Hadd; [lia|exact Hlen].
    + intros Hlen. apply add_short; [lia|exact Hlen].
    + intros Hlen. apply Hadd; [lia|]. fold key off. lia.
  - intros this other. destruct (merge_spec this other s) as (s' & Hrun & _). eauto.
  - intros this other.
    destruct (mergeRegisters_spec this other s) as (s' & Hrun & _). eauto.
  - intros this. destruct (clear_spec this s) as (s' & Hrun & _). eauto.
  - intros this. eexists. reflexivity.
  - intros this. eexists. reflexivity.
  - intros this enc. eexists. reflexivity.
Qed.

(** The estimator of [short_key_store] accepts the offset 0, and the sample
    store holds a 32-byte key for an estimator at offset 4. *)
Lemma failure_modes_witness :
  (exists o s', Hll.constructor 0 short_key_store = Normal o s')
  /\ Hll.constructor 25 short_key_store = Throw InvalidOffset short_key_store
  /\ (exists s', Hll.add 1%positive 2%positive sample_store = Normal tt s').
Proof.
  destruct (failure_modes (fun x => x) short_key_store)
    as (Hok & Hfail & _).
  destruct (failure_modes (fun x => x) sample_store)
    as (_ & _ & _ & _ & _ & Hadd & _).
  destruct (Hadd 1%positive 2%positive) as (_ & _ & H32).
  { vm_compute. split; discriminate. }
  split; [apply Hok; lia|]. split; [apply Hfail; lia|].
  apply H32. vm_compute. reflexivity.
Defined.

(** C7, as stated, fails: an estimator at offset 0 handed a four-byte key
    raises in [add]. *)
Lemma add_raises_on_short_key :
  Hll.add 1%positive 2%positive short_key_store = Throw RangeError short_key_store.
Proof. vm_compute. reflexivity. Qed.

(** C8 (amended).  Both constructions yield a register set of length 256;
    [add], [merge], [mergeRegisters] and [clear] keep the length of the
    receiver's register set on every input, whether they return or raise;
    [setRegisters] installs the buffer it is given, so the length afterwards is
    that of the buffer. *)
Theorem registers_length (s : store) (this : loc) :
  (forall off o s', Hll.constructor off s = Normal o s' ->
     length (registers_of s' o) = 256%nat)
  /\ (forall buf off o s', allocated_array s buf ->
        Hll.newWithRegisters buf off s = Normal o s' ->
        length (registers_of s' o) = 256%nat)
  /\ (length (registers_of s this) = 256%nat ->
      (forall pubkey,
         length (registers_of (exec (Hll.add this pubkey) s) this) = 256%nat)
      /\ (forall other,
           length (registers_of (exec (Hll.merge this other) s) this) = 256%nat)
      /\ (forall other,
           length (registers_of (exec (Hll.mergeRegisters this other) s) this)
           = 256%nat)
      /\ length (registers_of (exec (Hll.clear this) s) this) = 256%nat)
  /\ (forall enc,
        registers_of (exec (Hll.setRegisters this enc) s) this = array_of s enc
        /\ (length (registers_of (exec (Hll.setRegisters this enc) s) this) = 256%nat
            <-> length (array_of s enc) = 256%nat)).
Proof.
  repeat apply conj.
  - intros off o s' Hrun.
    destruct (decide (0 <= off <= 24)) as [Hoff|Hoff].
    + rewrite constructor_ok in Hrun by assumption. injection Hrun as <- <-.
      unfold registers_of. rewrite object_of_set_object, decide_True by reflexivity.
      cbn [registers]. rewrite array_of_set_object, array_of_set_array.
      rewrite decide_True by reflexivity. reflexivity.
    + rewrite constructor_fail in Hrun by assumption. discriminate.
  - intros buf off o s' Hbuf Hrun.
    destruct (decide (0 <= off <= 24)) as [Hoff|Hoff].
    + rewrite newWithRegisters_valid_offset in Hrun by assumption.
      destruct (decide (length (array_of s buf) = 256%nat)) as [Hlen|Hlen];
        [|discriminate].
      injection Hrun as <- <-.
      unfold registers_of. rewrite object_of_set_array.
      rewrite object_of_set_object, decide_True by reflexivity. cbn [registers].
      rewrite array_of_set_array, decide_True by reflexivity. exact Hlen.
    + unfold Hll.newWithRegisters, bind in Hrun.
      rewrite constructor_fail in Hrun by assumption. discriminate.
  - intros Hlen. repeat apply conj.
    + intros pubkey. destruct (add_frames this pubkey s) as (_ & H & _). lia.
    + intros other. destruct (merge_frames this other s) as (_ & H & _). lia.
    + intros other.
      destruct (mergeRegisters_frames this other s) as (_ & H & _). lia.
    + destruct (clear_frames this s) as (_ & H & _). lia.
  - intros enc.
    assert (H : registers_of (exec (Hll.setRegisters this enc) s) this
                = array_of s enc).
    { unfold exec, Hll.setRegisters, modify. simpl. unfold registers_of.
      rewrite object_of_set_object, decide_True by reflexivity. reflexivity. }
    split; [exact H|]. by rewrite H.
Qed.

(** The first of the three estimators keeps 256 registers when a three-byte
    buffer is merged into it. *)
Lemma registers_length_witness :
  length (registers_of
            (exec (Hll.mergeRegisters 1%positive 7%positive) three_estimators)
            1%positive) = 256%nat.
Proof.
  destruct (registers_length three_estimators 1%positive) as (_ & _ & H & _).
  destruct H as (_ & _ & Hm & _).
  - vm_compute. reflexivity.
  - apply Hm.
Defined.

(** C8, as stated, fails: [setRegisters] with a buffer of 100 bytes leaves the
    estimator with 100 registers. *)
Lemma setRegisters_changes_length :
  length (registers_of short_buffer_store 1%positive) = 256%nat
  /\ length (registers_of
               (exec (Hll.setRegisters 1%positive 2%positive) short_buffer_store)
               1%positive) = 100%nat.
Proof. split; vm_compute; reflexivity. Qed.

(** ** Round trip *)

(** While the estimator [n] does not hold the buffer [Re] of the estimator
    [e], a call on [n] changes neither the object [e] nor the buffer [Re],
    unless the call hands [Re] to [n]. *)
Lemma mutate_keeps_other n e Re m t :
  n <> e -> registers (object_of t n) <> Re -> m <> Hll.SetRegisters Re ->
  let t' := exec (Hll.mutate n m) t in
  object_of t' e = object_of t e
  /\ array_of t' Re = array_of t Re
  /\ registers (object_of t' n) <> Re.
Proof.
  intros Hne HRe Hm t'.
  assert (Hframe : frames n t t' ->
            object_of t' e = object_of t e
            /\ array_of t' Re = array_of t Re
            /\ registers (object_of t' n) <> Re).
  { intros (Hobj & _ & Hother). unfold object_of. rewrite Hobj.
    split; [reflexivity|]. split; [|exact HRe]. apply Hother. congruence. }
  destruct m as [pubkey|pubkey|other|other| |enc]; unfold t'; simpl.
  - apply Hframe, add_frames.
  - apply Hframe, add_frames.
  - apply Hframe, merge_frames.
  - apply Hframe, mergeRegisters_frames.
  - apply Hframe, clear_frames.
  - unfold exec, Hll.setRegisters, modify. simpl.
    rewrite !object_of_set_object.
    rewrite decide_False by congruence. rewrite decide_True by reflexivity.
    split; [reflexivity|]. split; [reflexivity|]. simpl. congruence.
Qed.

Lemma mutate_all_keeps_other n e Re ms : forall t,
  n <> e -> registers (object_of t n) <> Re ->
  Forall (fun m => m <> Hll.SetRegisters Re) ms ->
  object_of (Hll.mutate_all n ms t) e = object_of t e
  /\ array_of (Hll.mutate_all n ms t) Re = array_of t Re.
Proof.
  induction ms as [|m ms IH]; intros t Hne HRe Hms; [by split|].
  inversion Hms as [|? ? Hm Hms']; subst.
  destruct (mutate_keeps_other n e Re m t Hne HRe Hm) as (Ho & Ha & HR).
  destruct (IH (exec (Hll.mutate n m) t) Hne HR Hms') as (Ho' & Ha').
  unfold Hll.mutate_all in *. simpl. split; [by rewrite Ho'|by rewrite Ha'].
Qed.

(** C9 (amended).  For an estimator [e] with 256 registers,
    [newWithRegisters(e.getRegisters(), e.offset)] returns a new estimator,
    a different object with a different register buffer that holds the same
    bytes, so that [count] gives the same value on both; [e] itself is left
    as it was.  Whatever calls are then made on the new estimator, the
    registers of [e] stay as they were, as long as no call hands the buffer of
    [e] to the new estimator through [setRegisters]. *)
Theorem round_trip_copies (Math_log : float -> float) (s : store) (e : loc) :
  allocated_object s e ->
  allocated_array s (registers (object_of s e)) ->
  0 <= offset (object_of s e) <= 24 ->
  length (registers_of s e) = 256%nat ->
  exists n s',
    Hll.round_trip e s = Normal n s'
    /\ n <> e
    /\ registers (object_of s' n) <> registers (object_of s' e)
    /\ object_of s' e = object_of s e
    /\ registers_of s' e = registers_of s e
    /\ registers_of s' n = registers_of s e
    /\ offset (object_of s' n) = offset (object_of s e)
    /\ (exists x, Hll.count Math_log n s' = Normal x s'
                  /\ Hll.count Math_log e s' = Normal x s'
                  /\ Hll.count Math_log e s = Normal x s)
    /\ (forall ms,
          Forall (fun m => m <> Hll.SetRegisters (registers (object_of s e))) ms ->
          registers_of (Hll.mutate_all n ms s') e = registers_of s e).
Proof.
  intros He HRe Hoff Hlen.
  set (Re := registers (object_of s e)) in *.
  set (a := fresh (dom (arrays s))).
  set (o := fresh (dom (objects s))).
  set (s1 := set_object (set_array s a (replicate 256 0)) o
               (mkHyperLogLog (offset (object_of s e)) a)).
  assert (Hrun : Hll.round_trip e s = Normal o (set_array s1 a (array_of s Re))).
  { unfold Hll.round_trip, bind, Hll.getRegisters, gets. fold Re.
    rewrite newWithRegisters_valid_offset by assumption.
    by rewrite decide_True by exact Hlen. }
  assert (Hoe : o <> e) by (symmetry; by apply fresh_object_not_allocated).
  assert (HaRe : a <> Re) by (symmetry; by apply fresh_array_not_allocated).
  set (s' := set_array s1 a (array_of s Re)) in *.
  assert (Hobj_e : object_of s' e = object_of s e).
  { unfold s', s1. rewrite object_of_set_array, object_of_set_object.
    by rewrite decide_False by congruence. }
  assert (Hobj_n : object_of s' o = mkHyperLogLog (offset (object_of s e)) a).
  { unfold s', s1. rewrite object_of_set_array, object_of_set_object.
    by rewrite decide_True by reflexivity. }
  assert (Harr_e : array_of s' Re = array_of s Re).
  { unfold s', s1. rewrite array_of_set_array, decide_False by congruence.
    rewrite array_of_set_object, array_of_set_array.
    by rewrite decide_False by congruence. }
  assert (Harr_n : array_of s' a = array_of s Re).
  { unfold s'. by rewrite array_of_set_array, decide_True by reflexivity. }
  assert (Hregs_e : registers_of s' e = registers_of s e).
  { unfold registers_of. rewrite Hobj_e. exact Harr_e. }
  assert (Hregs_n : registers_of s' o = registers_of s e).
  { unfold registers_of. rewrite Hobj_n. exact Harr_n. }
  exists o, s'. split; [exact Hrun|]. split; [exact Hoe|].
  split; [by rewrite Hobj_n, Hobj_e|]. split; [exact Hobj_e|].
  split; [exact Hregs_e|]. split; [exact Hregs_n|].
  split; [by rewrite Hobj_n|]. split.
  - exists (Hll.count_registers Math_log (registers_of s e)).
    unfold Hll.count, gets. by rewrite Hregs_n, Hregs_e.
  - intros ms Hms.
    destruct (mutate_all_keeps_other o e Re ms s' Hoe) as (Ho & Ha).
    + by rewrite Hobj_n.
    + exact Hms.
    + unfold registers_of. rewrite Ho, Hobj_e. fold Re. by rewrite Ha.
Qed.

(** The first of the three estimators, rebuilt and then cleared: the original
    keeps its registers. *)
Lemma round_trip_copies_witness :
  exists n s',
    Hll.round_trip 1%positive three_estimators = Normal n s'
    /\ n <> 1%positive
    /\ registers_of (Hll.mutate_all n [Hll.Merge 2%positive; Hll.Clear] s') 1%positive
       = registers_of three_estimators 1%positive.
Proof.
  destruct (round_trip_copies (fun x => x) three_estimators 1%positive)
    as (n & s' & Hrun & Hne & _ & _ & _ & _ & _ & _ & Hkeep).
  - vm_compute. eexists. reflexivity.
  - vm_compute. eexists. reflexivity.
  - vm_compute. split; discriminate.
  - vm_compute. reflexivity.
  - exists n, s'. split; [exact Hrun|]. split; [exact Hne|].
    apply Hkeep. repeat constructor; discriminate.
Defined.

(** C9, as stated, fails: once the rebuilt estimator is handed the buffer of
    the original through [setRegisters], which stores the buffer it is given,
    clearing the rebuilt estimator clears the registers of the original. *)
Lemma round_trip_then_setRegisters :
  exists n s',
    Hll.round_trip 1%positive three_estimators = Normal n s'
    /\ Hll.getRegisters 1%positive s' = Normal 2%positive s'
    /\ registers_of s' 1%positive = regs_a
    /\ registers_of
         (Hll.mutate_all n [Hll.SetRegisters 2%positive; Hll.Clear] s') 1%positive
       = replicate 256 0
    /\ regs_a <> replicate 256 0.
Proof.
  eexists _, _. split; [vm_compute; reflexivity|].
  split; [vm_compute; reflexivity|]. split; [vm_compute; reflexivity|].
  split; [vm_compute; reflexivity|]. vm_compute. discriminate.
Qed.

(** ** [count] *)

Lemma countZeros_from c regs :
  foldl (fun c v => if v =? 0 then c + 1 else c) c regs
  = c + Hll.zero_registers regs.
Proof.
  revert c. unfold Hll.zero_registers.
  induction regs as [|r regs IH]; intros c; simpl; [lia|].
  rewrite IH. destruct (r =? 0); simpl; lia.
Qed.

Lemma countZeros_zero_registers regs : Hll.countZeros regs = Hll.zero_registers regs.
Proof. unfold Hll.countZeros. by rewrite countZeros_from. Qed.

(** For a register value, the quotient [1 / 2^val] is the power [2^(-val)]:
    checked on each of the 256 values. *)
Lemma recip_pow2_table :
  Forall (fun r => (1 / Hll.Math_pow2 r)%float = Z.ldexp 1 (- r))
         (map Z.of_nat (seq 0 256)).
Proof.
  let l := eval vm_compute in (map Z.of_nat (seq 0 256)) in
  change (map Z.of_nat (seq 0 256)) with l.
  repeat (apply List.Forall_cons; [vm_compute; reflexivity|]).
  apply List.Forall_nil.
Qed.

Lemma recip_pow2 r :
  is_byte r -> (1 / Hll.Math_pow2 r)%float = Z.ldexp 1 (- r).
Proof.
  intros [Hr0 Hr1].
  apply (proj1 (List.Forall_forall _ _) recip_pow2_table).
  replace r with (Z.of_nat (Z.to_nat r)) by lia.
  apply in_map, in_seq. lia.
Qed.

Lemma sum_inverse_powers_from regs : forall acc,
  Forall is_byte regs ->
  foldl (fun sum val => (sum + 1 / Hll.Math_pow2 val)%float) acc regs
  = foldl (fun acc r => (acc + Z.ldexp 1 (- r))%float) acc regs.
Proof.
  induction regs as [|r regs IH]; intros acc Hregs; [reflexivity|].
  inversion Hregs as [|? ? Hr Hregs']; subst. simpl.
  rewrite recip_pow2 by assumption. by apply IH.
Qed.

Lemma calculateEstimate_spec regs :
  Forall is_byte regs ->
  Hll.calculateEstimate regs
  = (Hll.spec_alpha * (Hll.spec_m * Hll.spec_m) / Hll.sum_inverse_powers regs)%float.
Proof.
  intros Hregs. unfold Hll.calculateEstimate, Hll.sum_inverse_powers.
  rewrite sum_inverse_powers_from by assumption. reflexivity.
Qed.

(** C2.  On every register state, [count] follows the control flow of the
    specification with [m = 256], [alpha = 0.7182725932495458],
    [LC_MAX = 220] and [RAW_MAX = 768]: with [v] the number of zero
    registers, the floor of [m ln(m / v)] when [v] is not 0 and that value is
    at most 220; otherwise, with [E = alpha m^2 / sum 2^(-registers[i])],
    again the floor of [m ln(m / v)] when [E <= 768] and [v] is not 0, and
    the floor of [E] in all other cases. *)
Theorem count_follows_specification (Math_log : float -> float) (regs : list Z) :
  Forall is_byte regs ->
  Hll.count_registers Math_log regs = Hll.estimate_spec Math_log regs.
Proof.
  intros Hregs. unfold Hll.count_registers, Hll.estimate_spec.
  rewrite countZeros_zero_registers, calculateEstimate_spec by assumption.
  unfold Hll.linearCounting.
  change (256 * 3)%float with Hll.RAW_MAX.
  change 220%float with Hll.LC_MAX. change 256%float with Hll.spec_m.
  set (v := Hll.zero_registers regs).
  set (linear := (Hll.spec_m * Math_log (Hll.spec_m / Hll.Number v))%float).
  set (E := (Hll.spec_alpha * (Hll.spec_m * Hll.spec_m)
             / Hll.sum_inverse_powers regs)%float).
  destruct (v =? 0); simpl.
  - by destruct (E <=? Hll.RAW_MAX)%float.
  - destruct (linear <=? Hll.LC_MAX)%float; [reflexivity|].
    by destruct (E <=? Hll.RAW_MAX)%float.
Qed.

(** The first sample register state, with the series for the logarithm. *)
Lemma count_follows_specification_witness :
  Hll.count_registers Hll.ln_series regs_a = Hll.estimate_spec Hll.ln_series regs_a.
Proof. apply count_follows_specification. solve_bytes. Defined.

(** ** The test vectors *)

(** With zero registers left and a linear count of at most 220, [count] is
    the floor of the linear count. *)
Lemma count_registers_linear Math_log regs v :
  Hll.countZeros regs = v -> v <> 0 ->
  (256 * Math_log (256 / Hll.Number v) <=? 220)%float = true ->
  Hll.count_registers Math_log regs
  = Hll.Math_floor (256 * Math_log (256 / Hll.Number v))%float.
Proof.
  intros Hv Hv0 Hle. unfold Hll.count_registers. rewrite Hv.
  destruct (Z.eqb_spec v 0); [done|]. simpl.
  unfold Hll.linearCounting. by rewrite Hle.
Qed.

(** With no zero register, [count] is the floor of the raw estimate. *)
Lemma count_registers_raw Math_log regs :
  Hll.countZeros regs = 0 ->
  Hll.count_registers Math_log regs = Hll.Math_floor (Hll.calculateEstimate regs).
Proof.
  intros Hv. unfold Hll.count_registers. rewrite Hv. simpl.
  by destruct (_ <=? _)%float.
Qed.

(** *** Multiplying a number of the band by 256 *)

Lemma digits2_pos_size p : digits2_pos p = Pos.size p.
Proof. induction p as [p IH|p IH|]; simpl; congruence. Qed.

Lemma size_log2 p : Z.pos (Pos.size p) = Z.log2 (Z.pos p) + 1.
Proof. destruct p; simpl; lia. Qed.

Lemma digits2_pos_53 m :
  2 ^ 52 <= Z.pos m < 2 ^ 53 -> digits2_pos m = 53%positive.
Proof.
  intros Hm. rewrite digits2_pos_size.
  assert (H : Z.log2 (Z.pos m) = 52) by (apply Z.log2_unique; lia).
  pose proof (size_log2 m). lia.
Qed.

(** The product of 256 = 2^52 * 2^(-44) and a number with a 53-bit mantissa
    and exponent -54 is exact: the same mantissa, eight exponents up. *)
Lemma SFmul_256 m :
  digits2_pos m = 53%positive ->
  SFmul prec emax (S754_finite false 4503599627370496 (-44))
                  (S754_finite false m (-54))
  = S754_finite false m (-46).
Proof.
  intros Hd. unfold SFmul, binary_round_aux, shr_fexp.
  let t := eval cbv [Pos.mul] in (4503599627370496 * m)%positive in
  change (4503599627370496 * m)%positive with t.
  cbn [xorb Zdigits2 digits2_pos]. rewrite Hd.
  cbv - [digits2_pos]. rewrite Hd. reflexivity.
Qed.

(** A number of the band has the exponent -54 and a mantissa between
    [121 * 2^46] and [122 * 2^46]. *)
Lemma band_mantissa y :
  (121 / 256 <=? y)%float = true -> (y <? 122 / 256)%float = true ->
  exists m, Prim2SF y = S754_finite false m (-54)
            /\ 121 * 2 ^ 46 <= Z.pos m < 122 * 2 ^ 46.
Proof.
  rewrite FloatAxioms.leb_spec, FloatAxioms.ltb_spec.
  change (Prim2SF (121 / 256)) with (S754_finite false 8514618045497344 (-54)).
  change (Prim2SF (122 / 256)) with (S754_finite false 8584986789675008 (-54)).
  change (121 * 2 ^ 46) with 8514618045497344.
  change (122 * 2 ^ 46) with 8584986789675008.
  unfold SFleb, SFltb, SFcompare.
  destruct (Prim2SF y) as [s|s| |s m e]; try (destruct s); try discriminate.
  destruct (Z.compare_spec (-54) e) as [He|He|He]; try discriminate.
  - subst e. rewrite Z.compare_refl, !Pos.compare_cont_spec.
    unfold Pos.switch_Eq.
    destruct (Pos.compare_spec 8514618045497344 m) as [H1|H1|H1];
      destruct (Pos.compare_spec m 8584986789675008) as [H2|H2|H2];
      intros Hlo Hhi; try discriminate Hlo; try discriminate Hhi;
      try apply Pos2Z.pos_lt_pos in H1; try apply Pos2Z.pos_lt_pos in H2;
      try apply (f_equal Z.pos) in H1;
      (exists m; split; [reflexivity|split; lia]).
  - intros _. destruct (Z.compare_spec e (-54)) as [H2|H2|H2];
      intros Hhi; try discriminate Hhi; lia.
Qed.

(** Every number of the band gives a linear count below 220 whose floor is
    121. *)
Lemma floor_in_band y :
  (121 / 256 <=? y)%float = true -> (y <? 122 / 256)%float = true ->
  (256 * y <=? 220)%float = true /\ Hll.Math_floor (256 * y)%float = 121%float.
Proof.
  intros Hlo Hhi. destruct (band_mantissa y Hlo Hhi) as (m & Hy & Hm).
  assert (Hmul : Prim2SF (256 * y)%float = S754_finite false m (-46)).
  { rewrite FloatAxioms.mul_spec, Hy.
    change (Prim2SF 256) with (S754_finite false 4503599627370496 (-44)).
    apply SFmul_256, digits2_pos_53. lia. }
  split.
  - rewrite FloatAxioms.leb_spec, Hmul. reflexivity.
  - unfold Hll.Math_floor. rewrite Hmul.
    change (Hll.Number (Z.pos m / 70368744177664) = 121%float).
    change (121 * 2 ^ 46) with (121 * 70368744177664) in Hm.
    change (122 * 2 ^ 46) with (122 * 70368744177664) in Hm.
    replace (Z.pos m / 70368744177664) with 121; [reflexivity|].
    apply Z.div_unique with (r := Z.pos m - 121 * 70368744177664); lia.
Qed.

(** *** The logarithm itself *)

Section RealLogarithm.
Local Open Scope R_scope.

Lemma exp_nat_pow (h : R) (n : nat) : exp (INR n * h) = exp h ^ n.
Proof.
  induction n as [|n IH].
  - simpl. rewrite Rmult_0_l. apply exp_0.
  - rewrite S_INR, Rmult_plus_distr_r, Rmult_1_l, exp_plus, IH. simpl. ring.
Qed.

Lemma exp_ge_pow (h : R) (n : nat) : 0 <= 1 + h -> (1 + h) ^ n <= exp (INR n * h).
Proof.
  intros Hh. rewrite exp_nat_pow. apply pow_incr. split; [exact Hh|].
  apply exp_ineq1_le.
Qed.

Lemma exp_le_pow (h : R) (n : nat) : h < 1 -> exp (INR n * h) <= (/ (1 - h)) ^ n.
Proof.
  intros Hh. rewrite exp_nat_pow. apply pow_incr. split.
  - left. apply exp_pos.
  - replace (exp h) with (/ exp (- h)).
    + apply Rinv_le_contravar; [lra|].
      pose proof (exp_ineq1_le (- h)). lra.
    + rewrite exp_Ropp. apply Rinv_inv.
Qed.

Lemma ratio_lt (a b c d : Z) :
  (0 < b)%Z -> (0 < d)%Z -> (a * d < c * b)%Z -> IZR a / IZR b < IZR c / IZR d.
Proof.
  intros Hb Hd H. apply IZR_lt in Hb, Hd, H. rewrite !mult_IZR in H.
  apply (Rmult_lt_reg_r (IZR b * IZR d)); [apply Rmult_lt_0_compat; assumption|].
  field_simplify; lra.
Qed.

(** The Number [256 / 159] is [7251078645326082 / 2^52]. *)
Lemma argument_of_log :
  Prim2SF (256 / 159)%float = S754_finite false 7251078645326082 (-52).
Proof. vm_compute. reflexivity. Qed.

Lemma square_down (X S : Z) (y : R) :
  (0 < S)%Z -> (0 <= X)%Z -> IZR X / IZR S <= y ->
  (0 <= X * X / S)%Z /\ IZR (X * X / S) / IZR S <= y ^ 2.
Proof.
  intros HS HX Hy.
  assert (HSr : 0 < IZR S) by (by apply IZR_lt).
  assert (HXr : 0 <= IZR X) by (by apply IZR_le).
  assert (Hq : (X * X / S * S <= X * X)%Z).
  { rewrite Z.mul_comm. apply Z.mul_div_le. exact HS. }
  split; [apply Z.div_pos; nia|].
  apply IZR_le in Hq. rewrite !mult_IZR in Hq.
  apply Rle_trans with ((IZR X / IZR S) ^ 2).
  - apply (Rmult_le_reg_r (IZR S * IZR S)); [by apply Rmult_lt_0_compat|].
    replace (IZR (X * X / S) / IZR S * (IZR S * IZR S))
      with (IZR (X * X / S) * IZR S) by (field; lra).
    replace ((IZR X / IZR S) ^ 2 * (IZR S * IZR S)) with (IZR X * IZR X)
      by (field; lra).
    exact Hq.
  - apply pow_incr. split; [|exact Hy].
    apply Rmult_le_pos; [exact HXr|]. left. by apply Rinv_0_lt_compat.
Qed.

Lemma square_up (X S : Z) (y : R) :
  (0 < S)%Z -> (0 <= X)%Z -> 0 <= y <= IZR X / IZR S ->
  (0 <= X * X / S + 1)%Z /\ 0 <= y ^ 2 <= IZR (X * X / S + 1) / IZR S.
Proof.
  intros HS HX [Hy0 Hy].
  assert (HSr : 0 < IZR S) by (by apply IZR_lt).
  assert (Hq : (X * X < (X * X / S + 1) * S)%Z).
  { pose proof (Z.mul_succ_div_gt (X * X) S HS). lia. }
  assert (Hpos : (0 <= X * X / S)%Z) by (apply Z.div_pos; nia).
  split; [lia|]. split; [apply pow_le; exact Hy0|].
  apply IZR_lt in Hq. rewrite !mult_IZR in Hq.
  apply Rle_trans with ((IZR X / IZR S) ^ 2).
  - apply pow_incr. by split.
  - apply (Rmult_le_reg_r (IZR S * IZR S)); [by apply Rmult_lt_0_compat|].
    replace (IZR (X * X / S + 1) / IZR S * (IZR S * IZR S))
      with (IZR (X * X / S + 1) * IZR S) by (field; lra).
    replace ((IZR X / IZR S) ^ 2 * (IZR S * IZR S)) with (IZR X * IZR X)
      by (field; lra).
    lra.
Qed.

Lemma squarings_down_le (k : nat) : forall (X S : Z) (y : R),
  (0 < S)%Z -> (0 <= X)%Z -> IZR X / IZR S <= y ->
  IZR (squarings_down k X S) / IZR S <= y ^ (2 ^ k).
Proof.
  induction k as [|k IH]; intros X S y HS HX Hy.
  - simpl. lra.
  - destruct (square_down X S y HS HX Hy) as [HX' Hy'].
    cbn [squarings_down]. rewrite Nat.pow_succ_r', pow_mult.
    by apply IH.
Qed.

Lemma squarings_up_ge (k : nat) : forall (X S : Z) (y : R),
  (0 < S)%Z -> (0 <= X)%Z -> 0 <= y <= IZR X / IZR S ->
  y ^ (2 ^ k) <= IZR (squarings_up k X S) / IZR S.
Proof.
  induction k as [|k IH]; intros X S y HS HX Hy.
  - simpl. lra.
  - destruct (square_up X S y HS HX Hy) as [HX' Hy'].
    cbn [squarings_up]. rewrite Nat.pow_succ_r', pow_mult.
    by apply IH.
Qed.

(** The logarithm of the Number [256 / 159], to five digits:
    [exp a <= (1 / (1 - a / 2^18))^(2^18)] and
    [(1 + a / 2^18)^(2^18) <= exp a], with the powers bounded by 18
    rounded squarings of a multiple of [2^(-80)]. *)
Lemma ln_argument_tight :
  47627 / 100000 < ln (IZR 7251078645326082 / IZR (2 ^ 52)) < 47628 / 100000.
Proof.
  assert (Hpos : 0 < IZR 7251078645326082 / IZR (2 ^ 52)).
  { apply Rdiv_lt_0_compat; apply IZR_lt; reflexivity. }
  assert (Hn : INR (2 ^ 18) = 262144).
  { rewrite pow_INR. replace (INR 2) with (IZR 2) by (simpl; lra).
    rewrite pow_IZR. reflexivity. }
  split.
  - rewrite <- (ln_exp (47627 / 100000)). apply ln_increasing; [apply exp_pos|].
    set (h := 47627 / 26214400000).
    replace (47627 / 100000) with (INR (2 ^ 18) * h)
      by (rewrite Hn; unfold h; lra).
    assert (Hh : 0 < h < / 2) by (unfold h; lra).
    eapply Rle_lt_trans; [apply exp_le_pow; lra|].
    set (S := (2 ^ 80)%Z).
    set (X := (S * 26214400000 / (26214400000 - 47627) + 1)%Z).
    eapply Rle_lt_trans.
    + apply (squarings_up_ge 18 X S); [reflexivity|vm_compute; discriminate|].
      split; [left; apply Rinv_0_lt_compat; lra|].
      assert (HS : 0 < IZR S) by (by apply IZR_lt).
      apply (Rmult_le_reg_r ((1 - h) * IZR S)).
      { apply Rmult_lt_0_compat; lra. }
      replace (/ (1 - h) * ((1 - h) * IZR S)) with (IZR S) by (field; lra).
      replace (IZR X / IZR S * ((1 - h) * IZR S)) with (IZR X * (1 - h))
        by (field; lra).
      clear HS.
      unfold h.
      let x := eval vm_compute in X in change X with x.
      let x := eval vm_compute in S in change S with x.
      lra.
    + apply ratio_lt; vm_compute; reflexivity.
  - rewrite <- (ln_exp (47628 / 100000)). apply ln_increasing; [exact Hpos|].
    set (h := 47628 / 26214400000).
    replace (47628 / 100000) with (INR (2 ^ 18) * h)
      by (rewrite Hn; unfold h; lra).
    assert (Hh : 0 < h < / 2) by (unfold h; lra).
    eapply Rlt_le_trans; [|apply exp_ge_pow; lra].
    set (S := (2 ^ 80)%Z).
    set (X := (S * (26214400000 + 47628) / 26214400000)%Z).
    eapply Rlt_le_trans.
    + apply (ratio_lt _ _ (squarings_down 18 X S) S); vm_compute; reflexivity.
    + apply squarings_down_le; [reflexivity|vm_compute; discriminate|].
      unfold h.
      let x := eval vm_compute in X in change X with x.
      let x := eval vm_compute in S in change S with x.
      lra.
Qed.

(** In particular it lies strictly between [121 / 256] and [122 / 256]. *)
Lemma ln_argument_band :
  121 / 256 < ln (IZR 7251078645326082 / IZR (2 ^ 52)) < 122 / 256.
Proof. pose proof ln_argument_tight. lra. Qed.

Lemma argument_value :
  Number_value (256 / 159)%float = Some (IZR 7251078645326082 / IZR (2 ^ 52)).
Proof. unfold Number_value. rewrite argument_of_log. reflexivity. Qed.

End RealLogarithm.

(** *** From the error of [Math.log] to the band *)

Lemma digits_bounds m :
  let d := Z.pos (digits2_pos m) in 2 ^ (d - 1) <= Z.pos m < 2 ^ d.
Proof.
  intros d. unfold d. rewrite digits2_pos_size, size_log2.
  replace (Z.log2 (Z.pos m) + 1 - 1) with (Z.log2 (Z.pos m)) by lia.
  replace (Z.log2 (Z.pos m) + 1) with (Z.succ (Z.log2 (Z.pos m))) by lia.
  apply Z.log2_spec. lia.
Qed.

(** A valid binary64 number whose value lies in the band has the exponent
    -54 and a mantissa between [121 * 2^46] and [122 * 2^46]. *)
Lemma band_of_value s m e v :
  valid_binary prec emax (S754_finite s m e) = true ->
  SF2R (S754_finite s m e) = Some v ->
  (121 / 256 <= v < 122 / 256)%R ->
  s = false /\ e = -54 /\ 121 * 2 ^ 46 <= Z.pos m < 122 * 2 ^ 46.
Proof.
  intros Hvalid Hv [Hlo Hhi]. simpl in Hv. injection Hv as <-.
  assert (Hm : (0 < IZR (Z.pos m))%R) by (apply IZR_lt; lia).
  destruct (Z.ltb_spec e 0) as [He|He].
  - set (k := - e) in *. assert (Hk : 0 < k) by lia.
    assert (HP : 0 < 2 ^ k) by (apply Z.pow_pos_nonneg; lia).
    assert (HPr : (0 < IZR (2 ^ k))%R) by (by apply IZR_lt).
    set (q := (IZR (Z.pos m) / IZR (2 ^ k))%R) in *.
    assert (Hq : (q * IZR (2 ^ k) = IZR (Z.pos m))%R) by (unfold q; field; lra).
    assert (Hqpos : (0 < q)%R) by (by apply Rdiv_lt_0_compat).
    destruct s; [lra|].
    assert (H1 : 121 * 2 ^ k <= 256 * Z.pos m).
    { apply le_IZR. rewrite !mult_IZR, <- Hq.
      pose proof (Rmult_le_compat_r (IZR (2 ^ k)) _ _ (Rlt_le _ _ HPr) Hlo). lra. }
    assert (H2 : 256 * Z.pos m < 122 * 2 ^ k).
    { apply lt_IZR. rewrite !mult_IZR, <- Hq.
      pose proof (Rmult_lt_compat_r (IZR (2 ^ k)) _ _ HPr Hhi). lra. }
    pose proof (digits_bounds m) as Hd. cbv zeta in Hd.
    set (d := Z.pos (digits2_pos m)) in *.
    assert (Hd1 : 0 < d) by (unfold d; lia).
    assert (Hk2 : 2 ^ k = 2 * 2 ^ (k - 1)).
    { rewrite <- Z.pow_succ_r by lia. f_equal. lia. }
    assert (Hd2 : 2 ^ (d + 2) = 4 * 2 ^ d).
    { rewrite Z.pow_add_r by lia. lia. }
    assert (Hdk : d < k).
    { assert (2 ^ (d - 1) < 2 ^ (k - 1)) by lia.
      apply Z.pow_lt_mono_r_iff in H; lia. }
    assert (Hkd : k < d + 2).
    { assert (2 ^ k < 2 ^ (d + 2)) by lia.
      apply Z.pow_lt_mono_r_iff in H; lia. }
    assert (Hde : d + e = -1) by lia.
    simpl in Hvalid. unfold bounded, canonical_mantissa in Hvalid.
    apply andb_prop in Hvalid as [Hcanon _]. apply Z.eqb_eq in Hcanon.
    fold d in Hcanon. rewrite Hde in Hcanon. vm_compute in Hcanon.
    split; [reflexivity|]. split; [by symmetry|].
    assert (k = 54) as Hk54 by lia. rewrite Hk54 in H1, H2.
    change (2 ^ 54) with (256 * 2 ^ 46) in H1, H2. lia.
  - exfalso.
    assert (1 <= Z.pos m * 2 ^ e).
    { assert (0 < 2 ^ e) by (apply Z.pow_pos_nonneg; lia). nia. }
    assert (Hge : (1 <= IZR (Z.pos m * 2 ^ e))%R) by (by apply IZR_le).
    destruct s; lra.
Qed.

(** A Number whose value lies in the band compares accordingly. *)
Lemma band_comparisons y v :
  Number_value y = Some v ->
  (121 / 256 <= v < 122 / 256)%R ->
  (121 / 256 <=? y)%float = true /\ (y <? 122 / 256)%float = true.
Proof.
  unfold Number_value. intros Hv Hband.
  pose proof (Prim2SF_valid y) as Hvalid.
  destruct (Prim2SF y) as [s|s| |s m e] eqn:Hy; try discriminate Hv.
  - injection Hv as <-. lra.
  - destruct (band_of_value s m e v Hvalid Hv Hband) as (-> & -> & Hm1 & Hm2).
    rewrite FloatAxioms.leb_spec, FloatAxioms.ltb_spec, Hy.
    change (Prim2SF (121 / 256)) with (S754_finite false 8514618045497344 (-54)).
    change (Prim2SF (122 / 256)) with (S754_finite false 8584986789675008 (-54)).
    change (121 * 2 ^ 46) with (Z.pos 8514618045497344) in Hm1.
    change (122 * 2 ^ 46) with (Z.pos 8584986789675008) in Hm2.
    unfold SFleb, SFltb, SFcompare. rewrite Z.compare_refl.
    rewrite !Pos.compare_cont_spec. unfold Pos.switch_Eq.
    rewrite !Pos2Z.inj_compare.
    destruct (Z.compare_spec (Z.pos 8514618045497344) (Z.pos m));
      destruct (Z.compare_spec (Z.pos m) (Z.pos 8584986789675008));
      split; try reflexivity; lia.
Qed.

(** A [Math.log] whose result at [256 / 159] is within [2^(-12)] of the
    logarithm is accurate in the sense of [accurate_log]. *)
Lemma accurate_log_of_error (Math_log : float -> float) :
  log_error_within Math_log (256 / 159)%float (/ 4096)%R ->
  Hll.accurate_log Math_log.
Proof.
  intros (vx & vy & Hx & Hy & Herr).
  rewrite argument_value in Hx. injection Hx as <-.
  pose proof ln_argument_tight as [Hlo Hhi].
  apply (band_comparisons _ vy Hy).
  set (d := (vy - ln (IZR 7251078645326082 / IZR (2 ^ 52)))%R) in *.
  pose proof (Rle_abs d) as Hd.
  pose proof (Rle_abs (- d)) as Hd'. rewrite Rabs_Ropp in Hd'.
  unfold d in *. lra.
Qed.

(** The series for the logarithm has such an error. *)
Lemma ln_series_error :
  log_error_within Hll.ln_series (256 / 159)%float (/ 4096)%R.
Proof.
  exists (IZR 7251078645326082 / IZR (2 ^ 52))%R.
  eexists. split; [apply argument_value|]. split.
  - unfold Number_value.
    let t := eval vm_compute in (Prim2SF (Hll.ln_series (256 / 159)%float)) in
    change (Prim2SF (Hll.ln_series (256 / 159)%float)) with t.
    reflexivity.
  - pose proof ln_argument_tight as [Hlo Hhi].
    apply Rabs_le. cbv [Z.ltb Z.compare Z.opp]. lra.
Qed.

(** The test: the estimator rebuilt from a 256-byte vector counts what
    [count] gives on the bytes. *)
Lemma count_vector_registers Math_log hex :
  length (Hll.registers_of_hex hex) = 256%nat ->
  exists s', Hll.count_vector Math_log hex empty_store
             = Normal (Hll.count_registers Math_log (Hll.registers_of_hex hex)) s'.
Proof.
  intros Hlen. unfold Hll.count_vector, bind, alloc_array.
  set (a := fresh (dom (arrays empty_store))).
  set (s0 := set_array empty_store a (Hll.registers_of_hex hex)).
  assert (Ha : array_of s0 a = Hll.registers_of_hex hex).
  { unfold s0. by rewrite array_of_set_array, decide_True by reflexivity. }
  assert (Halloc : allocated_array s0 a).
  { unfold allocated_array, s0, set_array. simpl. rewrite lookup_insert_eq. eauto. }
  rewrite newWithRegisters_valid_offset; [|lia|exact Halloc].
  rewrite decide_True by (by rewrite Ha).
  eexists. unfold Hll.count, gets.
  apply (f_equal2 Normal); [|reflexivity].
  apply (f_equal (Hll.count_registers Math_log)).
  unfold registers_of. rewrite object_of_set_array, object_of_set_object.
  rewrite decide_True by reflexivity. cbn [registers].
  rewrite array_of_set_array, decide_True by reflexivity. exact Ha.
Qed.

(** C3.  The estimator rebuilt from the first test vector counts exactly 121,
    provided the result of [Math.log] at the one argument it receives,
    [256 / 159], lies in the band from [121 / 256] to [122 / 256] that holds
    the logarithm; the estimator rebuilt from the second test vector counts
    exactly 15070, whatever [Math.log] is. *)
Theorem test_vectors (Math_log : float -> float) :
  Hll.accurate_log Math_log ->
  (exists s', Hll.count_vector Math_log Hll.vector_go empty_store
              = Normal 121%float s')
  /\ (exists s', Hll.count_vector Math_log Hll.vector_rust empty_store
                 = Normal 15070%float s').
Proof.
  intros Hlog. split.
  - destruct (count_vector_registers Math_log Hll.vector_go) as (s' & Hrun);
      [vm_compute; reflexivity|].
    exists s'. rewrite Hrun. apply (f_equal (fun x => Normal x s')).
    destruct Hlog as [Hlo Hhi].
    destruct (floor_in_band _ Hlo Hhi) as [Hle Hfloor].
    rewrite (count_registers_linear Math_log _ 159).
    + exact Hfloor.
    + vm_compute. reflexivity.
    + discriminate.
    + exact Hle.
  - destruct (count_vector_registers Math_log Hll.vector_rust) as (s' & Hrun);
      [vm_compute; reflexivity|].
    exists s'. rewrite Hrun. apply (f_equal (fun x => Normal x s')).
    rewrite count_registers_raw by (vm_compute; reflexivity).
    vm_compute. reflexivity.
Qed.

(** The series for the logarithm is accurate at [256 / 159]. *)
Lemma test_vectors_witness :
  exists s', Hll.count_vector Hll.ln_series Hll.vector_go empty_store
             = Normal 121%float s'.
Proof.
  apply (test_vectors Hll.ln_series).
  split; vm_compute; reflexivity.
Defined.

(** ** Hex keys *)

Lemma get_in (s : string) : forall n,
  (n < String.length s)%nat ->
  exists c, String.get n s = Some c /\ In c (list_ascii_of_string s).
Proof.
  induction s as [|a s IH]; intros n Hn; simpl in Hn; [lia|].
  destruct n as [|n]; simpl.
  - exists a. split; [reflexivity|]. by left.
  - destruct (IH n) as (c & Hc & Hin); [lia|].
    exists c. split; [exact Hc|]. by right.
Qed.

(** [parseInt(c, 16)] on a hex digit is the value of the digit. *)
Lemma parseInt16_digit c :
  Nip45.is_hex_digit c = true ->
  exists n, Nip45.parseInt16 (Some c) = Some n
            /\ Nip45.digit_value c = Some n /\ 0 <= n <= 15.
Proof.
  destruct c as [[] [] [] [] [] [] [] []]; intros H;
    try discriminate H; eexists; (split; [reflexivity|]);
    (split; [reflexivity|]); split; discriminate.
Qed.

(** A valid key has a hex digit at index 32. *)
Lemma valid_nibble v :
  Nip45.isValid32ByteHex (Some v) = true ->
  exists d n, String.get 32 v = Some d
              /\ Nip45.digit_value d = Some n /\ 0 <= n <= 15
              /\ Nip45.parseInt16 (String.get 32 v) = Some n.
Proof.
  unfold Nip45.isValid32ByteHex. intros H.
  apply andb_prop in H as [Hlen Hre]. apply Nat.eqb_eq in Hlen.
  destruct (get_in v 32) as (d & Hd & Hin); [lia|].
  assert (Hhex : Nip45.is_hex_digit d = true).
  { unfold Nip45.hex_regex_test in Hre. destruct v; [discriminate|].
    rewrite forallb_forall in Hre. by apply Hre. }
  destruct (parseInt16_digit d Hhex) as (n & Hp & Hv & Hn).
  exists d, n. by rewrite Hd.
Qed.

Lemma contribution_offset v :
  Nip45.isValid32ByteHex (Some v) = true ->
  exists d n, String.get 32 v = Some d
              /\ Nip45.digit_value d = Some n
              /\ Nip45.offset (Nip45.contribution v) = Some (n + 8)
              /\ 8 <= n + 8 <= 23.
Proof.
  intros Hv. destruct (valid_nibble v Hv) as (d & n & Hd & Hdv & Hn & Hp).
  exists d, n. unfold Nip45.contribution. simpl. rewrite Hp. simpl.
  repeat split; try assumption; lia.
Qed.

(** ** Events *)

Lemma find_skip {A} (f : A -> bool) (l1 : list A) x l2 :
  (forall u, In u l1 -> f u = false) -> f x = true ->
  List.find f (l1 ++ x :: l2) = Some x.
Proof.
  induction l1 as [|y l1 IH]; intros Hl1 Hx; simpl.
  - by rewrite Hx.
  - rewrite (Hl1 y) by (by left). apply IH; [|exact Hx].
    intros u Hu. apply Hl1. by right.
Qed.

Lemma find_none {A} (f : A -> bool) (l : list A) :
  (forall u, In u l -> f u = false) -> List.find f l = None.
Proof.
  induction l as [|y l IH]; intros Hl; simpl; [reflexivity|].
  rewrite (Hl y) by (by left). apply IH. intros u Hu. apply Hl. by right.
Qed.

(** Once a tag whose first element is [name] is selected, what is yielded is
    decided by its second element. *)
Lemma yield_second_selected name t :
  Nip45.first_is name t = true ->
  Nip45.yield_second (Some t)
  = match Nip45.selected name t with
    | Some v => [Nip45.contribution v]
    | None => []
    end.
Proof.
  unfold Nip45.first_is, Nip45.yield_second, Nip45.selected.
  destruct t as [|t0 [|v rest]]; simpl; try done.
  intros ->. simpl. by destruct (_ && _).
Qed.

Lemma follow_tag tag :
  (if (2 <=? length tag)%nat && Nip45.first_is "p" tag
      && Nip45.isValid32ByteHex (tag !! 1%nat)
   then match tag !! 1%nat with Some v => [Nip45.contribution v] | None => [] end
   else [])
  = match Nip45.selected "p" tag with
    | Some v => [Nip45.contribution v]
    | None => []
    end.
Proof.
  unfold Nip45.first_is, Nip45.selected.
  destruct tag as [|t0 [|v rest]]; try reflexivity.
  simpl. by destruct (_ && _).
Qed.

Lemma follows_selected tags :
  flat_map (fun tag =>
      if (2 <=? length tag)%nat && Nip45.first_is "p" tag
         && Nip45.isValid32ByteHex (tag !! 1%nat)
      then match tag !! 1%nat with Some v => [Nip45.contribution v] | None => [] end
      else []) tags
  = Nip45.contribution <$> omap (Nip45.selected "p") tags.
Proof.
  induction tags as [|tag tags IH]; [reflexivity|].
  cbn [flat_map omap list_omap]. rewrite IH, follow_tag.
  by destruct (Nip45.selected "p" tag).
Qed.

Lemma selected_valid name tag v :
  Nip45.selected name tag = Some v -> Nip45.isValid32ByteHex (Some v) = true.
Proof.
  unfold Nip45.selected. destruct tag as [|t0 [|w rest]]; try discriminate.
  destruct (bool_decide _); cbn [andb]; [|discriminate].
  destruct (Nip45.isValid32ByteHex (Some w)) eqn:E; [|discriminate].
  by intros [= <-].
Qed.

Lemma yield_second_valid t c :
  In c (Nip45.yield_second t) ->
  exists v, c = Nip45.contribution v /\ Nip45.isValid32ByteHex (Some v) = true.
Proof.
  unfold Nip45.yield_second. destruct t as [t|]; [|done].
  destruct (t !! 1%nat) as [v|]; [|done].
  destruct (Nip45.isValid32ByteHex (Some v)) eqn:E; [|done].
  intros [<-|[]]. by exists v.
Qed.

Lemma parseInt16_digit_value d :
  Nip45.parseInt16 (Some d) = Nip45.digit_value d
  /\ Nip45.is_hex_digit d = bool_decide (is_Some (Nip45.digit_value d)).
Proof. destruct d as [[] [] [] [] [] [] [] []]; split; vm_compute; reflexivity. Qed.

Lemma contribution_pair v : Nip45.contribution v = reference_pair v.
Proof.
  unfold Nip45.contribution, reference_pair. f_equal.
  destruct (String.get 32 v) as [d|]; [|reflexivity].
  rewrite (proj1 (parseInt16_digit_value d)).
  by destruct (Nip45.digit_value d).
Qed.

Lemma valid_hex_key v : Nip45.isValid32ByteHex (Some v) = hex_key v.
Proof.
  unfold Nip45.isValid32ByteHex, hex_key.
  destruct (Nat.eqb_spec (String.length v) 64) as [Hlen|]; [|reflexivity].
  cbn [andb]. destruct v as [|a v]; [discriminate|].
  unfold Nip45.hex_regex_test.
  generalize (list_ascii_of_string (String a v)). intros l.
  induction l as [|c l IH]; [reflexivity|].
  cbn [forallb]. by rewrite IH, (proj2 (parseInt16_digit_value c)).
Qed.

Lemma selected_referenced name tag : Nip45.selected name tag = referenced name tag.
Proof.
  unfold Nip45.selected, referenced.
  destruct tag as [|t0 [|v tag]]; try reflexivity. by rewrite valid_hex_key.
Qed.

Lemma first_is_head name t :
  Nip45.first_is name t = bool_decide (head t = Some name).
Proof.
  unfold Nip45.first_is. destruct t as [|x t]; [reflexivity|]. simpl.
  destruct (decide (x = name)) as [->|Hne].
  - by rewrite !bool_decide_eq_true_2.
  - rewrite !bool_decide_eq_false_2; [done|congruence|done].
Qed.

Lemma referenced_tag name tag v :
  referenced name tag = Some v ->
  head tag = Some name /\ tag !! 1%nat = Some v /\ hex_key v = true.
Proof.
  unfold referenced. destruct tag as [|t0 [|v' tag]]; try discriminate.
  destruct (bool_decide_reflect (t0 = name)) as [->|]; [|discriminate].
  destruct (hex_key v') eqn:Hkey; [|discriminate]. cbn [andb].
  intros [= ->]. by repeat split.
Qed.

(** A yielded pair comes from a tag of the event. *)
Lemma yielded_from_tag evt c :
  In c (Nip45.getEventPubkeyOffsetsAndReferences evt) ->
  exists name tag v,
    (Nip45.kind evt = 3 /\ name = "p"%string
     \/ Nip45.kind evt = 7 /\ name = "e"%string
     \/ Nip45.kind evt = 1111 /\ name = "E"%string)
    /\ In tag (Nip45.tags evt) /\ referenced name tag = Some v
    /\ c = reference_pair v.
Proof.
  unfold Nip45.getEventPubkeyOffsetsAndReferences.
  assert (Hfound : forall name l t,
            List.find (Nip45.first_is name) l = Some t ->
            In c (Nip45.yield_second (Some t)) ->
            In t l /\ exists v, referenced name t = Some v /\ c = reference_pair v).
  { intros name l t Hfind Hc. apply find_some in Hfind as [Hin Hfirst].
    split; [exact Hin|].
    rewrite (yield_second_selected name t Hfirst), selected_referenced in Hc.
    destruct (referenced name t) as [v|]; [|destruct Hc].
    destruct Hc as [<-|[]]. exists v. by rewrite contribution_pair. }
  destruct (Z.eqb_spec (Nip45.kind evt) 3) as [H3|H3].
  - rewrite follows_selected. intros Hc.
    apply list_elem_of_In, list_elem_of_fmap in Hc as (v & -> & Hv).
    apply list_elem_of_omap in Hv as (tag & Htag & Hsel).
    exists "p"%string, tag, v. split; [by left|].
    split; [by apply list_elem_of_In|].
    split; [by rewrite <- selected_referenced|apply contribution_pair].
  - destruct (Z.eqb_spec (Nip45.kind evt) 7) as [H7|H7].
    + destruct (List.find _ _) as [t|] eqn:Hfind; [|intros []].
      intros Hc. destruct (Hfound _ _ _ Hfind Hc) as (Hin & v & Hv & ->).
      exists "e"%string, t, v. split; [by right; left|].
      split; [by apply in_rev|done].
    + destruct (Z.eqb_spec (Nip45.kind evt) 1111) as [H1111|H1111]; [|intros []].
      destruct (List.find _ _) as [t|] eqn:Hfind; [|intros []].
      intros Hc. destruct (Hfound _ _ _ Hfind Hc) as (Hin & v & Hv & ->).
      exists "E"%string, t, v. split; [by right; right|done].
Qed.

(** C6.  What [getEventPubkeyOffsetsAndReferences] yields: for kind 3, one
    pair per tag whose first element is ["p"] and whose second element is a
    key of 64 hexadecimal digits, in tag order; for kind 7, what the last tag
    whose first element is ["e"] gives (one pair if its second element is
    such a key, nothing otherwise, whatever the earlier tags are), and
    nothing when there is no such tag; for kind 1111, the same with the first
    tag whose first element is ["E"]; nothing for any other kind.  The
    reference of every yielded pair is the second element of the tag it
    comes from, and its offset is the value of the hexadecimal digit at
    index 32 of that reference plus 8, from 8 to 23. *)
Theorem event_contributions (evt : Nip45.Event) :
  let yielded := Nip45.getEventPubkeyOffsetsAndReferences evt in
  let tags := Nip45.tags evt in
  let one (name : string) (t : list string) :=
    match referenced name t with
    | Some v => [reference_pair v]
    | None => []
    end in
  (Nip45.kind evt = 3 ->
     yielded = reference_pair <$> omap (referenced "p") tags)
  /\ (Nip45.kind evt = 7 ->
       (forall pre t post, tags = pre ++ t :: post ->
          head t = Some "e"%string ->
          (forall u, In u post -> head u <> Some "e"%string) ->
          yielded = one "e"%string t)
       /\ ((forall u, In u tags -> head u <> Some "e"%string) -> yielded = []))
  /\ (Nip45.kind evt = 1111 ->
       (forall pre t post, tags = pre ++ t :: post ->
          head t = Some "E"%string ->
          (forall u, In u pre -> head u <> Some "E"%string) ->
          yielded = one "E"%string t)
       /\ ((forall u, In u tags -> head u <> Some "E"%string) -> yielded = []))
  /\ (Nip45.kind evt <> 3 -> Nip45.kind evt <> 7 -> Nip45.kind evt <> 1111 ->
       yielded = [])
  /\ (forall c, In c yielded ->
        exists name tag d n,
          (Nip45.kind evt = 3 /\ name = "p"%string
           \/ Nip45.kind evt = 7 /\ name = "e"%string
           \/ Nip45.kind evt = 1111 /\ name = "E"%string)
          /\ In tag tags
          /\ tag !! 0%nat = Some name
          /\ tag !! 1%nat = Some (Nip45.reference c)
          /\ String.length (Nip45.reference c) = 64%nat
          /\ String.get 32 (Nip45.reference c) = Some d
          /\ Nip45.digit_value d = Some n
          /\ Nip45.offset c = Some (n + 8)
          /\ 8 <= n + 8 <= 23).
Proof.
  intros yielded tags one.
  assert (Htrue : forall name t, head t = Some name -> Nip45.first_is name t = true).
  { intros name t Ht. rewrite first_is_head. by apply bool_decide_eq_true_2. }
  assert (Hfalse : forall name t, head t <> Some name -> Nip45.first_is name t = false).
  { intros name t Ht. rewrite first_is_head. by apply bool_decide_eq_false_2. }
  assert (Hone : forall name t, Nip45.first_is name t = true ->
                   Nip45.yield_second (Some t) = one name t).
  { intros name t Ht. rewrite (yield_second_selected name t Ht), selected_referenced.
    unfold one. destruct (referenced name t); [|reflexivity].
    by rewrite contribution_pair. }
  split; [|split; [|split; [|split]]].
  - intros H3. unfold yielded, Nip45.getEventPubkeyOffsetsAndReferences.
    rewrite H3. cbn [Z.eqb Pos.eqb]. rewrite follows_selected. fold tags.
    induction tags as [|tag l IH]; [reflexivity|].
    cbn [omap list_omap]. rewrite selected_referenced.
    destruct (referenced "p" tag); cbn [fmap list_fmap];
      [rewrite contribution_pair; f_equal|]; exact IH.
  - intros H7. unfold yielded, Nip45.getEventPubkeyOffsetsAndReferences.
    rewrite H7. cbn [Z.eqb Pos.eqb]. fold tags. split.
    + intros pre t post Htags Ht Hpost. rewrite Htags.
      rewrite rev_app_distr. simpl. rewrite <- app_assoc. simpl.
      rewrite find_skip; [by apply Hone, Htrue| |by apply Htrue].
      intros u Hu. apply Hfalse, Hpost. by apply in_rev.
    + intros Hnone. rewrite find_none; [reflexivity|].
      intros u Hu. apply Hfalse, Hnone. by apply in_rev.
  - intros H1111. unfold yielded, Nip45.getEventPubkeyOffsetsAndReferences.
    rewrite H1111. cbn [Z.eqb Pos.eqb]. fold tags. split.
    + intros pre t post Htags Ht Hpre. rewrite Htags.
      rewrite find_skip; [by apply Hone, Htrue| |by apply Htrue].
      intros u Hu. by apply Hfalse, Hpre.
    + intros Hnone. rewrite find_none; [reflexivity|].
      intros u Hu. by apply Hfalse, Hnone.
  - intros H3 H7 H1111. unfold yielded, Nip45.getEventPubkeyOffsetsAndReferences.
    destruct (Z.eqb_spec (Nip45.kind evt) 3); [done|].
    destruct (Z.eqb_spec (Nip45.kind evt) 7); [done|].
    by destruct (Z.eqb_spec (Nip45.kind evt) 1111).
  - intros c Hc.
    destruct (yielded_from_tag evt c Hc) as (name & tag & v & Hkind & Hin & Href & ->).
    destruct (referenced_tag _ _ _ Href) as (Hhead & Hsecond & Hkey).
    assert (Hvalid : Nip45.isValid32ByteHex (Some v) = true) by (by rewrite valid_hex_key).
    destruct (valid_nibble v Hvalid) as (d & n & Hd & Hdv & Hn & _).
    exists name, tag, d, n. cbn [Nip45.reference Nip45.offset reference_pair].
    split; [exact Hkind|]. split; [exact Hin|].
    split; [by destruct tag|]. split; [exact Hsecond|].
    split; [|split; [exact Hd|split; [exact Hdv|]]].
    + unfold hex_key in Hkey. apply andb_true_iff in Hkey as [Hlen _].
      by apply Nat.eqb_eq.
    + rewrite Hd, Hdv. split; [reflexivity|lia].
Qed.

(** A reaction with two ["e"] tags yields the last one only. *)
Lemma event_contributions_witness :
  Nip45.getEventPubkeyOffsetsAndReferences Nip45.reaction
  = [Nip45.mkContribution Nip45.hex_b (Some 19)].
Proof.
  destruct (event_contributions Nip45.reaction) as (_ & H7 & _).
  destruct (H7 eq_refl) as [Hlast _].
  rewrite (Hlast [["e"; Nip45.hex_1]]%string ["e"; Nip45.hex_b]%string
             [["p"; Nip45.hex_1]]%string).
  - vm_compute. reflexivity.
  - reflexivity.
  - reflexivity.
  - intros u [<-|[]]. discriminate.
Defined.

(** ** Filters *)

Lemma singleton_of_NoDup {A} (l : list A) (x : A) :
  List.NoDup l -> (forall y, In y l <-> y = x) -> l = [x].
Proof.
  intros Hnd Hin. destruct l as [|y l].
  - exfalso. by apply (proj2 (Hin x)).
  - assert (y = x) as -> by (apply Hin; by left).
    destruct l as [|z l]; [reflexivity|]. exfalso.
    assert (z = x) as -> by (apply Hin; right; by left).
    apply List.NoDup_cons_iff in Hnd as [Hnotin _]. apply Hnotin. by left.
Qed.

(** The tag selectors of a filter: each once, and exactly the own property
    names that start with [#]. *)
Lemma tagKeys_NoDup filter : List.NoDup (Nip45.tagKeys filter).
Proof.
  unfold Nip45.tagKeys. apply List.NoDup_filter, NoDup_ListNoDup.
  apply (NoDup_fst_map_to_list (Nip45.props filter)).
Qed.

Lemma tagKeys_In filter k :
  In k (Nip45.tagKeys filter)
  <-> is_Some (Nip45.props filter !! k) /\ String.prefix "#" k = true.
Proof.
  unfold Nip45.tagKeys. rewrite filter_In.
  assert (In k (map fst (map_to_list (Nip45.props filter)))
          <-> is_Some (Nip45.props filter !! k)) as ->; [|reflexivity].
  rewrite <- list_elem_of_In, list_elem_of_fmap. split.
  - intros ([k' x] & -> & Hkx). apply elem_of_map_to_list in Hkx. eauto.
  - intros [x Hx]. exists (k, x). split; [reflexivity|].
    by apply elem_of_map_to_list.
Qed.

Lemma tagKeys_single filter tagKey :
  Nip45.tagKeys filter = [tagKey]
  <-> (forall k, is_Some (Nip45.props filter !! k) /\ String.prefix "#" k = true
                 <-> k = tagKey).
Proof.
  split.
  - intros Hkeys k. rewrite <- tagKeys_In, Hkeys. simpl. split.
    + intros [->|[]]. reflexivity.
    + intros ->. by left.
  - intros Hone. apply singleton_of_NoDup; [apply tagKeys_NoDup|].
    intros k. by rewrite tagKeys_In.
Qed.

Lemma non_empty_false {A} (a : option (list A)) :
  Nip45.non_empty a = false <-> Nip45.absent_or_empty a.
Proof.
  unfold Nip45.non_empty, Nip45.absent_or_empty.
  destruct a as [[|x l]|]; simpl; split; intros H; try done; auto;
    destruct H as [H|H]; discriminate H.
Qed.

Lemma truthy_number_false n :
  Nip45.truthy_number n = false <-> Nip45.absent_or_zero n.
Proof.
  unfold Nip45.truthy_number, Nip45.absent_or_zero.
  destruct n as [n|]; [|split; auto].
  destruct (Z.eqb_spec n 0) as [->|Hn]; simpl; split; intros H; auto;
    try discriminate H.
  destruct H as [H|H]; [discriminate H|]. congruence.
Qed.

Lemma truthy_string_false x :
  Nip45.truthy_string x = false <-> Nip45.absent_or_blank x.
Proof.
  unfold Nip45.truthy_string, Nip45.absent_or_blank.
  destruct x as [x|]; [|split; auto].
  destruct (String.eqb_spec x "") as [->|Hx]; simpl; split; intros H; auto;
    try discriminate H.
  destruct H as [H|H]; [discriminate H|]. congruence.
Qed.

(** The last test of [getFilterPubkeyOffset], on the selector and the kind. *)
Lemma supported_chain tagKey kind (answer : Z) :
  (if String.eqb tagKey "#p" then if kind =? 3 then answer else -1
   else if String.eqb tagKey "#e" then if kind =? 7 then answer else -1
   else if String.eqb tagKey "#E" then if kind =? 1111 then answer else -1
   else -1)
  = if bool_decide (Nip45.supported tagKey kind) then answer else -1.
Proof.
  unfold Nip45.supported.
  destruct (String.eqb_spec tagKey "#p") as [->|Hp].
  { destruct (Z.eqb_spec kind 3) as [->|Hk].
    - rewrite bool_decide_eq_true_2; [reflexivity|]. by left.
    - rewrite bool_decide_eq_false_2; [reflexivity|].
      intros [[_ ?]|[[? _]|[? _]]]; done. }
  destruct (String.eqb_spec tagKey "#e") as [->|He].
  { destruct (Z.eqb_spec kind 7) as [->|Hk].
    - rewrite bool_decide_eq_true_2; [reflexivity|]. right. by left.
    - rewrite bool_decide_eq_false_2; [reflexivity|].
      intros [[? _]|[[_ ?]|[? _]]]; done. }
  destruct (String.eqb_spec tagKey "#E") as [->|HE].
  { destruct (Z.eqb_spec kind 1111) as [->|Hk].
    - rewrite bool_decide_eq_true_2; [reflexivity|]. right. by right.
    - rewrite bool_decide_eq_false_2; [reflexivity|].
      intros [[? _]|[[? _]|[_ ?]]]; done. }
  rewrite bool_decide_eq_false_2; [reflexivity|].
  intros [[? _]|[[? _]|[? _]]]; done.
Qed.

(** An eligible filter yields the nibble offset. *)
Lemma eligible_offset filter tagKey kind v :
  Nip45.eligible filter tagKey kind v ->
  exists d n, String.get 32 v = Some d /\ Nip45.digit_value d = Some n
              /\ Nip45.getFilterPubkeyOffset filter = n + 8.
Proof.
  intros (Hids & Hauthors & Hsince & Huntil & Hsearch & Hkinds & Hone & Hprop
          & Hvalid & Hsupp).
  destruct (valid_nibble v Hvalid) as (d & n & Hd & Hdv & Hn & Hp).
  exists d, n. split; [exact Hd|]. split; [exact Hdv|].
  unfold Nip45.getFilterPubkeyOffset.
  rewrite (proj2 (non_empty_false _) Hids), (proj2 (non_empty_false _) Hauthors).
  rewrite (proj2 (truthy_number_false _) Hsince).
  rewrite (proj2 (truthy_number_false _) Huntil).
  rewrite (proj2 (truthy_string_false _) Hsearch).
  rewrite Hkinds, (proj2 (tagKeys_single filter tagKey) Hone), Hprop, Hvalid.
  cbn [negb]. rewrite Hp, supported_chain.
  by rewrite bool_decide_eq_true_2.
Qed.

(** A filter that yields an offset is eligible. *)
Lemma offset_eligible filter :
  Nip45.getFilterPubkeyOffset filter <> -1 ->
  exists tagKey kind v, Nip45.eligible filter tagKey kind v.
Proof.
  unfold Nip45.getFilterPubkeyOffset. intros H.
  destruct (Nip45.non_empty (Nip45.ids filter)) eqn:Hids; [done|].
  destruct (Nip45.non_empty (Nip45.authors filter)) eqn:Hauthors; [done|].
  destruct (Nip45.truthy_number (Nip45.since filter)) eqn:Hsince; [done|].
  destruct (Nip45.truthy_number (Nip45.until filter)) eqn:Huntil; [done|].
  destruct (Nip45.truthy_string (Nip45.search filter)) eqn:Hsearch; [done|].
  destruct (Nip45.kinds filter) as [[|kind [|? ?]]|] eqn:Hkinds; try done.
  destruct (Nip45.tagKeys filter) as [|tagKey [|? ?]] eqn:Hkeys; try done.
  destruct (Nip45.props filter !! tagKey) as [[|v [|? ?]]|] eqn:Hprop; try done.
  destruct (Nip45.isValid32ByteHex (Some v)) eqn:Hvalid; [|done].
  cbn [negb] in H. rewrite supported_chain in H.
  destruct (bool_decide (Nip45.supported tagKey kind)) eqn:Hsupp; [|done].
  exists tagKey, kind, v.
  split; [by apply non_empty_false|]. split; [by apply non_empty_false|].
  split; [by apply truthy_number_false|]. split; [by apply truthy_number_false|].
  split; [by apply truthy_string_false|]. split; [exact Hkinds|].
  split; [by apply tagKeys_single|]. split; [exact Hprop|].
  split; [exact Hvalid|]. by apply bool_decide_eq_true_1 in Hsupp.
Qed.

(** C5.  [getFilterPubkeyOffset] returns -1 unless the filter is eligible:
    no ids, no authors, no since, no until, no search, exactly one kind,
    exactly one own property whose name starts with [#], whose value is a
    list of exactly one valid hex key, and a supported pair of selector and
    kind.  For an eligible filter it returns the value of the hex digit at
    index 32 of that key plus 8.  It is a total function of the filter: none
    of its reads can fail. *)
Theorem filter_offset (filter : Nip45.Filter) :
  (forall tagKey kind v,
     Nip45.eligible filter tagKey kind v ->
     exists d n, String.get 32 v = Some d /\ Nip45.digit_value d = Some n
                 /\ Nip45.getFilterPubkeyOffset filter = n + 8)
  /\ (~ (exists tagKey kind v, Nip45.eligible filter tagKey kind v) ->
      Nip45.getFilterPubkeyOffset filter = -1)
  /\ (Nip45.getFilterPubkeyOffset filter = -1
      \/ 8 <= Nip45.getFilterPubkeyOffset filter <= 23).
Proof.
  split; [|split].
  - intros tagKey kind v. apply eligible_offset.
  - intros Hnot. destruct (Z.eq_dec (Nip45.getFilterPubkeyOffset filter) (-1))
      as [H|H]; [exact H|].
    exfalso. apply Hnot. by apply offset_eligible.
  - destruct (Z.eq_dec (Nip45.getFilterPubkeyOffset filter) (-1)) as [H|H];
      [by left|right].
    destruct (offset_eligible filter H) as (tagKey & kind & v & Hel).
    pose proof Hel as (_ & _ & _ & _ & _ & _ & _ & _ & Hvalid & _).
    destruct (valid_nibble v Hvalid) as (d & n & Hd & Hdv & Hn & _).
    destruct (eligible_offset filter tagKey kind v Hel)
      as (d' & n' & Hd' & Hdv' & ->).
    assert (n' = n) as -> by congruence. lia.
Qed.

(** The filter [{ kinds: [3], '#p': [hex_a] }] has offset 10 + 8. *)
Lemma filter_offset_witness :
  Nip45.getFilterPubkeyOffset Nip45.follower_filter = 18.
Proof.
  destruct (filter_offset Nip45.follower_filter) as (Hel & _).
  destruct (Hel "#p"%string 3 Nip45.hex_a) as (d & n & Hd & Hdv & ->).
  - unfold Nip45.eligible.
    do 5 (split; [by left|]). split; [reflexivity|]. split.
    { intros k. unfold Nip45.follower_filter. cbn [Nip45.props]. split.
      - intros [Hsome Hpre].
        destruct (decide (k = "#p"%string)) as [->|Hne]; [reflexivity|].
        rewrite lookup_singleton_ne in Hsome by done. by destruct Hsome.
      - intros ->. rewrite lookup_singleton_eq. split; [eauto|reflexivity]. }
    split; [apply lookup_singleton_eq|].
    split; [vm_compute; reflexivity|]. by left.
  - vm_compute in Hd. injection Hd as <-.
    vm_compute in Hdv. injection Hdv as <-. reflexivity.
Defined.

(** * Further properties *)

(** ** Sequences of updates *)

Lemma rank_bounds off key : 1 <= rank off key <= 57.
Proof. unfold rank. pose proof (lz_bounds 56 (big_endian (window off key))). lia. Qed.

Lemma window_first off key :
  0 <= off -> usable_key off key ->
  exists j, window off key !! 0%nat = Some j /\ is_byte j
            /\ bucket off key = Z.to_nat j /\ (bucket off key < 256)%nat.
Proof.
  intros Hoff [Hlen Hbytes]. unfold bucket, window.
  destruct (take 8 (drop (Z.to_nat off) key) !! 0%nat) as [j|] eqn:Hj.
  - assert (Hb : is_byte j).
    { apply (proj1 (Forall_lookup _ _) (Forall_take _ _ _ (Forall_drop _ _ _ Hbytes)) _ _ Hj). }
    exists j. repeat split; try apply Hb. simpl. destruct Hb. lia.
  - apply lookup_ge_None_1 in Hj. rewrite length_take, length_drop in Hj. lia.
Qed.

(** One [add] of a usable key raises the register of its bucket to its rank
    and writes nothing else. *)
Lemma add_effect s this pubkey :
  let hll := object_of s this in
  let key := array_of s pubkey in
  let regs := registers_of s this in
  0 <= offset hll -> usable_key (offset hll) key ->
  (bucket (offset hll) key < length regs)%nat ->
  exists s', Hll.add this pubkey s = Normal tt s'
    /\ writes_only (registers hll)
         (alter (Z.max (rank (offset hll) key)) (bucket (offset hll) key) regs) s s'.
Proof.
  intros hll key regs Hoff Hkey Hlt.
  destruct (window_first _ _ Hoff Hkey) as (j & Hj & Hbyte & Hbucket & _).
  destruct Hkey as [Hlen Hbytes].
  pose proof (add_in_range s this pubkey Hoff Hlen Hbytes) as Hadd.
  cbv zeta in Hadd. fold hll key in Hadd.
  change (take 8 (drop (Z.to_nat (offset hll)) key)) with (window (offset hll) key) in Hadd.
  rewrite Hj in Hadd.
  replace (Hll.lz 56 (big_endian (window (offset hll) key)) + 1)
    with (rank (offset hll) key) in Hadd by (unfold rank; lia).
  pose proof (rank_bounds (offset hll) key) as Hrank.
  destruct (lookup_lt_is_Some_2 regs _ Hlt) as [old Hold].
  rewrite Hbucket in Hold.
  pose proof (elem_set_max regs j old (rank (offset hll) key)
                (proj1 Hbyte) Hold ltac:(lia)) as Hmax.
  fold regs in Hadd. unfold regs, registers_of in Hmax. fold hll in Hmax.
  assert (Halter : alter (Z.max (rank (offset hll) key)) (bucket (offset hll) key) regs
                   = <[Z.to_nat j := Z.max old (rank (offset hll) key)]> regs).
  { rewrite Hbucket. apply list_eq. intros i.
    destruct (decide (i = Z.to_nat j)) as [->|Hne].
    - rewrite list_lookup_alter_eq, list_lookup_insert_eq by (by eapply lookup_lt_Some).
      rewrite Hold. simpl. f_equal. lia.
    - by rewrite list_lookup_alter_ne, list_lookup_insert_ne by done. }
  rewrite Halter. unfold regs, registers_of. fold hll.
  destruct (js_gt _ _) eqn:Hgt; rewrite Hadd; eexists; (split; [reflexivity|]).
  - rewrite <- Hmax. repeat split; simpl.
    + by rewrite array_of_set_array, decide_True.
    + intros a' Hne. by rewrite array_of_set_array, decide_False.
  - rewrite <- Hmax. by repeat split.
Qed.

Lemma sketch_cons off key keys i :
  sketch off (key :: keys) i
  = if decide (bucket off key = i)
    then Z.max (rank off key) (sketch off keys i) else sketch off keys i.
Proof. unfold sketch. rewrite filter_cons. by destruct (decide _). Qed.

Lemma sketch_bounds off keys i : 0 <= sketch off keys i <= 57.
Proof.
  induction keys as [|key keys IH]; [by compute|].
  rewrite sketch_cons. pose proof (rank_bounds off key).
  destruct (decide _); lia.
Qed.

Lemma writes_only_trans a v v' s s' s'' :
  writes_only a v s s' -> writes_only a v' s' s'' -> writes_only a v' s s''.
Proof.
  intros (Ho & _ & Hf) (Ho' & Ha' & Hf'). repeat split.
  - by rewrite Ho'.
  - exact Ha'.
  - intros a' Hne. by rewrite Hf', Hf.
Qed.

Lemma keys_for_writes_only s s' this v keys :
  writes_only (registers (object_of s this)) v s s' ->
  keys_for s this keys ->
  keys_for s' this keys /\ array_of s' <$> keys = array_of s <$> keys.
Proof.
  intros Hw Hkeys. pose proof (writes_only_object_of _ _ _ _ this Hw) as Hobj.
  destruct Hw as (_ & _ & Hf). unfold keys_for. rewrite Hobj. split.
  - eapply Forall_impl; [exact Hkeys|]. intros k [Hne Hk]. split; [exact Hne|].
    by rewrite Hf.
  - apply Forall_fmap_ext_1. eapply Forall_impl; [exact Hkeys|].
    intros k [Hne _]. by apply Hf.
Qed.

Lemma with_sketch_nil off regs :
  Forall is_byte regs -> with_sketch off [] regs = regs.
Proof.
  intros Hb. apply list_eq. intros i. unfold with_sketch.
  rewrite list_lookup_imap. destruct (regs !! i) as [x|] eqn:Hx; [|done].
  simpl. f_equal. pose proof (proj1 (Forall_lookup _ _) Hb _ _ Hx) as [? ?].
  unfold sketch. simpl. lia.
Qed.

Lemma with_sketch_cons off key keys regs :
  with_sketch off keys (alter (Z.max (rank off key)) (bucket off key) regs)
  = with_sketch off (key :: keys) regs.
Proof.
  apply list_eq. intros i. unfold with_sketch. rewrite !list_lookup_imap.
  rewrite sketch_cons. destruct (decide (bucket off key = i)) as [<-|Hne].
  - rewrite list_lookup_alter_eq. destruct (regs !! _); [|done]. simpl. f_equal. lia.
  - by rewrite list_lookup_alter_ne.
Qed.

Lemma with_sketch_bytes off keys regs :
  Forall is_byte regs -> Forall is_byte (with_sketch off keys regs).
Proof.
  intros Hb. apply Forall_lookup. intros i x. unfold with_sketch.
  rewrite list_lookup_imap_Some. intros (y & Hy & ->).
  pose proof (proj1 (Forall_lookup _ _) Hb _ _ Hy) as [? ?].
  pose proof (sketch_bounds off keys i). unfold is_byte. lia.
Qed.

Lemma with_sketch_length off keys regs :
  length (with_sketch off keys regs) = length regs.
Proof. apply length_imap. Qed.

(** A sequence of [add]s leaves the registers with the sketch of the keys
    added, and writes nothing else. *)
Lemma add_each_spec this keys : forall s,
  0 <= offset (object_of s this) ->
  length (registers_of s this) = 256%nat ->
  Forall is_byte (registers_of s this) ->
  keys_for s this keys ->
  exists s', add_each this keys s = Normal tt s'
    /\ writes_only (registers (object_of s this))
         (with_sketch (offset (object_of s this)) (array_of s <$> keys)
            (registers_of s this)) s s'.
Proof.
  induction keys as [|k keys IH]; intros s Hoff Hlen Hbytes Hkeys.
  - exists s. split; [reflexivity|]. rewrite with_sketch_nil by done.
    by repeat split.
  - apply Forall_cons in Hkeys as [[Hne Hk] Hkeys].
    destruct (window_first _ _ Hoff Hk) as (j & _ & _ & _ & Hlt).
    destruct (add_effect s this k Hoff Hk) as (s1 & Hadd & Hw); [lia|].
    pose proof (writes_only_object_of _ _ _ _ this Hw) as Hobj.
    pose proof (writes_only_registers_of _ _ _ _ this Hw) as Hregs.
    rewrite decide_True in Hregs by done.
    destruct (keys_for_writes_only _ _ _ _ _ Hw Hkeys) as [Hkeys1 Hmap].
    destruct (IH s1) as (s' & Hrun & Hw').
    + by rewrite Hobj.
    + by rewrite Hregs, length_alter.
    + rewrite Hregs. apply Forall_alter; [done|]. intros x _ [? ?].
      pose proof (rank_bounds (offset (object_of s this)) (array_of s k)).
      unfold is_byte. lia.
    + exact Hkeys1.
    + exists s'. split.
      * simpl. unfold bind. by rewrite Hadd.
      * rewrite Hobj, Hregs, Hmap, with_sketch_cons in Hw'.
        rewrite fmap_cons. eapply writes_only_trans; [exact Hw|exact Hw'].
Qed.


Lemma foldr_max_spec (l : list Z) :
  0 <= foldr Z.max 0 l
  /\ (forall x, x ∈ l -> x <= foldr Z.max 0 l)
  /\ (foldr Z.max 0 l = 0 \/ foldr Z.max 0 l ∈ l).
Proof.
  induction l as [|y l (Hpos & Hub & Hin)]; simpl.
  - split; [lia|]. split; [|by left]. intros x Hx. by apply elem_of_nil in Hx.
  - split; [lia|]. split.
    + intros x [->|Hx]%elem_of_cons; [lia|]. specialize (Hub x Hx). lia.
    + destruct (Z.max_spec y (foldr Z.max 0 l)) as [[_ ->]|[_ ->]].
      * destruct Hin as [Hin|Hin]; [by left|]. right. by apply elem_of_cons; right.
      * right. by apply elem_of_cons; left.
Qed.

Lemma foldr_max_ext (l1 l2 : list Z) :
  (forall x, x ∈ l1 <-> x ∈ l2) -> foldr Z.max 0 l1 = foldr Z.max 0 l2.
Proof.
  intros Hset.
  destruct (foldr_max_spec l1) as (Hp1 & Hub1 & Hin1).
  destruct (foldr_max_spec l2) as (Hp2 & Hub2 & Hin2).
  assert (foldr Z.max 0 l1 <= foldr Z.max 0 l2).
  { destruct Hin1 as [->|Hin1]; [done|]. by apply Hub2, Hset. }
  assert (foldr Z.max 0 l2 <= foldr Z.max 0 l1).
  { destruct Hin2 as [->|Hin2]; [done|]. by apply Hub1, Hset. }
  lia.
Qed.

Lemma sketch_ext off keys1 keys2 i :
  (forall key, key ∈ keys1 <-> key ∈ keys2) ->
  sketch off keys1 i = sketch off keys2 i.
Proof.
  intros Hset. apply foldr_max_ext. intros x.
  rewrite !list_elem_of_fmap. split; intros (key & -> & Hkey); exists key;
    (split; [done|]); apply list_elem_of_filter in Hkey as [Hb Hkey];
    apply list_elem_of_filter; (split; [done|]); by apply Hset.
Qed.

Lemma sketch_app off keys1 keys2 i :
  sketch off (keys1 ++ keys2) i = Z.max (sketch off keys1 i) (sketch off keys2 i).
Proof.
  induction keys1 as [|key keys1 IH].
  - pose proof (sketch_bounds off keys2 i). change (sketch off [] i) with 0. simpl. lia.
  - rewrite <- app_comm_cons, !sketch_cons, IH. destruct (decide _); lia.
Qed.

(** X1.  A loop of [add]s over usable keys returns normally and leaves in
    register [i] the larger of its old value and the largest rank among the
    keys whose first window byte is [i]; the register buffer keeps its length
    and nothing else is written. *)
Theorem add_each_sketch (s : store) (this : loc) (keys : list loc) :
  let off := offset (object_of s this) in
  let regs := registers_of s this in
  0 <= off -> length regs = 256%nat -> Forall is_byte regs ->
  keys_for s this keys ->
  exists s',
    add_each this keys s = Normal tt s'
    /\ (forall i old, regs !! i = Some old ->
          0 <= sketch off (array_of s <$> keys) i <= 57
          /\ registers_of s' this !! i
             = Some (Z.max old (sketch off (array_of s <$> keys) i)))
    /\ length (registers_of s' this) = 256%nat
    /\ objects s' = objects s
    /\ (forall a, a <> registers (object_of s this) -> array_of s' a = array_of s a).
Proof.
  intros off regs Hoff Hlen Hbytes Hkeys.
  destruct (add_each_spec this keys s Hoff Hlen Hbytes Hkeys) as (s' & Hrun & Hw).
  pose proof (writes_only_registers_of _ _ _ _ this Hw) as Hregs.
  rewrite decide_True in Hregs by done.
  destruct Hw as (Hobj & _ & Hframe).
  exists s'. split; [exact Hrun|]. split; [|split; [|by split]].
  - intros i old Hold. split; [apply sketch_bounds|].
    rewrite Hregs. unfold with_sketch. rewrite list_lookup_imap.
    fold regs. by rewrite Hold.
  - by rewrite Hregs, with_sketch_length.
Qed.

(** X2.  The registers after a loop of [add]s depend only on the set of keys
    added: two loops over the same keys, in any order and with any
    repetitions, leave the same registers. *)
Theorem add_each_set_determined (s : store) (this : loc) (keys1 keys2 : list loc) :
  0 <= offset (object_of s this) ->
  length (registers_of s this) = 256%nat -> Forall is_byte (registers_of s this) ->
  keys_for s this keys1 -> keys_for s this keys2 ->
  (forall key, key ∈ array_of s <$> keys1 <-> key ∈ array_of s <$> keys2) ->
  exists s1 s2,
    add_each this keys1 s = Normal tt s1
    /\ add_each this keys2 s = Normal tt s2
    /\ registers_of s1 this = registers_of s2 this.
Proof.
  intros Hoff Hlen Hbytes Hkeys1 Hkeys2 Hset.
  destruct (add_each_spec this keys1 s Hoff Hlen Hbytes Hkeys1) as (s1 & Hrun1 & Hw1).
  destruct (add_each_spec this keys2 s Hoff Hlen Hbytes Hkeys2) as (s2 & Hrun2 & Hw2).
  exists s1, s2. split; [exact Hrun1|]. split; [exact Hrun2|].
  rewrite (writes_only_registers_of _ _ _ _ this Hw1).
  rewrite (writes_only_registers_of _ _ _ _ this Hw2).
  rewrite !decide_True by done.
  apply imap_ext. intros i x _. f_equal. by apply sketch_ext.
Qed.

(** X3.  Merging gives the sketch of the union: when the keys [keys_a] are
    added to [a], the keys [keys_b] to an estimator [b] with the same offset
    whose registers were all zero, and [b] is then merged into [a], the
    registers of [a] are those that adding [keys_a] and [keys_b] to [a]
    itself leaves. *)
Theorem merge_is_union (s : store) (a b : loc) (keys_a keys_b : list loc) :
  0 <= offset (object_of s a) ->
  offset (object_of s b) = offset (object_of s a) ->
  registers (object_of s a) <> registers (object_of s b) ->
  length (registers_of s a) = 256%nat -> Forall is_byte (registers_of s a) ->
  registers_of s b = replicate 256 0 ->
  keys_for s a (keys_a ++ keys_b) -> keys_for s b (keys_a ++ keys_b) ->
  exists s1 s2,
    (add_each a keys_a ;; add_each b keys_b ;; Hll.merge a b) s = Normal tt s1
    /\ add_each a (keys_a ++ keys_b) s = Normal tt s2
    /\ registers_of s1 a = registers_of s2 a.
Proof.
  intros Hoff Hsame Hdiff Hlen Hbytes Hzero Hka Hkb.
  set (off := offset (object_of s a)) in *.
  set (Ra := registers (object_of s a)) in *.
  set (Rb := registers (object_of s b)) in *.
  destruct (add_each_spec a _ s Hoff Hlen Hbytes Hka) as (s2 & Hrun2 & Hw2).
  apply Forall_app in Hka as [Hka_a Hka_b]. apply Forall_app in Hkb as [_ Hkb_b].
  destruct (add_each_spec a _ s Hoff Hlen Hbytes Hka_a) as (sa & Hruna & Hwa).
  fold off Ra in Hw2, Hwa.
  pose proof (writes_only_object_of _ _ _ _ a Hwa) as Hobja.
  pose proof (writes_only_object_of _ _ _ _ b Hwa) as Hobjb.
  assert (Hregsb : registers_of sa b = replicate 256 0).
  { rewrite (writes_only_registers_of _ _ _ _ b Hwa), decide_False; [done|].
    fold Rb. congruence. }
  assert (Hkb' : keys_for sa b keys_b /\ array_of sa <$> keys_b = array_of s <$> keys_b).
  { destruct Hwa as (_ & _ & Hf). unfold keys_for. rewrite Hobjb. split.
    - apply Forall_forall. intros k Hk.
      destruct (proj1 (Forall_forall _ _) Hkb_b k Hk) as [Hne Hu].
      destruct (proj1 (Forall_forall _ _) Hka_b k Hk) as [Hne' _].
      split; [exact Hne|]. by rewrite Hf.
    - apply Forall_fmap_ext_1. eapply Forall_impl; [exact Hka_b|].
      intros k [Hne _]. by apply Hf. }
  destruct Hkb' as [Hkeysb Hmapb].
  destruct (add_each_spec b keys_b sa) as (sb & Hrunb & Hwb).
  { rewrite Hobjb, Hsame. exact Hoff. }
  { by rewrite Hregsb, length_replicate. }
  { rewrite Hregsb. apply Forall_replicate. unfold is_byte. lia. }
  { exact Hkeysb. }
  rewrite Hobjb, Hregsb, Hmapb, Hsame in Hwb. fold Rb off in Hwb.
  destruct (merge_spec a b sb) as (s1 & Hmerge & Hw1).
  assert (Hobja' : object_of sb a = object_of s a).
  { by rewrite (writes_only_object_of _ _ _ _ a Hwb). }
  assert (Hobjb' : object_of sb b = object_of s b).
  { by rewrite (writes_only_object_of _ _ _ _ b Hwb). }
  assert (HA : registers_of sb a = with_sketch off (array_of s <$> keys_a) (registers_of s a)).
  { unfold registers_of at 1. rewrite Hobja'. fold Ra.
    destruct Hwb as (_ & _ & Hf). rewrite Hf by done.
    by destruct Hwa as (_ & -> & _). }
  assert (HB : registers_of sb b = with_sketch off (array_of s <$> keys_b) (replicate 256 0)).
  { unfold registers_of at 1. rewrite Hobjb'. fold Rb. by destruct Hwb as (_ & -> & _). }
  exists s1, s2. split; [|split; [exact Hrun2|]].
  - unfold bind. by rewrite Hruna, Hrunb.
  - rewrite (writes_only_registers_of _ _ _ _ a Hw1), decide_True by done.
    rewrite (writes_only_registers_of _ _ _ _ a Hw2), decide_True by done.
    rewrite HA, HB, merge_arrays_zip.
    + apply list_eq. intros i. unfold with_sketch.
      rewrite zip_max_lookup, !list_lookup_imap, fmap_app, sketch_app.
      destruct (registers_of s a !! i) as [x|] eqn:Hx; [|done].
      apply lookup_lt_Some in Hx as Hi. rewrite Hlen in Hi.
      rewrite lookup_replicate_2 by done. simpl. f_equal.
      pose proof (sketch_bounds off (array_of s <$> keys_b) i). lia.
    + apply with_sketch_bytes, Forall_replicate. unfold is_byte. lia.
    + by rewrite !with_sketch_length, Hlen, length_replicate.
Qed.

Ltac solve_keys :=
  unfold keys_for;
  repeat (apply List.Forall_cons;
          [split; [vm_compute; discriminate
                  |split; [vm_compute; discriminate|solve_bytes]]|]);
  apply List.Forall_nil.

Lemma add_each_sketch_witness :
  exists s',
    add_each 1%positive [3; 4; 3]%positive two_estimators = Normal tt s'
    /\ registers_of s' 1%positive !! 5%nat = Some 6.
Proof.
  destruct (add_each_sketch two_estimators 1%positive [3; 4; 3]%positive)
    as (s' & Hrun & Hregs & _).
  - vm_compute. discriminate.
  - vm_compute. reflexivity.
  - solve_bytes.
  - solve_keys.
  - exists s'. split; [exact Hrun|].
    destruct (Hregs 5%nat 0) as [_ ->]; [vm_compute; reflexivity|].
    vm_compute. reflexivity.
Defined.

Lemma add_each_set_determined_witness :
  exists s1 s2,
    add_each 1%positive [3; 4; 3]%positive two_estimators = Normal tt s1
    /\ add_each 1%positive [4; 3]%positive two_estimators = Normal tt s2
    /\ registers_of s1 1%positive = registers_of s2 1%positive.
Proof.
  apply add_each_set_determined.
  - vm_compute. discriminate.
  - vm_compute. reflexivity.
  - solve_bytes.
  - solve_keys.
  - solve_keys.
  - intros key. cbn [fmap list_fmap]. rewrite !elem_of_cons, !elem_of_nil. tauto.
Defined.

Lemma merge_is_union_witness :
  exists s1 s2,
    (add_each 1%positive [3]%positive ;; add_each 2%positive [4; 5]%positive ;;
     Hll.merge 1%positive 2%positive) two_estimators = Normal tt s1
    /\ add_each 1%positive [3; 4; 5]%positive two_estimators = Normal tt s2
    /\ registers_of s1 1%positive = registers_of s2 1%positive.
Proof.
  apply (merge_is_union two_estimators 1%positive 2%positive
           [3]%positive [4; 5]%positive).
  - vm_compute. discriminate.
  - vm_compute. reflexivity.
  - vm_compute. discriminate.
  - vm_compute. reflexivity.
  - solve_bytes.
  - vm_compute. reflexivity.
  - solve_keys.
  - solve_keys.
Defined.

(** ** [merge] through [mergeRegisters] *)

(** X4.  [a.merge(b)] is [a.mergeRegisters(b.getRegisters())]: the two calls
    return the same completion and leave the same store, whatever the
    estimators and their buffers are. *)
Theorem merge_as_mergeRegisters (s : store) (a b : loc) :
  Hll.merge a b s
  = (do r <- Hll.getRegisters b; Hll.mergeRegisters a r) s.
Proof.
  unfold Hll.merge, Hll.getRegisters, Hll.mergeRegisters, bind, gets, modify.
  apply (f_equal (Normal tt)). unfold registers_of at 1.
  apply (foldl_ext_inv (fun t => objects t = objects s)).
  - intros t i Ht. unfold Hll.merge_step, Hll.mergeRegisters_step, registers_of.
    unfold object_of. by rewrite Ht.
  - intros t i Ht. by rewrite mergeRegisters_step_objects.
  - reflexivity.
Qed.

(** ** [clz56] and the binary logarithm *)

Lemma lz_log2 n : forall y,
  0 <= y < 2 ^ Z.of_nat n ->
  Hll.lz n y = if y =? 0 then Z.of_nat n else Z.of_nat n - 1 - Z.log2 y.
Proof.
  induction n as [|n IH]; intros y Hy.
  - simpl in *. assert (y = 0) as -> by lia. reflexivity.
  - cbn [Hll.lz]. rewrite Nat2Z.inj_succ, Z.pow_succ_r in Hy by lia.
    destruct (Z.testbit y (Z.of_nat n)) eqn:Hbit.
    + assert (Hge : 2 ^ Z.of_nat n <= y).
      { destruct (Z.le_gt_cases (2 ^ Z.of_nat n) y) as [|Hlt]; [done|].
        destruct (Z.eq_dec y 0) as [->|Hne]; [by rewrite Z.bits_0 in Hbit|].
        rewrite Z.bits_above_log2 in Hbit; [done|lia|].
        apply Z.log2_lt_pow2; lia. }
      assert (Hpos : 0 < 2 ^ Z.of_nat n) by (apply Z.pow_pos_nonneg; lia).
      destruct (Z.eqb_spec y 0) as [->|Hne]; [lia|].
      assert (Z.log2 y = Z.of_nat n).
      { apply Z.log2_unique; [lia|]. rewrite Z.pow_succ_r by lia. lia. }
      lia.
    + assert (Hlt : y < 2 ^ Z.of_nat n).
      { destruct (Z.le_gt_cases (2 ^ Z.of_nat n) y) as [Hge|]; [|lia].
        assert (Z.log2 y = Z.of_nat n).
        { apply Z.log2_unique; [lia|]. rewrite Z.pow_succ_r by lia. lia. }
        rewrite <- H, Z.bit_log2 in Hbit; [done|].
        assert (0 < 2 ^ Z.of_nat n) by (apply Z.pow_pos_nonneg; lia). lia. }
      rewrite IH by lia. rewrite Nat2Z.inj_succ. destruct (y =? 0); lia.
Qed.

Lemma lz_low_bits n x : Hll.lz n x = Hll.lz n (x mod 2 ^ Z.of_nat n).
Proof.
  assert (H : forall k, (k <= n)%nat -> Hll.lz k x = Hll.lz k (x mod 2 ^ Z.of_nat n)).
  { induction k as [|k IH]; intros Hk; [reflexivity|].
    cbn [Hll.lz]. rewrite Z.mod_pow2_bits_low by lia. rewrite IH by lia. reflexivity. }
  by apply H.
Qed.

(** X5.  [clz56] returns on every BigInt; its result depends only on the low
    56 bits [y] of the argument: it is 56 when [y] is 0 and
    [55 - floor(log2 y)] otherwise, so it lies between 0 and 56. *)
Theorem clz56_log2 (x : Z) :
  let y := x mod 2 ^ 56 in
  Hll.clz56 x = Some (if y =? 0 then 56 else 55 - Z.log2 y)
  /\ Hll.clz56 x = Hll.clz56 y
  /\ (forall c, Hll.clz56 x = Some c -> 0 <= c <= 56).
Proof.
  intros y. assert (Hy : 0 <= y < 2 ^ Z.of_nat 56).
  { apply Z.mod_pos_bound. reflexivity. }
  split; [|split].
  - rewrite clz56_lz, (lz_low_bits 56 x). fold y. rewrite lz_log2 by exact Hy.
    reflexivity.
  - rewrite !clz56_lz. f_equal. rewrite (lz_low_bits 56 x), (lz_low_bits 56 y).
    unfold y. by rewrite Z.mod_mod.
  - intros c. rewrite clz56_lz. intros [= <-]. apply (lz_bounds 56).
Qed.

(** ** Invariants of the registers *)

(** What one [add] does to the registers, whatever the key is. *)
Lemma add_registers this pubkey s :
  let regs := registers_of s this in
  let regs' := registers_of (exec (Hll.add this pubkey) s) this in
  regs' = regs
  \/ exists j c old,
       0 <= c <= 56 /\ regs !! j = Some old /\ old < c + 1
       /\ regs' = <[j := c + 1]> regs.
Proof.
  intros regs regs'. unfold regs', exec, Hll.add.
  destruct (getBigUint64 _) as [w|]; [|by left].
  rewrite clz56_lz. pose proof (lz_bounds 56 w) as Hc.
  set (c := Hll.lz 56 w) in *.
  destruct (subarray _ _ _ !! 0%nat) as [j|]; [|by left].
  unfold elem, elem_set. destruct (Z.ltb_spec j 0) as [Hj|Hj]; [by left|].
  destruct (array_of s (registers (object_of s this)) !! Z.to_nat j) as [old|] eqn:Hold;
    [|by left].
  simpl. destruct (Z.ltb_spec old (c + 1)) as [Hlt|Hge]; [|by left].
  right. exists (Z.to_nat j), c, old. split; [simpl in Hc; lia|].
  split; [exact Hold|]. split; [exact Hlt|]. simpl.
  unfold registers_of. rewrite object_of_set_array, array_of_set_array.
  rewrite decide_True by done. unfold ToUint8. rewrite Z.mod_small; [done|].
  simpl in Hc. lia.
Qed.

Lemma Forall2_le_refl (l : list Z) : Forall2 Z.le l l.
Proof. induction l; constructor; [lia|done]. Qed.

Lemma merge_arrays_grows r : forall o,
  Forall is_byte o -> Forall2 Z.le r (merge_arrays r o).
Proof.
  induction r as [|x r IH]; intros [|y o] Ho; simpl; try apply Forall2_le_refl.
  apply Forall_cons in Ho as [[? ?] Ho]. constructor; [|by apply IH].
  unfold ToUint8. destruct (Z.ltb_spec x y); [rewrite Z.mod_small|]; lia.
Qed.

Lemma merge_arrays_range r : forall o,
  Forall rank_range r -> Forall rank_range o -> Forall rank_range (merge_arrays r o).
Proof.
  induction r as [|x r IH]; intros [|y o] Hr Ho; simpl; try done.
  apply Forall_cons in Hr as [Hx Hr]. apply Forall_cons in Ho as [Hy Ho].
  constructor; [|by apply IH].
  unfold ToUint8, rank_range in *. destruct (x <? y); [rewrite Z.mod_small|]; lia.
Qed.

(** X6.  [add], [merge] and [mergeRegisters] only raise registers: after any
    of them every register holds at least what it held before, and the
    register buffer keeps its length. *)
Theorem registers_only_grow (s : store) (this : loc) :
  (forall pubkey,
     Forall2 Z.le (registers_of s this)
       (registers_of (exec (Hll.add this pubkey) s) this))
  /\ (forall other, Forall is_byte (registers_of s other) ->
        Forall2 Z.le (registers_of s this)
          (registers_of (exec (Hll.merge this other) s) this))
  /\ (forall other, Forall is_byte (array_of s other) ->
        Forall2 Z.le (registers_of s this)
          (registers_of (exec (Hll.mergeRegisters this other) s) this)).
Proof.
  split; [|split].
  - intros pubkey.
    destruct (add_registers this pubkey s) as [->|(j & c & old & Hc & Hold & Hlt & ->)].
    + apply Forall2_le_refl.
    + apply Forall2_same_length_lookup_2; [by rewrite length_insert|].
      intros i x y Hx Hy. destruct (decide (i = j)) as [->|Hne].
      * rewrite list_lookup_insert_eq in Hy by (by eapply lookup_lt_Some).
        injection Hy as <-. rewrite Hold in Hx. injection Hx as <-. lia.
      * rewrite list_lookup_insert_ne in Hy by done.
        rewrite Hx in Hy. injection Hy as <-. lia.
  - intros other Hbytes. destruct (merge_spec this other s) as (s' & Hrun & Hw).
    unfold exec. rewrite Hrun. simpl.
    rewrite (writes_only_registers_of _ _ _ _ this Hw), decide_True by done.
    by apply merge_arrays_grows.
  - intros other Hbytes. destruct (mergeRegisters_spec this other s) as (s' & Hrun & Hw).
    unfold exec. rewrite Hrun. simpl.
    rewrite (writes_only_registers_of _ _ _ _ this Hw), decide_True by done.
    by apply merge_arrays_grows.
Qed.

Lemma registers_only_grow_witness :
  Forall2 Z.le (registers_of three_estimators 1%positive)
    (registers_of (exec (Hll.merge 1%positive 2%positive) three_estimators) 1%positive).
Proof.
  destruct (registers_only_grow three_estimators 1%positive) as (_ & Hmerge & _).
  exact (Hmerge 2%positive ltac:(solve_bytes)).
Defined.

Lemma constructor_registers off o s s' :
  Hll.constructor off s = Normal o s' -> registers_of s' o = replicate 256 0.
Proof.
  intros Hrun. destruct (decide (0 <= off <= 24)) as [Hoff|Hoff].
  - rewrite constructor_ok in Hrun by assumption. injection Hrun as <- <-.
    unfold registers_of. rewrite object_of_set_object, decide_True by reflexivity.
    cbn [registers]. rewrite array_of_set_object, array_of_set_array.
    rewrite decide_True by reflexivity. reflexivity.
  - rewrite constructor_fail in Hrun by assumption. discriminate.
Qed.

(** X7.  The registers stay between 0 and 57: a new estimator holds zeros
    only and [clear] puts every register back to zero, [add] keeps the range
    whatever its argument, and [merge] and [mergeRegisters] keep it when the
    registers merged in are in it. *)
Theorem ranks_bounded (s : store) (this : loc) :
  (forall off o s', Hll.constructor off s = Normal o s' ->
     registers_of s' o = replicate 256 0
     /\ Forall rank_range (registers_of s' o))
  /\ (registers_of (exec (Hll.clear this) s) this
      = replicate (length (registers_of s this)) 0
      /\ Forall rank_range (registers_of (exec (Hll.clear this) s) this))
  /\ (Forall rank_range (registers_of s this) ->
      (forall pubkey,
         Forall rank_range (registers_of (exec (Hll.add this pubkey) s) this))
      /\ (forall other, Forall rank_range (registers_of s other) ->
            Forall rank_range (registers_of (exec (Hll.merge this other) s) this))
      /\ (forall other, Forall rank_range (array_of s other) ->
            Forall rank_range
              (registers_of (exec (Hll.mergeRegisters this other) s) this))).
Proof.
  assert (Hzeros : forall n, Forall rank_range (replicate n 0)).
  { intros n. apply Forall_replicate. unfold rank_range. lia. }
  split; [|split].
  - intros off o s' Hrun. rewrite (constructor_registers _ _ _ _ Hrun).
    split; [reflexivity|apply Hzeros].
  - destruct (clear_spec this s) as (s' & Hrun & Hw).
    unfold exec. rewrite Hrun. simpl.
    rewrite (writes_only_registers_of _ _ _ _ this Hw), decide_True by done.
    split; [reflexivity|apply Hzeros].
  - intros Hr. split; [|split].
    + intros pubkey.
      destruct (add_registers this pubkey s) as [->|(j & c & old & Hc & Hold & Hlt & ->)];
        [done|].
      apply Forall_insert; [done|]. unfold rank_range. lia.
    + intros other Ho. destruct (merge_spec this other s) as (s' & Hrun & Hw).
      unfold exec. rewrite Hrun. simpl.
      rewrite (writes_only_registers_of _ _ _ _ this Hw), decide_True by done.
      by apply merge_arrays_range.
    + intros other Ho. destruct (mergeRegisters_spec this other s) as (s' & Hrun & Hw).
      unfold exec. rewrite Hrun. simpl.
      rewrite (writes_only_registers_of _ _ _ _ this Hw), decide_True by done.
      by apply merge_arrays_range.
Qed.

Lemma ranks_bounded_witness :
  Forall rank_range
    (registers_of (exec (Hll.add 1%positive 3%positive) two_estimators) 1%positive).
Proof.
  destruct (ranks_bounded two_estimators 1%positive) as (_ & _ & Hkeep).
  destruct Hkeep as (Hadd & _).
  - assert (H : registers_of two_estimators 1%positive = replicate 256 0)
      by (vm_compute; reflexivity).
    rewrite H. apply Forall_replicate. unfold rank_range. lia.
  - exact (Hadd 3%positive).
Defined.

(** ** The empty estimator *)

Lemma count_registers_zeros (Math_log : float -> float) :
  Math_log 1%float = 0%float ->
  Hll.count_registers Math_log (replicate 256 0) = 0%float.
Proof.
  intros Hlog. rewrite (count_registers_linear Math_log _ 256).
  - change (256 / Hll.Number 256)%float with 1%float. rewrite Hlog.
    vm_compute. reflexivity.
  - vm_compute. reflexivity.
  - discriminate.
  - change (256 / Hll.Number 256)%float with 1%float. rewrite Hlog.
    vm_compute. reflexivity.
Qed.

(** X8.  An estimator without any key counts 0: [count] returns 0 on a new
    estimator and on one that was just cleared, provided [Math.log(1)] is 0,
    as ECMAScript requires. *)
Theorem empty_estimator_counts_zero (Math_log : float -> float) (s : store) :
  Math_log 1%float = 0%float ->
  (forall off, 0 <= off <= 24 ->
     exists s', (do h <- Hll.constructor off; Hll.count Math_log h) s
                = Normal 0%float s')
  /\ (forall this, length (registers_of s this) = 256%nat ->
        exists s', (Hll.clear this ;; Hll.count Math_log this) s
                   = Normal 0%float s').
Proof.
  intros Hlog. split.
  - intros off Hoff.
    destruct (Hll.constructor off s) as [o s'| |] eqn:Hrun;
      [|by rewrite constructor_ok in Hrun..].
    exists s'. unfold bind. rewrite Hrun. unfold Hll.count, gets.
    rewrite (constructor_registers _ _ _ _ Hrun).
    by rewrite count_registers_zeros.
  - intros this Hlen. destruct (clear_spec this s) as (s' & Hrun & Hw).
    exists s'. unfold bind. rewrite Hrun. unfold Hll.count, gets.
    rewrite (writes_only_registers_of _ _ _ _ this Hw), decide_True by done.
    rewrite Hlen. by rewrite count_registers_zeros.
Qed.

Lemma empty_estimator_counts_zero_witness :
  exists s', (do h <- Hll.constructor 0; Hll.count Hll.ln_series h) empty_store
             = Normal 0%float s'.
Proof.
  destruct (empty_estimator_counts_zero Hll.ln_series empty_store) as [Hnew _].
  - vm_compute. reflexivity.
  - apply Hnew. lia.
Defined.

(** ** Shared and copied buffers *)

Lemma mutate_objects a m t :
  (forall enc, m <> Hll.SetRegisters enc) ->
  objects (exec (Hll.mutate a m) t) = objects t.
Proof.
  intros Hm. destruct m as [k|k|o|o| |enc]; cbn [Hll.mutate].
  - apply add_frames.
  - apply add_frames.
  - apply merge_frames.
  - apply mergeRegisters_frames.
  - apply clear_frames.
  - by destruct (Hm enc).
Qed.

Lemma mutate_all_objects a ms : forall t,
  Forall (fun m => forall enc, m <> Hll.SetRegisters enc) ms ->
  objects (Hll.mutate_all a ms t) = objects t.
Proof.
  induction ms as [|m ms IH]; intros t Hms; [reflexivity|].
  apply Forall_cons in Hms as [Hm Hms].
  unfold Hll.mutate_all in *. simpl. by rewrite IH, mutate_objects.
Qed.

(** X9.  [setRegisters] stores the array it is given, not a copy: after
    [a.setRegisters(b.getRegisters())], [getRegisters] on [a] returns the
    buffer of [b], and whatever [add], [addBytes], [merge], [mergeRegisters]
    and [clear] calls are then made on [a], the two estimators hold the same
    buffer and [b] sees the registers that [a] sees. *)
Theorem setRegisters_shares_buffer (s : store) (a b : loc) (ms : list Hll.mutation) :
  Forall (fun m => forall enc, m <> Hll.SetRegisters enc) ms ->
  let s1 := exec (do r <- Hll.getRegisters b; Hll.setRegisters a r) s in
  let s2 := Hll.mutate_all a ms s1 in
  Hll.getRegisters a s1 = Normal (registers (object_of s b)) s1
  /\ registers (object_of s2 a) = registers (object_of s b)
  /\ registers (object_of s2 b) = registers (object_of s b)
  /\ registers_of s2 b = registers_of s2 a.
Proof.
  intros Hms s1 s2.
  assert (Hs1 : s1 = set_object s a
                       (mkHyperLogLog (offset (object_of s a)) (registers (object_of s b))))
    by reflexivity.
  assert (Ha : registers (object_of s1 a) = registers (object_of s b)).
  { rewrite Hs1, object_of_set_object, decide_True by done. reflexivity. }
  assert (Hb : registers (object_of s1 b) = registers (object_of s b)).
  { rewrite Hs1, object_of_set_object. by destruct (decide (b = a)) as [->|]. }
  assert (Hobj : forall o, object_of s2 o = object_of s1 o).
  { intros o. unfold object_of, s2. by rewrite mutate_all_objects. }
  split; [|split; [|split]].
  - unfold Hll.getRegisters, gets. by rewrite Ha.
  - by rewrite Hobj.
  - by rewrite Hobj.
  - unfold registers_of. by rewrite !Hobj, Ha, Hb.
Qed.

Lemma setRegisters_shares_buffer_witness :
  let s1 := exec (do r <- Hll.getRegisters 2%positive; Hll.setRegisters 1%positive r)
              two_estimators in
  let s2 := Hll.mutate_all 1%positive [Hll.Add 3%positive; Hll.Add 4%positive] s1 in
  registers_of s2 2%positive = registers_of s2 1%positive.
Proof.
  apply (setRegisters_shares_buffer two_estimators 1%positive 2%positive
           [Hll.Add 3%positive; Hll.Add 4%positive]).
  repeat constructor; discriminate.
Defined.

(** X10.  [newWithRegisters] copies the array it is given: for every array of
    256 bytes and every offset from 0 to 24 it returns a new estimator with
    that offset whose register buffer is newly allocated and holds the bytes
    of the array; no array or object that existed is changed, and a later
    write to the array is not seen by the estimator. *)
Theorem newWithRegisters_copies (s : store) (buf : loc) (off : Z) :
  allocated_array s buf -> 0 <= off <= 24 -> length (array_of s buf) = 256%nat ->
  exists o s',
    Hll.newWithRegisters buf off s = Normal o s'
    /\ ~ allocated_object s o
    /\ ~ allocated_array s (registers (object_of s' o))
    /\ offset (object_of s' o) = off
    /\ registers_of s' o = array_of s buf
    /\ (forall a, allocated_array s a -> array_of s' a = array_of s a)
    /\ (forall o', allocated_object s o' -> object_of s' o' = object_of s o')
    /\ (forall v, registers_of (set_array s' buf v) o = array_of s buf).
Proof.
  intros Hbuf Hoff Hlen.
  rewrite newWithRegisters_valid_offset by assumption.
  rewrite decide_True by assumption.
  set (a := fresh (dom (arrays s))). set (o := fresh (dom (objects s))).
  eexists. eexists. split; [reflexivity|].
  assert (Hobj : object_of (set_array (set_object (set_array s a (replicate 256 0)) o
                              (mkHyperLogLog off a)) a (array_of s buf)) o
                 = mkHyperLogLog off a).
  { rewrite object_of_set_array, object_of_set_object. by rewrite decide_True. }
  assert (Hne : buf <> a) by (by apply fresh_array_not_allocated).
  repeat split.
  - intros H. by apply fresh_object_not_allocated in H.
  - rewrite Hobj. intros H. by apply fresh_array_not_allocated in H.
  - by rewrite Hobj.
  - unfold registers_of. rewrite Hobj. cbn [registers].
    by rewrite array_of_set_array, decide_True.
  - intros a' Ha'. apply fresh_array_not_allocated in Ha'. fold a in Ha'.
    rewrite array_of_set_array, decide_False by done.
    rewrite array_of_set_object, array_of_set_array. by rewrite decide_False.
  - intros o' Ho'. apply fresh_object_not_allocated in Ho'. fold o in Ho'.
    rewrite object_of_set_array, object_of_set_object. by rewrite decide_False.
  - intros v. unfold registers_of. rewrite object_of_set_array, Hobj. cbn [registers].
    rewrite array_of_set_array, decide_False by done.
    by rewrite array_of_set_array, decide_True.
Qed.

Lemma newWithRegisters_copies_witness :
  exists o s',
    Hll.newWithRegisters 1%positive 7 three_estimators = Normal o s'
    /\ registers_of s' o = array_of three_estimators 1%positive.
Proof.
  destruct (newWithRegisters_copies three_estimators 1%positive 7)
    as (o & s' & Hrun & _ & _ & _ & Hregs & _).
  - vm_compute. eexists. reflexivity.
  - lia.
  - vm_compute. reflexivity.
  - exists o, s'. by split.
Defined.

(** X11.  [add] never extends the register buffer: when the register a key
    selects lies beyond the end of the buffer (which [setRegisters] makes
    possible), the call returns normally and changes nothing. *)
Theorem add_ignores_missing_register (s : store) (this pubkey : loc) :
  let hll := object_of s this in
  let key := array_of s pubkey in
  0 <= offset hll -> usable_key (offset hll) key ->
  (length (registers_of s this) <= bucket (offset hll) key)%nat ->
  Hll.add this pubkey s = Normal tt s.
Proof.
  intros hll key Hoff Hkey Hlen.
  destruct (window_first _ _ Hoff Hkey) as (j & Hj & Hbyte & Hbucket & _).
  destruct Hkey as [Hk Hbytes].
  rewrite (add_in_range s this pubkey Hoff Hk Hbytes). fold hll key.
  change (take 8 (drop (Z.to_nat (offset hll)) key)) with (window (offset hll) key).
  rewrite Hj. unfold elem. destruct (Z.ltb_spec j 0) as [|_]; [done|].
  rewrite Hbucket in Hlen. unfold registers_of in Hlen. fold hll in Hlen.
  rewrite (lookup_ge_None_2 _ _ Hlen). reflexivity.
Qed.

Lemma add_ignores_missing_register_witness :
  Hll.add 1%positive 3%positive one_register_store = Normal tt one_register_store.
Proof.
  apply add_ignores_missing_register.
  - vm_compute. discriminate.
  - split; [vm_compute; discriminate|solve_bytes].
  - vm_compute. lia.
Defined.

(** ** Offsets and estimators *)

Lemma yielded_valid evt c :
  In c (Nip45.getEventPubkeyOffsetsAndReferences evt) ->
  (Nip45.kind evt = 3 \/ Nip45.kind evt = 7 \/ Nip45.kind evt = 1111)
  /\ exists v, c = Nip45.contribution v /\ Nip45.isValid32ByteHex (Some v) = true.
Proof.
  unfold Nip45.getEventPubkeyOffsetsAndReferences.
  destruct (Z.eqb_spec (Nip45.kind evt) 3) as [H3|H3].
  - rewrite follows_selected. intros Hc. split; [by left|].
    apply list_elem_of_In, list_elem_of_fmap in Hc as (v & -> & Hv).
    apply list_elem_of_omap in Hv as (tag & _ & Hsel).
    exists v. split; [done|]. by eapply selected_valid.
  - destruct (Z.eqb_spec (Nip45.kind evt) 7) as [H7|H7].
    + intros Hc. split; [by right; left|]. by eapply yield_second_valid.
    + destruct (Z.eqb_spec (Nip45.kind evt) 1111) as [H1111|H1111]; [|done].
      intros Hc. split; [by right; right|]. by eapply yield_second_valid.
Qed.

Lemma count_filter_eligible kind v :
  kind = 3 \/ kind = 7 \/ kind = 1111 ->
  Nip45.isValid32ByteHex (Some v) = true ->
  Nip45.eligible (count_filter kind v) (selector kind) kind v.
Proof.
  intros Hkind Hvalid. unfold Nip45.eligible, count_filter. cbn.
  split; [by left|]. split; [by left|]. split; [by left|]. split; [by left|].
  split; [by left|]. split; [done|]. split; [|split; [|split; [done|]]].
  - intros k. split.
    + intros [[x Hx] _]. apply lookup_singleton_Some in Hx as [<- _]. done.
    + intros ->. split; [by rewrite lookup_singleton_eq|].
      destruct Hkind as [->|[->| ->]]; reflexivity.
  - by rewrite lookup_singleton_eq.
  - unfold Nip45.supported. destruct Hkind as [->|[->| ->]]; cbn; tauto.
Qed.

(** X12.  An event and the COUNT filter for its references agree on the
    offset: every pair an event of kind [k] yields carries the offset that
    [getFilterPubkeyOffset] returns for the filter with the one kind [k] and
    the one reference under the selector of that kind, and this offset lies
    between 8 and 23. *)
Theorem event_and_filter_agree (evt : Nip45.Event) (c : Nip45.Contribution) :
  In c (Nip45.getEventPubkeyOffsetsAndReferences evt) ->
  let off := Nip45.getFilterPubkeyOffset
               (count_filter (Nip45.kind evt) (Nip45.reference c)) in
  Nip45.offset c = Some off /\ 8 <= off <= 23.
Proof.
  intros Hc off. destruct (yielded_valid evt c Hc) as (Hkind & v & -> & Hvalid).
  destruct (contribution_offset v Hvalid) as (d & n & Hd & Hdv & Hoff & Hn).
  destruct (eligible_offset _ _ _ _ (count_filter_eligible _ v Hkind Hvalid))
    as (d' & n' & Hd' & Hdv' & Hfilter).
  assert (n' = n) as -> by congruence.
  unfold off. cbn [Nip45.reference Nip45.contribution]. rewrite Hfilter.
  split; [exact Hoff|exact Hn].
Qed.

Lemma event_and_filter_agree_witness :
  Nip45.offset (Nip45.mkContribution Nip45.hex_b (Some 19))
  = Some (Nip45.getFilterPubkeyOffset (count_filter 7 Nip45.hex_b)).
Proof.
  apply (event_and_filter_agree Nip45.reaction). vm_compute. by left.
Defined.

Lemma filter_offset_range filter :
  Nip45.getFilterPubkeyOffset filter <> -1 ->
  8 <= Nip45.getFilterPubkeyOffset filter <= 23.
Proof.
  intros H. destruct (offset_eligible filter H) as (tagKey & kind & v & Hel).
  pose proof Hel as (_ & _ & _ & _ & _ & _ & _ & _ & Hvalid & _).
  destruct (valid_nibble v Hvalid) as (d & n & Hd & Hdv & Hn & _).
  destruct (eligible_offset filter tagKey kind v Hel) as (d' & n' & Hd' & Hdv' & ->).
  assert (n' = n) as -> by congruence. lia.
Qed.

(** X13.  The offset of a filter is an offset of an estimator: when
    [getFilterPubkeyOffset] returns an offset other than -1,
    [new HyperLogLog] accepts it, the estimator is empty, and [add] returns
    normally on every 32-byte key, reading bytes from 8 on; when it returns
    -1, the constructor raises. *)
Theorem filter_offset_constructs (filter : Nip45.Filter) (s : store) :
  let off := Nip45.getFilterPubkeyOffset filter in
  (off <> -1 ->
     exists o s',
       Hll.constructor off s = Normal o s'
       /\ offset (object_of s' o) = off
       /\ registers_of s' o = replicate 256 0
       /\ 8 <= off /\ off + 8 <= 32
       /\ forall pubkey, length (array_of s' pubkey) = 32%nat ->
            exists s'', Hll.add o pubkey s' = Normal tt s'')
  /\ (off = -1 -> Hll.constructor off s = Throw InvalidOffset s).
Proof.
  intros off. split.
  - intros Hoff. pose proof (filter_offset_range filter Hoff) as Hrange. fold off in Hrange.
    assert (Hrun := constructor_ok off s ltac:(lia)).
    eexists. eexists. split; [exact Hrun|].
    assert (Hobj : offset (object_of
                     (set_object (set_array s (fresh (dom (arrays s))) (replicate 256 0))
                        (fresh (dom (objects s)))
                        (mkHyperLogLog off (fresh (dom (arrays s)))))
                     (fresh (dom (objects s)))) = off).
    { by rewrite object_of_set_object, decide_True. }
    split; [exact Hobj|]. split; [|split; [lia|split; [lia|]]].
    + unfold registers_of. rewrite object_of_set_object, decide_True by done.
      cbn [registers]. by rewrite array_of_set_object, array_of_set_array, decide_True.
    + intros pubkey Hlen.
      pose proof (add_outcome (fresh (dom (objects s))) pubkey
                    (set_object (set_array s (fresh (dom (arrays s))) (replicate 256 0))
                       (fresh (dom (objects s)))
                       (mkHyperLogLog off (fresh (dom (arrays s)))))) as Hadd.
      cbv zeta in Hadd. rewrite Hobj, subarray_length, Hlen in Hadd by lia.
      destruct (Nat.ltb_spec (Z.to_nat (Z.max (Z.min (off + 8) (Z.of_nat 32)
                                - Z.min off (Z.of_nat 32)) 0)) 8) as [Hlt|_]; [lia|].
      destruct Hadd as (s'' & _ & Hs'' & _). by exists s''.
  - intros ->. apply constructor_fail. lia.
Qed.

Lemma filter_offset_constructs_witness :
  exists o s',
    Hll.constructor (Nip45.getFilterPubkeyOffset Nip45.follower_filter) empty_store
    = Normal o s'.
Proof.
  destruct (filter_offset_constructs Nip45.follower_filter empty_store) as [Hok _].
  destruct Hok as (o & s' & Hrun & _).
  - vm_compute. discriminate.
  - by exists o, s'.
Defined.

(** ** Properties a filter may carry *)

Lemma tagKeys_with_property filter filter' limit k v :
  String.prefix "#" k = false ->
  with_property filter limit k v = Some filter' ->
  Nip45.tagKeys filter' ≡ₚ Nip45.tagKeys filter.
Proof.
  intros Hk Hwith. unfold with_property in Hwith.
  destruct (decide _); [discriminate|]. injection Hwith as <-.
  apply NoDup_Permutation.
  - apply NoDup_ListNoDup, tagKeys_NoDup.
  - apply NoDup_ListNoDup, tagKeys_NoDup.
  - intros x. rewrite !list_elem_of_In, !tagKeys_In. cbn [Nip45.props].
    split; intros [Hsome Hx]; (split; [|exact Hx]).
    + rewrite lookup_insert_ne in Hsome; [done|]. intros ->. congruence.
    + rewrite lookup_insert_ne; [done|]. intros ->. congruence.
Qed.

(** X14.  [getFilterPubkeyOffset] looks at [ids], [authors], [since],
    [until], [search], [kinds] and the properties whose name starts with [#]
    only: giving the filter another [limit], and adding or replacing an own
    property whose name is none of the named properties and does not start
    with [#], leaves the result as it was. *)
Theorem filter_ignores_other_properties (filter filter' : Nip45.Filter)
    (limit : option Z) (k : string) (v : list string) :
  String.prefix "#" k = false ->
  with_property filter limit k v = Some filter' ->
  Nip45.getFilterPubkeyOffset filter' = Nip45.getFilterPubkeyOffset filter.
Proof.
  intros Hk Hwith.
  pose proof (tagKeys_with_property filter filter' limit k v Hk Hwith) as Hperm.
  unfold with_property in Hwith.
  destruct (decide _); [discriminate|]. injection Hwith as <-.
  set (filter' := Nip45.mkFilter _ _ _ _ _ _ _ _) in *.
  unfold Nip45.getFilterPubkeyOffset.
  change (Nip45.ids filter') with (Nip45.ids filter).
  change (Nip45.authors filter') with (Nip45.authors filter).
  change (Nip45.since filter') with (Nip45.since filter).
  change (Nip45.until filter') with (Nip45.until filter).
  change (Nip45.search filter') with (Nip45.search filter).
  change (Nip45.kinds filter') with (Nip45.kinds filter).
  destruct (Nip45.non_empty (Nip45.ids filter)); [done|].
  destruct (Nip45.non_empty (Nip45.authors filter)); [done|].
  destruct (Nip45.truthy_number (Nip45.since filter)); [done|].
  destruct (Nip45.truthy_number (Nip45.until filter)); [done|].
  destruct (Nip45.truthy_string (Nip45.search filter)); [done|].
  destruct (Nip45.kinds filter) as [[|kind [|? ?]]|]; try done.
  destruct (Nip45.tagKeys filter) as [|t [|t' ts]] eqn:Hkeys.
  - apply Permutation_nil_r in Hperm. by rewrite Hperm.
  - apply Permutation_singleton_r in Hperm. rewrite Hperm.
    assert (Ht : t <> k).
    { intros ->. assert (Hin : In k (Nip45.tagKeys filter)) by (rewrite Hkeys; by left).
      apply tagKeys_In in Hin as [_ Hp]. congruence. }
    change (Nip45.props filter') with (<[k := v]> (Nip45.props filter)).
    by rewrite lookup_insert_ne.
  - apply Permutation_length in Hperm.
    destruct (Nip45.tagKeys filter') as [|u [|u' us]];
      simpl in Hperm; try lia; done.
Qed.

Lemma filter_ignores_other_properties_witness :
  Nip45.getFilterPubkeyOffset
    (Nip45.mkFilter None None (Some [3]) None None (Some 10) None
       (<["relay"%string := ["wss://r"%string]]> {[ "#p"%string := [Nip45.hex_a] ]}))
  = Nip45.getFilterPubkeyOffset Nip45.follower_filter.
Proof.
  apply (filter_ignores_other_properties Nip45.follower_filter _ (Some 10)
           "relay" ["wss://r"%string]); reflexivity.
Defined.

(** ** Hex keys *)

Lemma hex_digit_value c :
  Nip45.is_hex_digit c = true <-> is_Some (Nip45.digit_value c).
Proof.
  destruct c as [[] [] [] [] [] [] [] []]; vm_compute;
    (split; [|intros [x Hx]]; first [discriminate|reflexivity|by eexists]).
Qed.

Lemma in_get (s : string) : forall c,
  In c (list_ascii_of_string s) -> exists i, String.get i s = Some c.
Proof.
  induction s as [|a s IH]; intros c; simpl; [done|].
  intros [->|Hc]; [by exists 0%nat|].
  destruct (IH c Hc) as [i Hi]. by exists (S i).
Qed.

Lemma get_lt (s : string) : forall i c,
  String.get i s = Some c -> (i < String.length s)%nat /\ In c (list_ascii_of_string s).
Proof.
  induction s as [|a s IH]; intros i c; simpl; [done|].
  destruct i as [|i].
  - intros [= ->]. split; [lia|by left].
  - intros Hi. destruct (IH i c Hi). split; [lia|by right].
Qed.

(** X15.  [isValid32ByteHex] accepts exactly the strings of 64 characters
    that are all hexadecimal digits, in either case, and rejects
    [undefined]; on an accepted string [parseInt(str[i], 16)] is a number
    from 0 to 15 at every index below 64, never [NaN]. *)
Theorem isValid32ByteHex_spec (str : string) :
  (Nip45.isValid32ByteHex (Some str) = true
   <-> String.length str = 64%nat
       /\ forall i c, String.get i str = Some c -> is_Some (Nip45.digit_value c))
  /\ Nip45.isValid32ByteHex None = false
  /\ (Nip45.isValid32ByteHex (Some str) = true ->
      forall i, (i < 64)%nat ->
        exists n, Nip45.parseInt16 (String.get i str) = Some n /\ 0 <= n <= 15).
Proof.
  assert (Hall : String.length str = 64%nat ->
                 Nip45.hex_regex_test str
                 = forallb Nip45.is_hex_digit (list_ascii_of_string str)).
  { by destruct str. }
  split; [|split; [reflexivity|]].
  - unfold Nip45.isValid32ByteHex. rewrite andb_true_iff, Nat.eqb_eq. split.
    + intros [Hlen Hre]. split; [exact Hlen|]. rewrite Hall in Hre by exact Hlen.
      intros i c Hc. apply hex_digit_value.
      apply (proj1 (forallb_forall _ _) Hre). by eapply get_lt.
    + intros [Hlen Hdigits]. split; [exact Hlen|]. rewrite Hall by exact Hlen.
      apply forallb_forall. intros c Hc. apply hex_digit_value.
      destruct (in_get _ _ Hc) as [i Hi]. by eapply Hdigits.
  - unfold Nip45.isValid32ByteHex. rewrite andb_true_iff, Nat.eqb_eq.
    intros [Hlen Hre] i Hi. rewrite Hall in Hre by exact Hlen.
    destruct (get_in str i) as (c & Hc & Hin); [lia|].
    rewrite Hc.
    destruct (parseInt16_digit c (proj1 (forallb_forall _ _) Hre c Hin))
      as (n & Hn & _ & Hrange).
    by exists n.
Qed.

Lemma isValid32ByteHex_spec_witness :
  exists n, Nip45.parseInt16 (String.get 40 Nip45.hex_b) = Some n /\ 0 <= n <= 15.
Proof.
  destruct (isValid32ByteHex_spec Nip45.hex_b) as (_ & _ & Hdigit).
  apply Hdigit; [vm_compute; reflexivity|lia].
Defined.

(** ** Small counts *)

Lemma band_mantissa_at (flo fhi : float) (lo hi : positive) (e : Z) y :
  Prim2SF flo = S754_finite false lo e ->
  Prim2SF fhi = S754_finite false hi e ->
  (flo <=? y)%float = true -> (y <? fhi)%float = true ->
  exists m, Prim2SF y = S754_finite false m e /\ Z.pos lo <= Z.pos m < Z.pos hi.
Proof.
  intros Hflo Hfhi. rewrite FloatAxioms.leb_spec, FloatAxioms.ltb_spec, Hflo, Hfhi.
  unfold SFleb, SFltb, SFcompare.
  destruct (Prim2SF y) as [s|s| |s m e']; try (destruct s); try discriminate.
  destruct (Z.compare_spec e e') as [He|He|He]; try discriminate.
  - subst e'. rewrite Z.compare_refl, !Pos.compare_cont_spec.
    unfold Pos.switch_Eq.
    destruct (Pos.compare_spec lo m) as [H1|H1|H1];
      destruct (Pos.compare_spec m hi) as [H2|H2|H2];
      intros Hlo Hhi; try discriminate Hlo; try discriminate Hhi;
      try apply Pos2Z.pos_lt_pos in H1; try apply Pos2Z.pos_lt_pos in H2;
      try apply (f_equal Z.pos) in H1;
      (exists m; split; [reflexivity|split; lia]).
  - intros _. destruct (Z.compare_spec e' e) as [H2|H2|H2];
      intros Hhi; try discriminate Hhi; lia.
Qed.

(** The product of 256 and a number with a 53-bit mantissa and exponent -60
    or -59 is exact. *)
Lemma SFmul_256_60 m :
  digits2_pos m = 53%positive ->
  SFmul prec emax (S754_finite false 4503599627370496 (-44))
                  (S754_finite false m (-60))
  = S754_finite false m (-52).
Proof.
  intros Hd. unfold SFmul, binary_round_aux, shr_fexp.
  let t := eval cbv [Pos.mul] in (4503599627370496 * m)%positive in
  change (4503599627370496 * m)%positive with t.
  cbn [xorb Zdigits2 digits2_pos]. rewrite Hd.
  cbv - [digits2_pos]. rewrite Hd. reflexivity.
Qed.

Lemma SFmul_256_59 m :
  digits2_pos m = 53%positive ->
  SFmul prec emax (S754_finite false 4503599627370496 (-44))
                  (S754_finite false m (-59))
  = S754_finite false m (-51).
Proof.
  intros Hd. unfold SFmul, binary_round_aux, shr_fexp.
  let t := eval cbv [Pos.mul] in (4503599627370496 * m)%positive in
  change (4503599627370496 * m)%positive with t.
  cbn [xorb Zdigits2 digits2_pos]. rewrite Hd.
  cbv - [digits2_pos]. rewrite Hd. reflexivity.
Qed.

(** A result between [1/256] and [3/512] gives a linear count whose floor is
    1, a result between [2/256] and [3/256] one whose floor is 2. *)
Lemma floor_one y :
  (1 / 256 <=? y)%float = true -> (y <? 3 / 512)%float = true ->
  (256 * y <=? 220)%float = true /\ Hll.Math_floor (256 * y)%float = 1%float.
Proof.
  intros Hlo Hhi.
  destruct (band_mantissa_at (1 / 256) (3 / 512) 4503599627370496 6755399441055744
              (-60) y) as (m & Hy & Hm); [reflexivity|reflexivity|exact Hlo|exact Hhi|].
  assert (Hmul : Prim2SF (256 * y)%float = S754_finite false m (-52)).
  { rewrite FloatAxioms.mul_spec, Hy.
    change (Prim2SF 256) with (S754_finite false 4503599627370496 (-44)).
    apply SFmul_256_60, digits2_pos_53.
    change (2 ^ 52) with 4503599627370496. change (2 ^ 53) with 9007199254740992. lia. }
  split.
  - rewrite FloatAxioms.leb_spec, Hmul. reflexivity.
  - unfold Hll.Math_floor. rewrite Hmul.
    change (Hll.Number (Z.pos m / 4503599627370496) = 1%float).
    replace (Z.pos m / 4503599627370496) with 1; [reflexivity|].
    apply Z.div_unique with (r := Z.pos m - 4503599627370496); lia.
Qed.

Lemma floor_two y :
  (2 / 256 <=? y)%float = true -> (y <? 3 / 256)%float = true ->
  (256 * y <=? 220)%float = true /\ Hll.Math_floor (256 * y)%float = 2%float.
Proof.
  intros Hlo Hhi.
  destruct (band_mantissa_at (2 / 256) (3 / 256) 4503599627370496 6755399441055744
              (-59) y) as (m & Hy & Hm); [reflexivity|reflexivity|exact Hlo|exact Hhi|].
  assert (Hmul : Prim2SF (256 * y)%float = S754_finite false m (-51)).
  { rewrite FloatAxioms.mul_spec, Hy.
    change (Prim2SF 256) with (S754_finite false 4503599627370496 (-44)).
    apply SFmul_256_59, digits2_pos_53.
    change (2 ^ 52) with 4503599627370496. change (2 ^ 53) with 9007199254740992. lia. }
  split.
  - rewrite FloatAxioms.leb_spec, Hmul. reflexivity.
  - unfold Hll.Math_floor. rewrite Hmul.
    change (Hll.Number (Z.pos m / 2251799813685248) = 2%float).
    replace (Z.pos m / 2251799813685248) with 2; [reflexivity|].
    apply Z.div_unique with (r := Z.pos m - 2 * 2251799813685248); lia.
Qed.

(** *** The logarithms behind the small counts *)

Section SmallLogarithms.
Local Open Scope R_scope.

Lemma exp_below (k : nat) (S X : Z) (h x : R) :
  (0 < S)%Z -> (0 <= X)%Z -> 0 <= h < 1 ->
  / (1 - h) <= IZR X / IZR S ->
  IZR (squarings_up k X S) / IZR S < x ->
  exp (INR (2 ^ k) * h) < x.
Proof.
  intros HS HX Hh HX0 Hx.
  eapply Rle_lt_trans; [apply exp_le_pow; lra|].
  eapply Rle_lt_trans; [|exact Hx].
  apply squarings_up_ge; [exact HS|exact HX|].
  split; [left; apply Rinv_0_lt_compat; lra|exact HX0].
Qed.

Lemma exp_above (k : nat) (S X : Z) (h x : R) :
  (0 < S)%Z -> (0 <= X)%Z -> 0 <= h ->
  IZR X / IZR S <= 1 + h ->
  x < IZR (squarings_down k X S) / IZR S ->
  x < exp (INR (2 ^ k) * h).
Proof.
  intros HS HX Hh HX0 Hx.
  eapply Rlt_le_trans; [|apply exp_ge_pow; lra].
  eapply Rlt_le_trans; [exact Hx|].
  by apply squarings_down_le.
Qed.

Lemma INR_1024 : INR (2 ^ 10) = 1024.
Proof.
  rewrite pow_INR. replace (INR 2) with (IZR 2) by (simpl; lra).
  rewrite pow_IZR. reflexivity.
Qed.

(** The Numbers [256 / 255] and [256 / 254], and their logarithms. *)
Lemma small_arguments :
  Number_value (256 / 255)%float = Some (IZR 4521260802379792 / IZR (2 ^ 52))
  /\ Number_value (256 / 254)%float = Some (IZR 4539061041759240 / IZR (2 ^ 52)).
Proof. split; reflexivity. Qed.

Lemma ln_256_255 :
  1 / 256 < ln (IZR 4521260802379792 / IZR (2 ^ 52)) < 3 / 512.
Proof.
  assert (Hpos : 0 < IZR 4521260802379792 / IZR (2 ^ 52)).
  { apply Rdiv_lt_0_compat; apply IZR_lt; reflexivity. }
  split.
  - rewrite <- (ln_exp (1 / 256)). apply ln_increasing; [apply exp_pos|].
    replace (1 / 256) with (INR (2 ^ 10) * (1 / 262144)) by (rewrite INR_1024; lra).
    apply (exp_below 10 (2 ^ 80) (2 ^ 80 * 262144 / 262143 + 1));
      [reflexivity|vm_compute; discriminate|lra| |].
    + let x := eval vm_compute in (2 ^ 80 * 262144 / 262143 + 1)%Z in
      change (2 ^ 80 * 262144 / 262143 + 1)%Z with x.
      let x := eval vm_compute in (2 ^ 80)%Z in change (2 ^ 80)%Z with x.
      apply (Rmult_le_reg_r (1 - 1 / 262144)); [lra|].
      rewrite Rinv_l by lra. lra.
    + apply ratio_lt; vm_compute; reflexivity.
  - rewrite <- (ln_exp (3 / 512)). apply ln_increasing; [exact Hpos|].
    replace (3 / 512) with (INR (2 ^ 10) * (3 / 524288)) by (rewrite INR_1024; lra).
    apply (exp_above 10 (2 ^ 80) (2 ^ 80 * 524291 / 524288));
      [reflexivity|vm_compute; discriminate|lra| |].
    + let x := eval vm_compute in (2 ^ 80 * 524291 / 524288)%Z in
      change (2 ^ 80 * 524291 / 524288)%Z with x.
      let x := eval vm_compute in (2 ^ 80)%Z in change (2 ^ 80)%Z with x.
      lra.
    + apply ratio_lt; vm_compute; reflexivity.
Qed.

Lemma ln_256_254 :
  2 / 256 < ln (IZR 4539061041759240 / IZR (2 ^ 52)) < 3 / 256.
Proof.
  assert (Hpos : 0 < IZR 4539061041759240 / IZR (2 ^ 52)).
  { apply Rdiv_lt_0_compat; apply IZR_lt; reflexivity. }
  split.
  - rewrite <- (ln_exp (2 / 256)). apply ln_increasing; [apply exp_pos|].
    replace (2 / 256) with (INR (2 ^ 10) * (1 / 131072)) by (rewrite INR_1024; lra).
    apply (exp_below 10 (2 ^ 80) (2 ^ 80 * 131072 / 131071 + 1));
      [reflexivity|vm_compute; discriminate|lra| |].
    + let x := eval vm_compute in (2 ^ 80 * 131072 / 131071 + 1)%Z in
      change (2 ^ 80 * 131072 / 131071 + 1)%Z with x.
      let x := eval vm_compute in (2 ^ 80)%Z in change (2 ^ 80)%Z with x.
      apply (Rmult_le_reg_r (1 - 1 / 131072)); [lra|].
      rewrite Rinv_l by lra. lra.
    + apply ratio_lt; vm_compute; reflexivity.
  - rewrite <- (ln_exp (3 / 256)). apply ln_increasing; [exact Hpos|].
    replace (3 / 256) with (INR (2 ^ 10) * (3 / 262144)) by (rewrite INR_1024; lra).
    apply (exp_above 10 (2 ^ 80) (2 ^ 80 * 262147 / 262144));
      [reflexivity|vm_compute; discriminate|lra| |].
    + let x := eval vm_compute in (2 ^ 80 * 262147 / 262144)%Z in
      change (2 ^ 80 * 262147 / 262144)%Z with x.
      let x := eval vm_compute in (2 ^ 80)%Z in change (2 ^ 80)%Z with x.
      lra.
    + apply ratio_lt; vm_compute; reflexivity.
Qed.

End SmallLogarithms.

(** *** Counting the zero registers *)

Lemma zero_registers_alter (f : Z -> Z) l : forall b x,
  l !! b = Some x ->
  Hll.zero_registers (alter f b l)
  = Hll.zero_registers l - (if x =? 0 then 1 else 0) + (if f x =? 0 then 1 else 0).
Proof.
  unfold Hll.zero_registers.
  induction l as [|y l IH]; intros [|b] x Hx; simpl in Hx; try discriminate.
  - injection Hx as ->. cbn [alter list_alter List.filter].
    destruct (x =? 0), (f x =? 0); cbn [length]; lia.
  - cbn [alter list_alter List.filter].
    specialize (IH b x Hx). cbn [alter] in IH.
    destruct (y =? 0); cbn [length]; lia.
Qed.

Lemma zero_registers_replicate n : Hll.zero_registers (replicate n 0) = Z.of_nat n.
Proof.
  unfold Hll.zero_registers. induction n as [|n IH]; [reflexivity|].
  cbn [replicate List.filter Z.eqb length]. lia.
Qed.

(** The registers of an empty estimator after one key, and after two. *)
Lemma with_sketch_one off key regs :
  Forall is_byte regs ->
  with_sketch off [key] regs = alter (Z.max (rank off key)) (bucket off key) regs.
Proof.
  intros Hb. rewrite <- with_sketch_cons, with_sketch_nil; [done|].
  apply Forall_alter; [done|]. intros x _ [? ?].
  pose proof (rank_bounds off key). unfold is_byte. lia.
Qed.

Lemma zeros_after_key off key keys :
  (bucket off key < 256)%nat ->
  Hll.countZeros (with_sketch off (key :: keys ++ [key]) (replicate 256 0))
  = Hll.countZeros (with_sketch off (key :: keys) (replicate 256 0)).
Proof.
  intros Hb. f_equal. apply imap_ext. intros i x _. f_equal.
  apply sketch_ext. intros k. rewrite !elem_of_cons, elem_of_app, elem_of_cons, elem_of_nil.
  tauto.
Qed.

Lemma zeros_after_one off key :
  (bucket off key < 256)%nat ->
  Hll.countZeros (with_sketch off [key] (replicate 256 0)) = 255.
Proof.
  intros Hb. pose proof (rank_bounds off key) as Hr.
  rewrite with_sketch_one by (apply Forall_replicate; unfold is_byte; lia).
  rewrite countZeros_zero_registers.
  rewrite (zero_registers_alter _ _ _ 0) by (by apply lookup_replicate_2).
  rewrite zero_registers_replicate. simpl (0 =? 0).
  destruct (Z.eqb_spec (Z.max (rank off key) 0) 0); lia.
Qed.

Lemma zeros_after_two off key1 key2 :
  (bucket off key1 < 256)%nat -> (bucket off key2 < 256)%nat ->
  bucket off key1 <> bucket off key2 ->
  Hll.countZeros (with_sketch off [key1; key2] (replicate 256 0)) = 254.
Proof.
  intros Hb1 Hb2 Hne.
  pose proof (rank_bounds off key1) as Hr1. pose proof (rank_bounds off key2) as Hr2.
  rewrite <- with_sketch_cons, with_sketch_one.
  - rewrite countZeros_zero_registers.
    rewrite (zero_registers_alter _ _ _ 0).
    + rewrite (zero_registers_alter _ _ _ 0) by (by apply lookup_replicate_2).
      rewrite zero_registers_replicate. simpl (0 =? 0).
      destruct (Z.eqb_spec (Z.max (rank off key1) 0) 0);
        destruct (Z.eqb_spec (Z.max (rank off key2) 0) 0); lia.
    + rewrite list_lookup_alter_ne by done. by apply lookup_replicate_2.
  - apply Forall_alter; [apply Forall_replicate; unfold is_byte; lia|].
    intros x _ [? ?]. unfold is_byte. lia.
Qed.

(** [count] after a loop of [add]s on an empty estimator. *)
Lemma count_after_adds Math_log this keys s :
  0 <= offset (object_of s this) ->
  registers_of s this = replicate 256 0 ->
  keys_for s this keys ->
  exists s',
    (add_each this keys ;; Hll.count Math_log this) s
    = Normal (Hll.count_registers Math_log
                (with_sketch (offset (object_of s this)) (array_of s <$> keys)
                   (replicate 256 0))) s'.
Proof.
  intros Hoff Hzero Hkeys.
  destruct (add_each_spec this keys s Hoff) as (s' & Hrun & Hw).
  - by rewrite Hzero, length_replicate.
  - rewrite Hzero. apply Forall_replicate. unfold is_byte. lia.
  - exact Hkeys.
  - exists s'. unfold bind. rewrite Hrun. unfold Hll.count, gets.
    rewrite (writes_only_registers_of _ _ _ _ this Hw), decide_True by done.
    by rewrite Hzero.
Qed.

(** X16.  Small sets are counted exactly: on an empty estimator, [count]
    returns 1 after one key was added, once or twice, provided [Math.log]
    takes 256/255 into the band from 1/256 to 3/512, and it returns 2
    after two keys that select different registers were added, provided
    [Math.log] takes 256/254 into the band from 2/256 to 3/256.  The bands
    hold the logarithms themselves (see [ln_256_255] and [ln_256_254]). *)
Theorem few_keys_counted (Math_log : float -> float) (s : store) (this k1 k2 : loc) :
  let off := offset (object_of s this) in
  0 <= off -> registers_of s this = replicate 256 0 ->
  keys_for s this [k1; k2] ->
  (log_band Math_log (256 / 255) (1 / 256) (3 / 512) ->
     (exists s', (add_each this [k1] ;; Hll.count Math_log this) s = Normal 1%float s')
     /\ (exists s', (add_each this [k1; k1] ;; Hll.count Math_log this) s
                    = Normal 1%float s'))
  /\ (log_band Math_log (256 / 254) (2 / 256) (3 / 256) ->
      bucket off (array_of s k1) <> bucket off (array_of s k2) ->
      exists s', (add_each this [k1; k2] ;; Hll.count Math_log this) s
                 = Normal 2%float s').
Proof.
  intros off Hoff Hzero Hkeys.
  pose proof Hkeys as Hkeys'.
  apply Forall_cons in Hkeys' as [[Hne1 Hu1] Hkeys'].
  apply Forall_cons in Hkeys' as [[Hne2 Hu2] _].
  destruct (window_first _ _ Hoff Hu1) as (j1 & _ & _ & _ & Hb1).
  destruct (window_first _ _ Hoff Hu2) as (j2 & _ & _ & _ & Hb2).
  assert (Hk1 : keys_for s this [k1]) by (by apply Forall_singleton).
  assert (Hk11 : keys_for s this [k1; k1]) by (by repeat apply Forall_cons_2).
  split.
  - intros [Hlo Hhi]. destruct (floor_one _ Hlo Hhi) as [Hle Hfloor].
    assert (Hone : forall regs, Hll.countZeros regs = 255 ->
                     Hll.count_registers Math_log regs = 1%float).
    { intros regs Hv. rewrite (count_registers_linear Math_log regs 255 Hv); [|lia|].
      - exact Hfloor.
      - exact Hle. }
    split.
    + destruct (count_after_adds Math_log this [k1] s Hoff Hzero Hk1) as (s' & ->).
      exists s'. f_equal. apply Hone, zeros_after_one, Hb1.
    + destruct (count_after_adds Math_log this [k1; k1] s Hoff Hzero Hk11) as (s' & ->).
      exists s'. f_equal. apply Hone. cbn [fmap list_fmap].
      etransitivity; [exact (zeros_after_key _ (array_of s k1) [] Hb1)|].
      apply zeros_after_one, Hb1.
  - intros [Hlo Hhi] Hdiff. destruct (floor_two _ Hlo Hhi) as [Hle Hfloor].
    destruct (count_after_adds Math_log this [k1; k2] s Hoff Hzero Hkeys) as (s' & ->).
    exists s'. f_equal.
    rewrite (count_registers_linear Math_log _ 254); [exact Hfloor| |lia|exact Hle].
    by apply zeros_after_two.
Qed.

Lemma few_keys_counted_witness :
  (exists s', (add_each 1%positive [3; 3]%positive ;; Hll.count Hll.ln_series 1%positive)
                two_estimators = Normal 1%float s')
  /\ (exists s', (add_each 1%positive [3; 4]%positive ;; Hll.count Hll.ln_series 1%positive)
                   two_estimators = Normal 2%float s').
Proof.
  destruct (few_keys_counted Hll.ln_series two_estimators 1%positive 3%positive 4%positive)
    as [Hone Htwo].
  - vm_compute. discriminate.
  - vm_compute. reflexivity.
  - solve_keys.
  - split.
    + destruct Hone as [_ Hsame]; [split; vm_compute; reflexivity|exact Hsame].
    + apply Htwo; [split; vm_compute; reflexivity|vm_compute; lia].
Defined.
